(** * candiedyaml: the event-producing YAML parser (parser.go)

    A shallow embedding of [parser.go] and the properties of its state
    machine.  The parser is a pushdown automaton: [yaml_parser_parse] looks
    at the current state, peeks at the head of the token queue and produces
    one event per call.

    Conventions of the embedding.
    - A Go function [f(parser *yaml_parser_t, ...)] becomes a computation in
      the monad [M], which threads the parser and can end in a Go run-time
      panic.  The [*event] argument is threaded as an ordinary value: a
      handler receives the current content of the event slot and returns the
      content it leaves there, next to its boolean result.
    - [peek_token] returns a pointer into [parser.tokens]; the model carries
      the token it points to.  This takes the scanner to leave alone the
      cell of a token the parser has peeked at: it appends to the queue and
      inserts at or behind the head, it does not move consumed cells.
    - Slices used as stacks ([parser.states], [parser.marks]) are lists whose
      top is the last element, as [append] and [s[:len(s)-1]] have it.
    - The two loops of the file that wait for a token of another kind take a
      fuel argument, one unit per iteration. *)

From Stdlib Require Import List ZArith Bool Arith Lia.
From Stdlib.Strings Require Import String Byte.
Import ListNotations.

Local Open Scope Z_scope.

(** ** Data model *)

(** Modelled from the spec: the declarations of the marks, tokens, events and
    of the parser object live outside [parser.go].  The enumerations below
    list the kinds the specification names, and the records have the fields
    [parser.go] reads and writes.  A mark is a position
    [(byte offset, line, column)]. *)
Record yaml_mark_t := {
  index : Z;
  line : Z;
  column : Z
}.

Definition yaml_mark_zero : yaml_mark_t := {| index := 0; line := 0; column := 0 |}.

(** Modelled from the spec: the error categories. *)
Inductive yaml_error_type_t :=
| YAML_NO_ERROR
| YAML_READER_ERROR
| YAML_SCANNER_ERROR
| YAML_PARSER_ERROR
| YAML_COMPOSER_ERROR.

(** Modelled from the spec: the encodings a stream-start token announces. *)
Inductive yaml_encoding_t :=
| YAML_ANY_ENCODING
| YAML_UTF8_ENCODING
| YAML_UTF16LE_ENCODING
| YAML_UTF16BE_ENCODING.

(** Modelled from the spec: the token types; [YAML_NO_TOKEN] is the zero
    value. *)
Inductive yaml_token_type_t :=
| YAML_NO_TOKEN
| YAML_STREAM_START_TOKEN
| YAML_STREAM_END_TOKEN
| YAML_VERSION_DIRECTIVE_TOKEN
| YAML_TAG_DIRECTIVE_TOKEN
| YAML_DOCUMENT_START_TOKEN
| YAML_DOCUMENT_END_TOKEN
| YAML_BLOCK_SEQUENCE_START_TOKEN
| YAML_BLOCK_MAPPING_START_TOKEN
| YAML_BLOCK_END_TOKEN
| YAML_FLOW_SEQUENCE_START_TOKEN
| YAML_FLOW_SEQUENCE_END_TOKEN
| YAML_FLOW_MAPPING_START_TOKEN
| YAML_FLOW_MAPPING_END_TOKEN
| YAML_BLOCK_ENTRY_TOKEN
| YAML_FLOW_ENTRY_TOKEN
| YAML_KEY_TOKEN
| YAML_VALUE_TOKEN
| YAML_ALIAS_TOKEN
| YAML_ANCHOR_TOKEN
| YAML_TAG_TOKEN
| YAML_SCALAR_TOKEN.

(** Modelled from the spec: the event variants; [YAML_NO_EVENT] is the type
    of the zero event. *)
Inductive yaml_event_type_t :=
| YAML_NO_EVENT
| YAML_STREAM_START_EVENT
| YAML_STREAM_END_EVENT
| YAML_DOCUMENT_START_EVENT
| YAML_DOCUMENT_END_EVENT
| YAML_ALIAS_EVENT
| YAML_SCALAR_EVENT
| YAML_SEQUENCE_START_EVENT
| YAML_SEQUENCE_END_EVENT
| YAML_MAPPING_START_EVENT
| YAML_MAPPING_END_EVENT.

(** Modelled from the spec: the styles of scalars, sequences and mappings;
    the first of each is the zero value. *)
Inductive yaml_scalar_style_t :=
| YAML_ANY_SCALAR_STYLE
| YAML_PLAIN_SCALAR_STYLE
| YAML_SINGLE_QUOTED_SCALAR_STYLE
| YAML_DOUBLE_QUOTED_SCALAR_STYLE
| YAML_LITERAL_SCALAR_STYLE
| YAML_FOLDED_SCALAR_STYLE.

Inductive yaml_sequence_style_t :=
| YAML_ANY_SEQUENCE_STYLE
| YAML_BLOCK_SEQUENCE_STYLE
| YAML_FLOW_SEQUENCE_STYLE.

Inductive yaml_mapping_style_t :=
| YAML_ANY_MAPPING_STYLE
| YAML_BLOCK_MAPPING_STYLE
| YAML_FLOW_MAPPING_STYLE.

(** The 24 states of the automaton, in the order of the dispatcher. *)
Inductive yaml_parser_state_t :=
| YAML_PARSE_STREAM_START_STATE
| YAML_PARSE_IMPLICIT_DOCUMENT_START_STATE
| YAML_PARSE_DOCUMENT_START_STATE
| YAML_PARSE_DOCUMENT_CONTENT_STATE
| YAML_PARSE_DOCUMENT_END_STATE
| YAML_PARSE_BLOCK_NODE_STATE
| YAML_PARSE_BLOCK_NODE_OR_INDENTLESS_SEQUENCE_STATE
| YAML_PARSE_FLOW_NODE_STATE
| YAML_PARSE_BLOCK_SEQUENCE_FIRST_ENTRY_STATE
| YAML_PARSE_BLOCK_SEQUENCE_ENTRY_STATE
| YAML_PARSE_INDENTLESS_SEQUENCE_ENTRY_STATE
| YAML_PARSE_BLOCK_MAPPING_FIRST_KEY_STATE
| YAML_PARSE_BLOCK_MAPPING_KEY_STATE
| YAML_PARSE_BLOCK_MAPPING_VALUE_STATE
| YAML_PARSE_FLOW_SEQUENCE_FIRST_ENTRY_STATE
| YAML_PARSE_FLOW_SEQUENCE_ENTRY_STATE
| YAML_PARSE_FLOW_SEQUENCE_ENTRY_MAPPING_KEY_STATE
| YAML_PARSE_FLOW_SEQUENCE_ENTRY_MAPPING_VALUE_STATE
| YAML_PARSE_FLOW_SEQUENCE_ENTRY_MAPPING_END_STATE
| YAML_PARSE_FLOW_MAPPING_FIRST_KEY_STATE
| YAML_PARSE_FLOW_MAPPING_KEY_STATE
| YAML_PARSE_FLOW_MAPPING_VALUE_STATE
| YAML_PARSE_FLOW_MAPPING_EMPTY_VALUE_STATE
| YAML_PARSE_END_STATE.

Scheme Equality for yaml_token_type_t.
Scheme Equality for yaml_scalar_style_t.
Scheme Equality for yaml_error_type_t.
Scheme Equality for yaml_parser_state_t.

(** Modelled from the spec: [yaml_style_t] is the integer type the three
    style enumerations are converted to when they are stored in an event,
    [yaml_style_t(YAML_PLAIN_SCALAR_STYLE)]; the constants are numbered in
    the order of their declaration. *)
Definition yaml_style_t := Z.

Definition yaml_style_of_scalar (s : yaml_scalar_style_t) : yaml_style_t :=
  match s with
  | YAML_ANY_SCALAR_STYLE => 0
  | YAML_PLAIN_SCALAR_STYLE => 1
  | YAML_SINGLE_QUOTED_SCALAR_STYLE => 2
  | YAML_DOUBLE_QUOTED_SCALAR_STYLE => 3
  | YAML_LITERAL_SCALAR_STYLE => 4
  | YAML_FOLDED_SCALAR_STYLE => 5
  end.

Definition yaml_style_of_sequence (s : yaml_sequence_style_t) : yaml_style_t :=
  match s with
  | YAML_ANY_SEQUENCE_STYLE => 0
  | YAML_BLOCK_SEQUENCE_STYLE => 1
  | YAML_FLOW_SEQUENCE_STYLE => 2
  end.

Definition yaml_style_of_mapping (s : yaml_mapping_style_t) : yaml_style_t :=
  match s with
  | YAML_ANY_MAPPING_STYLE => 0
  | YAML_BLOCK_MAPPING_STYLE => 1
  | YAML_FLOW_MAPPING_STYLE => 2
  end.

(** Modelled from the spec: the payload of a %YAML and of a %TAG directive. *)
Record yaml_version_directive_t := {
  major : Z;
  minor : Z
}.

Record yaml_tag_directive_t := {
  handle : list byte;
  prefix : list byte
}.

(** Modelled from the spec: a token, with the fields [parser.go] reads.
    [value] is the handle of a tag and of a tag directive. *)
Module Token.
Record yaml_token_t := {
  token_type : yaml_token_type_t;
  start_mark : yaml_mark_t;
  end_mark : yaml_mark_t;
  encoding : yaml_encoding_t;
  value : list byte;
  suffix : list byte;
  prefix : list byte;
  style : yaml_scalar_style_t;
  major : Z;
  minor : Z
}.
End Token.
Abbreviation yaml_token_t := Token.yaml_token_t.

(** Modelled from the spec: an event, with the fields [parser.go] writes.
    On a scalar event [implicit] is the plain-implicit flag. *)
Module Event.
Record yaml_event_t := {
  event_type : yaml_event_type_t;
  start_mark : yaml_mark_t;
  end_mark : yaml_mark_t;
  encoding : yaml_encoding_t;
  version_directive : option yaml_version_directive_t;
  tag_directives : list yaml_tag_directive_t;
  anchor : list byte;
  tag : list byte;
  value : list byte;
  implicit : bool;
  quoted_implicit : bool;
  style : yaml_style_t
}.
End Event.
Abbreviation yaml_event_t := Event.yaml_event_t.

(** The value of [yaml_event_t{}]. *)
Definition yaml_event_zero : yaml_event_t :=
  {| Event.event_type := YAML_NO_EVENT;
     Event.start_mark := yaml_mark_zero;
     Event.end_mark := yaml_mark_zero;
     Event.encoding := YAML_ANY_ENCODING;
     Event.version_directive := None;
     Event.tag_directives := [];
     Event.anchor := [];
     Event.tag := [];
     Event.value := [];
     Event.implicit := false;
     Event.quoted_implicit := false;
     Event.style := 0 |}.

(** Modelled from the spec: the part of the parser object [parser.go] works
    on.  The fields of the reader and of the scanner are not represented: the
    scanner is a parameter of the development. *)
Record yaml_parser_t := {
  error : yaml_error_type_t;
  problem : string;
  problem_mark : yaml_mark_t;
  context : string;
  context_mark : yaml_mark_t;
  tokens : list yaml_token_t;
  tokens_head : nat;
  tokens_parsed : Z;
  token_available : bool;
  stream_end_produced : bool;
  state : yaml_parser_state_t;
  states : list yaml_parser_state_t;
  marks : list yaml_mark_t;
  tag_directives : list yaml_tag_directive_t
}.

(** Field updates. *)
Definition set_error_fields (e : yaml_error_type_t) (ctx : string) (cm : yaml_mark_t)
    (pb : string) (pm : yaml_mark_t) (p : yaml_parser_t) : yaml_parser_t :=
  {| error := e; problem := pb; problem_mark := pm; context := ctx; context_mark := cm;
     tokens := tokens p; tokens_head := tokens_head p; tokens_parsed := tokens_parsed p;
     token_available := token_available p; stream_end_produced := stream_end_produced p;
     state := state p; states := states p; marks := marks p;
     tag_directives := tag_directives p |}.

Definition set_queue (h : nat) (n : Z) (a se : bool) (p : yaml_parser_t) : yaml_parser_t :=
  {| error := error p; problem := problem p; problem_mark := problem_mark p;
     context := context p; context_mark := context_mark p;
     tokens := tokens p; tokens_head := h; tokens_parsed := n;
     token_available := a; stream_end_produced := se;
     state := state p; states := states p; marks := marks p;
     tag_directives := tag_directives p |}.

Definition set_state (s : yaml_parser_state_t) (p : yaml_parser_t) : yaml_parser_t :=
  {| error := error p; problem := problem p; problem_mark := problem_mark p;
     context := context p; context_mark := context_mark p;
     tokens := tokens p; tokens_head := tokens_head p; tokens_parsed := tokens_parsed p;
     token_available := token_available p; stream_end_produced := stream_end_produced p;
     state := s; states := states p; marks := marks p;
     tag_directives := tag_directives p |}.

Definition set_states (ss : list yaml_parser_state_t) (p : yaml_parser_t) : yaml_parser_t :=
  {| error := error p; problem := problem p; problem_mark := problem_mark p;
     context := context p; context_mark := context_mark p;
     tokens := tokens p; tokens_head := tokens_head p; tokens_parsed := tokens_parsed p;
     token_available := token_available p; stream_end_produced := stream_end_produced p;
     state := state p; states := ss; marks := marks p;
     tag_directives := tag_directives p |}.

Definition set_marks (ms : list yaml_mark_t) (p : yaml_parser_t) : yaml_parser_t :=
  {| error := error p; problem := problem p; problem_mark := problem_mark p;
     context := context p; context_mark := context_mark p;
     tokens := tokens p; tokens_head := tokens_head p; tokens_parsed := tokens_parsed p;
     token_available := token_available p; stream_end_produced := stream_end_produced p;
     state := state p; states := states p; marks := ms;
     tag_directives := tag_directives p |}.

Definition set_tag_directives (ds : list yaml_tag_directive_t) (p : yaml_parser_t)
    : yaml_parser_t :=
  {| error := error p; problem := problem p; problem_mark := problem_mark p;
     context := context p; context_mark := context_mark p;
     tokens := tokens p; tokens_head := tokens_head p; tokens_parsed := tokens_parsed p;
     token_available := token_available p; stream_end_produced := stream_end_produced p;
     state := state p; states := states p; marks := marks p;
     tag_directives := ds |}.

(** Go's [int] on a 64-bit platform: [tokens_parsed++] wraps around. *)
Definition int_wrap (z : Z) : Z := (z + 2 ^ 63) mod 2 ^ 64 - 2 ^ 63.

(** [bytes.Equal]. *)
Fixpoint bytes_equal (a b : list byte) : bool :=
  match a, b with
  | [], [] => true
  | x :: a', y :: b' => Byte.eqb x y && bytes_equal a' b'
  | _, _ => false
  end.

(** [len(s) == 0] on a byte slice. *)
Definition len_is_zero (s : list byte) : bool :=
  match s with [] => true | _ :: _ => false end.

(** The last element of a slice used as a stack, [s[len(s)-1]]. *)
Fixpoint top {A : Type} (s : list A) : option A :=
  match s with
  | [] => None
  | [x] => Some x
  | _ :: s' => top s'
  end.

(** Modelled from the spec: [default_tag_directives] is declared outside
    [parser.go]; the built-in defaults are [!] for [!] and
    [tag:yaml.org,2002:] for [!!]. *)
Definition default_tag_directives : list yaml_tag_directive_t :=
  [ {| handle := list_byte_of_string "!"; prefix := list_byte_of_string "!" |};
    {| handle := list_byte_of_string "!!";
       prefix := list_byte_of_string "tag:yaml.org,2002:" |} ].

(** ** Computations on the parser *)

(** The ways a Go run-time panic is raised in [parser.go]. *)
Inductive go_panic :=
| nil_token_dereference       (* a field of the nil result of [peek_token] *)
| nil_tag_handle_dereference  (* a store through the nil [tag_handle] *)
| index_out_of_range          (* [s[i]] or [s[:i]] outside the slice *)
| invalid_parser_state.       (* [panic("invalid parser state")] *)

Inductive outcome (A : Type) : Type :=
| Value (a : A) (p : yaml_parser_t)
| Panic (k : go_panic)
| OutOfFuel.
Arguments Value {A} a p.
Arguments Panic {A} k.
Arguments OutOfFuel {A}.

Definition M (A : Type) : Type := yaml_parser_t -> outcome A.

Definition ret {A : Type} (a : A) : M A := fun p => Value a p.

Definition bind {A B : Type} (m : M A) (k : A -> M B) : M B :=
  fun p =>
    match m p with
    | Value a p' => k a p'
    | Panic e => Panic e
    | OutOfFuel => OutOfFuel
    end.

Definition panic {A : Type} (k : go_panic) : M A := fun _ => Panic k.
Definition out_of_fuel {A : Type} : M A := fun _ => OutOfFuel.
Definition get : M yaml_parser_t := fun p => Value p p.
Definition modify (f : yaml_parser_t -> yaml_parser_t) : M unit := fun p => Value tt (f p).

Declare Scope parser_scope.
Delimit Scope parser_scope with parser.
Notation "x <- m ;; k" := (bind m (fun x => k))
  (at level 61, m at next level, right associativity) : parser_scope.
Notation "m ;; k" := (bind m (fun _ => k))
  (at level 61, right associativity) : parser_scope.
Local Open Scope parser_scope.

(** [parser.state = parser.states[len(parser.states)-1];
     parser.states = parser.states[:len(parser.states)-1]] *)
Definition pop_state : M unit :=
  fun p =>
    match top (states p) with
    | None => Panic index_out_of_range
    | Some s => Value tt (set_states (removelast (states p)) (set_state s p))
    end.

(** [parser.states = append(parser.states, s)] *)
Definition push_state (s : yaml_parser_state_t) : M unit :=
  modify (fun p => set_states (states p ++ [s]) p).

(** [parser.marks = append(parser.marks, m)] *)
Definition push_mark (m : yaml_mark_t) : M unit :=
  modify (fun p => set_marks (marks p ++ [m]) p).

(** [parser.marks = parser.marks[:len(parser.marks)-1]] *)
Definition pop_mark : M unit :=
  fun p =>
    match marks p with
    | [] => Panic index_out_of_range
    | _ :: _ => Value tt (set_marks (removelast (marks p)) p)
    end.

(** [parser.marks[len(parser.marks)-1]] *)
Definition top_mark : M yaml_mark_t :=
  fun p =>
    match top (marks p) with
    | None => Panic index_out_of_range
    | Some m => Value m p
    end.

Definition token_is (t : yaml_token_t) (ty : yaml_token_type_t) : bool :=
  yaml_token_type_t_beq (Token.token_type t) ty.

(** Event literals.  A Go struct literal leaves the fields it does not name
    at their zero value. *)
Definition marked_event (ty : yaml_event_type_t) (sm em : yaml_mark_t) : yaml_event_t :=
  {| Event.event_type := ty;
     Event.start_mark := sm;
     Event.end_mark := em;
     Event.encoding := YAML_ANY_ENCODING;
     Event.version_directive := None;
     Event.tag_directives := [];
     Event.anchor := [];
     Event.tag := [];
     Event.value := [];
     Event.implicit := false;
     Event.quoted_implicit := false;
     Event.style := 0 |}.

Definition stream_start_event (sm em : yaml_mark_t) (enc : yaml_encoding_t) : yaml_event_t :=
  {| Event.event_type := YAML_STREAM_START_EVENT;
     Event.start_mark := sm;
     Event.end_mark := em;
     Event.encoding := enc;
     Event.version_directive := None;
     Event.tag_directives := [];
     Event.anchor := [];
     Event.tag := [];
     Event.value := [];
     Event.implicit := false;
     Event.quoted_implicit := false;
     Event.style := 0 |}.

Definition document_event (ty : yaml_event_type_t) (sm em : yaml_mark_t)
    (vd : option yaml_version_directive_t) (tds : list yaml_tag_directive_t)
    (implicit : bool) : yaml_event_t :=
  {| Event.event_type := ty;
     Event.start_mark := sm;
     Event.end_mark := em;
     Event.encoding := YAML_ANY_ENCODING;
     Event.version_directive := vd;
     Event.tag_directives := tds;
     Event.anchor := [];
     Event.tag := [];
     Event.value := [];
     Event.implicit := implicit;
     Event.quoted_implicit := false;
     Event.style := 0 |}.

Definition node_event (ty : yaml_event_type_t) (sm em : yaml_mark_t)
    (anchor tag value : list byte) (implicit quoted_implicit : bool)
    (style : yaml_style_t) : yaml_event_t :=
  {| Event.event_type := ty;
     Event.start_mark := sm;
     Event.end_mark := em;
     Event.encoding := YAML_ANY_ENCODING;
     Event.version_directive := None;
     Event.tag_directives := [];
     Event.anchor := anchor;
     Event.tag := tag;
     Event.value := value;
     Event.implicit := implicit;
     Event.quoted_implicit := quoted_implicit;
     Event.style := style |}.

(** What a handler returns: its boolean result and the content of [*event]. *)
Definition handled : Type := bool * yaml_event_t.

Section Parser.

(** The scanner, [yaml_parser_fetch_more_tokens] of scanner.go: it is asked
    for tokens when none is buffered, reports success, and leaves the parser
    as it changed it. *)
Variable yaml_parser_fetch_more_tokens : yaml_parser_t -> bool * yaml_parser_t.

(** ** Token access (parser.go:50-65) *)

Definition peek_token : M (option yaml_token_t) :=
  fun p =>
    let '(ok, p1) :=
      if token_available p then (true, p) else yaml_parser_fetch_more_tokens p in
    if ok then
      match nth_error (tokens p1) (tokens_head p1) with
      | Some t => Value (Some t) p1
      | None => Panic index_out_of_range
      end
    else Value None p1.

Definition skip_token : M unit :=
  fun p =>
    match nth_error (tokens p) (tokens_head p) with
    | Some t =>
        Value tt (set_queue (S (tokens_head p)) (int_wrap (tokens_parsed p + 1)) false
                    (token_is t YAML_STREAM_END_TOKEN) p)
    | None => Panic index_out_of_range
    end.

(** [token := peek_token(parser); if token == nil { return false }] *)
Definition peek_or_fail (event : yaml_event_t) (k : yaml_token_t -> M handled) : M handled :=
  o <- peek_token ;;
  match o with
  | None => ret (false, event)
  | Some token => k token
  end.

(** [token := peek_token(parser)] followed by a use of [token.start_mark]
    with no test for nil. *)
Definition peek_unchecked : M yaml_token_t :=
  o <- peek_token ;;
  match o with
  | None => panic nil_token_dereference
  | Some token => ret token
  end.

(** ** Error setters (parser.go:91-110) *)

Definition yaml_parser_set_parser_error (problem : string) (problem_mark : yaml_mark_t)
    : M bool :=
  modify (fun p => set_error_fields YAML_PARSER_ERROR (context p) (context_mark p)
                     problem problem_mark p) ;;
  ret false.

Definition yaml_parser_set_parser_error_context (context : string)
    (context_mark : yaml_mark_t) (problem : string) (problem_mark : yaml_mark_t) : M bool :=
  modify (set_error_fields YAML_PARSER_ERROR context context_mark problem problem_mark) ;;
  ret false.

(** ** Empty scalar (parser.go:1114-1126) *)

Definition yaml_parser_process_empty_scalar (mark : yaml_mark_t) : M handled :=
  ret (true, node_event YAML_SCALAR_EVENT mark mark [] [] [] true false
               (yaml_style_of_scalar YAML_PLAIN_SCALAR_STYLE)).

(** ** Directives (parser.go:1132-1216) *)

Definition yaml_parser_append_tag_directive (value : yaml_tag_directive_t)
    (allow_duplicates : bool) (mark : yaml_mark_t) : M bool :=
  p <- get ;;
  match find (fun tag => bytes_equal (handle value) (handle tag)) (tag_directives p) with
  | Some _ =>
      if allow_duplicates then ret true
      else yaml_parser_set_parser_error "found duplicate %TAG directive" mark
  | None =>
      modify (set_tag_directives (tag_directives p ++ [value])) ;;
      ret true
  end.

(** The [for] loop of [yaml_parser_process_directives] (parser.go:1144-1180).
    [None] stands for a [return false] from inside the loop, [Some] for the
    locals at the exit of the loop.  The loop ends with
    [token := peek_token(parser)], which declares a new variable in the block
    of the body: the [token] the condition and the next iteration read is
    the one peeked before the loop. *)
Fixpoint process_directives_loop (fuel : nat) (token : yaml_token_t)
    (version_directive : option yaml_version_directive_t)
    (tag_directives : list yaml_tag_directive_t)
    : M (option (option yaml_version_directive_t * list yaml_tag_directive_t)) :=
  if token_is token YAML_VERSION_DIRECTIVE_TOKEN || token_is token YAML_TAG_DIRECTIVE_TOKEN
  then
    match fuel with
    | O => out_of_fuel
    | S fuel' =>
        let next version_directive tag_directives :=
          skip_token ;;
          inner <- peek_token ;;
          match inner with
          | None => ret None
          | Some _ => process_directives_loop fuel' token version_directive tag_directives
          end in
        if token_is token YAML_VERSION_DIRECTIVE_TOKEN then
          match version_directive with
          | Some _ =>
              yaml_parser_set_parser_error "found duplicate %YAML directive"
                (Token.start_mark token) ;;
              ret None
          | None =>
              if negb (Token.major token =? 1) || negb (Token.minor token =? 1) then
                yaml_parser_set_parser_error "found incompatible YAML document"
                  (Token.start_mark token) ;;
                ret None
              else
                next (Some {| major := Token.major token; minor := Token.minor token |})
                     tag_directives
          end
        else if token_is token YAML_TAG_DIRECTIVE_TOKEN then
          let value := {| handle := Token.value token; prefix := Token.prefix token |} in
          ok <- yaml_parser_append_tag_directive value false (Token.start_mark token) ;;
          if ok then next version_directive (tag_directives ++ [value])
          else ret None
        else next version_directive tag_directives
    end
  else ret (Some (version_directive, tag_directives)).

(** The loop over [default_tag_directives] (parser.go:1182-1186). *)
Fixpoint append_default_directives (ds : list yaml_tag_directive_t) (mark : yaml_mark_t)
    : M bool :=
  match ds with
  | [] => ret true
  | d :: ds' =>
      ok <- yaml_parser_append_tag_directive d true mark ;;
      if ok then append_default_directives ds' mark else ret false
  end.

(** The two reference arguments are [None] for a nil pointer and [Some c]
    for a pointer to a variable that holds [c]; the result gives what the
    variables hold afterwards. *)
Definition yaml_parser_process_directives (fuel : nat)
    (version_directive_ref : option (option yaml_version_directive_t))
    (tag_directives_ref : option (list yaml_tag_directive_t))
    : M (bool * option (option yaml_version_directive_t)
              * option (list yaml_tag_directive_t)) :=
  o <- peek_token ;;
  match o with
  | None => ret (false, version_directive_ref, tag_directives_ref)
  | Some token =>
      r <- process_directives_loop fuel token None [] ;;
      match r with
      | None => ret (false, version_directive_ref, tag_directives_ref)
      | Some (version_directive, tag_directives) =>
          ok <- append_default_directives default_tag_directives (Token.start_mark token) ;;
          if ok then
            ret (true,
                 match version_directive_ref with
                 | Some _ => Some version_directive
                 | None => None
                 end,
                 match tag_directives_ref with
                 | Some _ => Some tag_directives
                 | None => None
                 end)
          else ret (false, version_directive_ref, tag_directives_ref)
      end
  end.

(** ** Stream and document framing (parser.go:197-376) *)

Definition yaml_parser_parse_stream_start (event : yaml_event_t) : M handled :=
  peek_or_fail event (fun token =>
    if negb (token_is token YAML_STREAM_START_TOKEN) then
      ok <- yaml_parser_set_parser_error "did not find expected <stream-start>"
              (Token.start_mark token) ;;
      ret (ok, event)
    else
      modify (set_state YAML_PARSE_IMPLICIT_DOCUMENT_START_STATE) ;;
      let event := stream_start_event (Token.start_mark token) (Token.end_mark token)
                     (Token.encoding token) in
      skip_token ;;
      ret (true, event)).

(** The loop over extra document end indicators (parser.go:239-245). *)
Fixpoint skip_document_end_tokens (fuel : nat) (event : yaml_event_t) (token : yaml_token_t)
    (k : yaml_token_t -> M handled) : M handled :=
  if token_is token YAML_DOCUMENT_END_TOKEN then
    match fuel with
    | O => out_of_fuel
    | S fuel' =>
        skip_token ;;
        peek_or_fail event (fun token => skip_document_end_tokens fuel' event token k)
    end
  else k token.

Definition yaml_parser_parse_document_start (fuel : nat) (event : yaml_event_t)
    (implicit : bool) : M handled :=
  peek_or_fail event (fun token =>
    (if negb implicit then skip_document_end_tokens fuel event token else fun k => k token)
    (fun token =>
      if implicit && negb (token_is token YAML_VERSION_DIRECTIVE_TOKEN) &&
         negb (token_is token YAML_TAG_DIRECTIVE_TOKEN) &&
         negb (token_is token YAML_DOCUMENT_START_TOKEN) &&
         negb (token_is token YAML_STREAM_END_TOKEN) then
        (* an implicit document *)
        r <- yaml_parser_process_directives fuel None None ;;
        let '(ok, _, _) := r in
        if negb ok then ret (false, event)
        else
          push_state YAML_PARSE_DOCUMENT_END_STATE ;;
          modify (set_state YAML_PARSE_BLOCK_NODE_STATE) ;;
          ret (true, document_event YAML_DOCUMENT_START_EVENT (Token.start_mark token)
                       (Token.end_mark token) None [] true)
      else if negb (token_is token YAML_STREAM_END_TOKEN) then
        (* an explicit document *)
        let start_mark := Token.start_mark token in
        r <- yaml_parser_process_directives fuel (Some None) (Some []) ;;
        let '(ok, version_directive, tag_directives) := r in
        if negb ok then ret (false, event)
        else
          peek_or_fail event (fun token =>
            if negb (token_is token YAML_DOCUMENT_START_TOKEN) then
              yaml_parser_set_parser_error "did not find expected <document start>"
                (Token.start_mark token) ;;
              ret (false, event)
            else
              push_state YAML_PARSE_DOCUMENT_END_STATE ;;
              modify (set_state YAML_PARSE_DOCUMENT_CONTENT_STATE) ;;
              let end_mark := Token.end_mark token in
              let event :=
                document_event YAML_DOCUMENT_START_EVENT start_mark end_mark
                  (match version_directive with Some v => v | None => None end)
                  (match tag_directives with Some ds => ds | None => [] end)
                  false in
              skip_token ;;
              ret (true, event))
      else
        (* the stream end *)
        modify (set_state YAML_PARSE_END_STATE) ;;
        let event := marked_event YAML_STREAM_END_EVENT (Token.start_mark token)
                       (Token.end_mark token) in
        skip_token ;;
        ret (true, event))).

Definition yaml_parser_parse_document_end (event : yaml_event_t) : M handled :=
  peek_or_fail event (fun token =>
    let start_mark := Token.start_mark token in
    let finish end_mark implicit :=
      modify (set_tag_directives []) ;;
      modify (set_state YAML_PARSE_DOCUMENT_START_STATE) ;;
      ret (true, document_event YAML_DOCUMENT_END_EVENT start_mark end_mark None []
                   implicit) in
    if token_is token YAML_DOCUMENT_END_TOKEN then
      skip_token ;;
      finish (Token.end_mark token) false
    else finish (Token.start_mark token) true).

(** ** Nodes (parser.go:407-634) *)

(** [*tag_handle = v]: a store through the pointer [tag_handle]. *)
Definition store_tag_handle (tag_handle : option (list byte)) (v : list byte)
    : M (option (list byte)) :=
  match tag_handle with
  | None => panic nil_tag_handle_dereference
  | Some _ => ret (Some v)
  end.

(** [len(tag) == 1 && tag[0] == '!'] *)
Definition tag_is_bang (tag : list byte) : bool :=
  match tag with
  | [b] => Byte.eqb b "!"%byte
  | _ => false
  end.

(** The flags of a scalar (parser.go:519-527): [(plain_implicit, quoted_implicit)]. *)
Definition scalar_implicit_flags (style : yaml_scalar_style_t) (tag : list byte)
    : bool * bool :=
  if (yaml_scalar_style_t_beq style YAML_PLAIN_SCALAR_STYLE && len_is_zero tag)
     || tag_is_bang tag
  then (true, false)
  else if len_is_zero tag then (false, true)
  else (false, false).

(** Tag resolution (parser.go:475-499); [k] is the rest of the function. *)
Definition resolve_tag (event : yaml_event_t) (tag_handle : option (list byte))
    (tag_suffix : list byte) (start_mark tag_mark : yaml_mark_t)
    (k : list byte -> M handled) : M handled :=
  match tag_handle with
  | None => k []
  | Some h =>
      if len_is_zero h then k tag_suffix
      else
        p <- get ;;
        let tag :=
          match find (fun tag_directive => bytes_equal (handle tag_directive) h)
                  (tag_directives p) with
          | Some tag_directive => prefix tag_directive ++ tag_suffix
          | None => []
          end in
        if len_is_zero tag then
          yaml_parser_set_parser_error_context "while parsing a node" start_mark
            "found undefined tag handle" tag_mark ;;
          ret (false, event)
        else k tag
  end.

(** The dispatch on the token that follows the properties (parser.go:501-630). *)
Definition parse_node_content (event : yaml_event_t) (block indentless_sequence : bool)
    (token : yaml_token_t) (start_mark end_mark : yaml_mark_t)
    (anchor tag : list byte) : M handled :=
  let implicit := len_is_zero tag in
  if indentless_sequence && token_is token YAML_BLOCK_ENTRY_TOKEN then
    modify (set_state YAML_PARSE_INDENTLESS_SEQUENCE_ENTRY_STATE) ;;
    ret (true, node_event YAML_SEQUENCE_START_EVENT start_mark (Token.end_mark token)
                 anchor tag [] implicit false
                 (yaml_style_of_sequence YAML_BLOCK_SEQUENCE_STYLE))
  else if token_is token YAML_SCALAR_TOKEN then
    let '(plain_implicit, quoted_implicit) :=
      scalar_implicit_flags (Token.style token) tag in
    pop_state ;;
    let event := node_event YAML_SCALAR_EVENT start_mark (Token.end_mark token)
                   anchor tag (Token.value token) plain_implicit quoted_implicit
                   (yaml_style_of_scalar (Token.style token)) in
    skip_token ;;
    ret (true, event)
  else if token_is token YAML_FLOW_SEQUENCE_START_TOKEN then
    modify (set_state YAML_PARSE_FLOW_SEQUENCE_FIRST_ENTRY_STATE) ;;
    ret (true, node_event YAML_SEQUENCE_START_EVENT start_mark (Token.end_mark token)
                 anchor tag [] implicit false
                 (yaml_style_of_sequence YAML_FLOW_SEQUENCE_STYLE))
  else if token_is token YAML_FLOW_MAPPING_START_TOKEN then
    modify (set_state YAML_PARSE_FLOW_MAPPING_FIRST_KEY_STATE) ;;
    ret (true, node_event YAML_MAPPING_START_EVENT start_mark (Token.end_mark token)
                 anchor tag [] implicit false
                 (yaml_style_of_mapping YAML_FLOW_MAPPING_STYLE))
  else if block && token_is token YAML_BLOCK_SEQUENCE_START_TOKEN then
    modify (set_state YAML_PARSE_BLOCK_SEQUENCE_FIRST_ENTRY_STATE) ;;
    ret (true, node_event YAML_SEQUENCE_START_EVENT start_mark (Token.end_mark token)
                 anchor tag [] implicit false
                 (yaml_style_of_sequence YAML_BLOCK_SEQUENCE_STYLE))
  else if block && token_is token YAML_BLOCK_MAPPING_START_TOKEN then
    modify (set_state YAML_PARSE_BLOCK_MAPPING_FIRST_KEY_STATE) ;;
    ret (true, node_event YAML_MAPPING_START_EVENT start_mark (Token.end_mark token)
                 anchor tag [] implicit false
                 (yaml_style_of_mapping YAML_BLOCK_MAPPING_STYLE))
  else if negb (len_is_zero anchor) || negb (len_is_zero tag) then
    pop_state ;;
    ret (true, node_event YAML_SCALAR_EVENT start_mark end_mark anchor tag [] implicit
                 false (yaml_style_of_scalar YAML_PLAIN_SCALAR_STYLE))
  else
    let msg := if negb block then "while parsing a flow node"%string
               else "while parsing a block node"%string in
    yaml_parser_set_parser_error_context msg start_mark
      "did not find expected node content" (Token.start_mark token) ;;
    ret (false, event).

Definition yaml_parser_parse_node (event : yaml_event_t)
    (block indentless_sequence : bool) : M handled :=
  peek_or_fail event (fun token =>
    if token_is token YAML_ALIAS_TOKEN then
      pop_state ;;
      let event := node_event YAML_ALIAS_EVENT (Token.start_mark token)
                     (Token.end_mark token) (Token.value token) [] [] false false 0 in
      skip_token ;;
      ret (true, event)
    else
      let start_mark := Token.start_mark token in
      let end_mark := Token.start_mark token in
      (* var tag_handle *[]byte; var tag_suffix, anchor []byte; var tag_mark yaml_mark_t *)
      let tag_handle : option (list byte) := None in
      let tag_suffix : list byte := [] in
      let anchor : list byte := [] in
      let tag_mark := yaml_mark_zero in
      let rest tag_handle tag_suffix anchor tag_mark start_mark end_mark token :=
        resolve_tag event tag_handle tag_suffix start_mark tag_mark (fun tag =>
          parse_node_content event block indentless_sequence token start_mark end_mark
            anchor tag) in
      if token_is token YAML_ANCHOR_TOKEN then
        let anchor := Token.value token in
        let start_mark := Token.start_mark token in
        let end_mark := Token.end_mark token in
        skip_token ;;
        peek_or_fail event (fun token =>
          if token_is token YAML_TAG_TOKEN then
            tag_handle <- store_tag_handle tag_handle (Token.value token) ;;
            let tag_suffix := Token.suffix token in
            let tag_mark := Token.start_mark token in
            let end_mark := Token.end_mark token in
            skip_token ;;
            peek_or_fail event (fun token =>
              rest tag_handle tag_suffix anchor tag_mark start_mark end_mark token)
          else rest tag_handle tag_suffix anchor tag_mark start_mark end_mark token)
      else if token_is token YAML_TAG_TOKEN then
        tag_handle <- store_tag_handle tag_handle (Token.value token) ;;
        let tag_suffix := Token.suffix token in
        let start_mark := Token.start_mark token in
        let tag_mark := Token.start_mark token in
        let end_mark := Token.end_mark token in
        skip_token ;;
        peek_or_fail event (fun token =>
          if token_is token YAML_ANCHOR_TOKEN then
            let anchor := Token.value token in
            let end_mark := Token.end_mark token in
            skip_token ;;
            peek_or_fail event (fun token =>
              rest tag_handle tag_suffix anchor tag_mark start_mark end_mark token)
          else rest tag_handle tag_suffix anchor tag_mark start_mark end_mark token)
      else rest tag_handle tag_suffix anchor tag_mark start_mark end_mark token).

Definition yaml_parser_parse_document_content (event : yaml_event_t) : M handled :=
  peek_or_fail event (fun token =>
    if token_is token YAML_VERSION_DIRECTIVE_TOKEN ||
       token_is token YAML_TAG_DIRECTIVE_TOKEN ||
       token_is token YAML_DOCUMENT_START_TOKEN ||
       token_is token YAML_DOCUMENT_END_TOKEN ||
       token_is token YAML_STREAM_END_TOKEN then
      pop_state ;;
      yaml_parser_process_empty_scalar (Token.start_mark token)
    else yaml_parser_parse_node event true false).

(** ** Block collections (parser.go:642-837) *)

(** The prelude of the four FIRST handlers:
    [if first { token := peek_token(parser);
                parser.marks = append(parser.marks, token.start_mark);
                skip_token(parser) }] *)
Definition open_collection (first : bool) : M unit :=
  if first then
    token <- peek_unchecked ;;
    push_mark (Token.start_mark token) ;;
    skip_token
  else ret tt.

Definition yaml_parser_parse_block_sequence_entry (event : yaml_event_t) (first : bool)
    : M handled :=
  open_collection first ;;
  peek_or_fail event (fun token =>
    if token_is token YAML_BLOCK_ENTRY_TOKEN then
      let mark := Token.end_mark token in
      skip_token ;;
      peek_or_fail event (fun token =>
        if negb (token_is token YAML_BLOCK_ENTRY_TOKEN) &&
           negb (token_is token YAML_BLOCK_END_TOKEN) then
          push_state YAML_PARSE_BLOCK_SEQUENCE_ENTRY_STATE ;;
          yaml_parser_parse_node event true false
        else
          modify (set_state YAML_PARSE_BLOCK_SEQUENCE_ENTRY_STATE) ;;
          yaml_parser_process_empty_scalar mark)
    else if token_is token YAML_BLOCK_END_TOKEN then
      pop_state ;;
      pop_mark ;;
      let event := marked_event YAML_SEQUENCE_END_EVENT (Token.start_mark token)
                     (Token.end_mark token) in
      skip_token ;;
      ret (true, event)
    else
      mark <- top_mark ;;
      pop_mark ;;
      ok <- yaml_parser_set_parser_error_context "while parsing a block collection" mark
              "did not find expected '-' indicator" (Token.start_mark token) ;;
      ret (ok, event)).

Definition yaml_parser_parse_indentless_sequence_entry (event : yaml_event_t) : M handled :=
  peek_or_fail event (fun token =>
    if token_is token YAML_BLOCK_ENTRY_TOKEN then
      let mark := Token.end_mark token in
      skip_token ;;
      peek_or_fail event (fun token =>
        if negb (token_is token YAML_BLOCK_ENTRY_TOKEN) &&
           negb (token_is token YAML_KEY_TOKEN) &&
           negb (token_is token YAML_VALUE_TOKEN) &&
           negb (token_is token YAML_BLOCK_END_TOKEN) then
          push_state YAML_PARSE_INDENTLESS_SEQUENCE_ENTRY_STATE ;;
          yaml_parser_parse_node event true false
        else
          modify (set_state YAML_PARSE_INDENTLESS_SEQUENCE_ENTRY_STATE) ;;
          yaml_parser_process_empty_scalar mark)
    else
      pop_state ;;
      ret (true, marked_event YAML_SEQUENCE_END_EVENT (Token.start_mark token)
                   (Token.start_mark token))).

Definition yaml_parser_parse_block_mapping_key (event : yaml_event_t) (first : bool)
    : M handled :=
  open_collection first ;;
  peek_or_fail event (fun token =>
    if token_is token YAML_KEY_TOKEN then
      let mark := Token.end_mark token in
      skip_token ;;
      peek_or_fail event (fun token =>
        if negb (token_is token YAML_KEY_TOKEN) &&
           negb (token_is token YAML_VALUE_TOKEN) &&
           negb (token_is token YAML_BLOCK_END_TOKEN) then
          push_state YAML_PARSE_BLOCK_MAPPING_VALUE_STATE ;;
          yaml_parser_parse_node event true true
        else
          modify (set_state YAML_PARSE_BLOCK_MAPPING_VALUE_STATE) ;;
          yaml_parser_process_empty_scalar mark)
    else if token_is token YAML_BLOCK_END_TOKEN then
      pop_state ;;
      pop_mark ;;
      let event := marked_event YAML_MAPPING_END_EVENT (Token.start_mark token)
                     (Token.end_mark token) in
      skip_token ;;
      ret (true, event)
    else
      mark <- top_mark ;;
      pop_mark ;;
      ok <- yaml_parser_set_parser_error_context "while parsing a block mapping" mark
              "did not find expected key" (Token.start_mark token) ;;
      ret (ok, event)).

Definition yaml_parser_parse_block_mapping_value (event : yaml_event_t) : M handled :=
  peek_or_fail event (fun token =>
    if token_is token YAML_VALUE_TOKEN then
      let mark := Token.end_mark token in
      skip_token ;;
      peek_or_fail event (fun token =>
        if negb (token_is token YAML_KEY_TOKEN) &&
           negb (token_is token YAML_VALUE_TOKEN) &&
           negb (token_is token YAML_BLOCK_END_TOKEN) then
          push_state YAML_PARSE_BLOCK_MAPPING_KEY_STATE ;;
          yaml_parser_parse_node event true true
        else
          modify (set_state YAML_PARSE_BLOCK_MAPPING_KEY_STATE) ;;
          yaml_parser_process_empty_scalar mark)
    else
      modify (set_state YAML_PARSE_BLOCK_MAPPING_KEY_STATE) ;;
      yaml_parser_process_empty_scalar (Token.start_mark token)).

(** ** Flow collections (parser.go:853-1108) *)

Definition yaml_parser_parse_flow_sequence_entry (event : yaml_event_t) (first : bool)
    : M handled :=
  open_collection first ;;
  peek_or_fail event (fun token =>
    let close token :=
      pop_state ;;
      pop_mark ;;
      let event := marked_event YAML_SEQUENCE_END_EVENT (Token.start_mark token)
                     (Token.end_mark token) in
      skip_token ;;
      ret (true, event) in
    let entry token :=
      if token_is token YAML_KEY_TOKEN then
        modify (set_state YAML_PARSE_FLOW_SEQUENCE_ENTRY_MAPPING_KEY_STATE) ;;
        let event := node_event YAML_MAPPING_START_EVENT (Token.start_mark token)
                       (Token.end_mark token) [] [] [] true false
                       (yaml_style_of_mapping YAML_FLOW_MAPPING_STYLE) in
        skip_token ;;
        ret (true, event)
      else if negb (token_is token YAML_FLOW_SEQUENCE_END_TOKEN) then
        push_state YAML_PARSE_FLOW_SEQUENCE_ENTRY_STATE ;;
        yaml_parser_parse_node event false false
      else close token in
    if negb (token_is token YAML_FLOW_SEQUENCE_END_TOKEN) then
      if negb first then
        if token_is token YAML_FLOW_ENTRY_TOKEN then
          skip_token ;;
          peek_or_fail event entry
        else
          mark <- top_mark ;;
          pop_mark ;;
          ok <- yaml_parser_set_parser_error_context "while parsing a flow sequence" mark
                  "did not find expected ',' or ']'" (Token.start_mark token) ;;
          ret (ok, event)
      else entry token
    else close token).

Definition yaml_parser_parse_flow_sequence_entry_mapping_key (event : yaml_event_t)
    : M handled :=
  peek_or_fail event (fun token =>
    if negb (token_is token YAML_VALUE_TOKEN) &&
       negb (token_is token YAML_FLOW_ENTRY_TOKEN) &&
       negb (token_is token YAML_FLOW_SEQUENCE_END_TOKEN) then
      push_state YAML_PARSE_FLOW_SEQUENCE_ENTRY_MAPPING_VALUE_STATE ;;
      yaml_parser_parse_node event false false
    else
      let mark := Token.end_mark token in
      skip_token ;;
      modify (set_state YAML_PARSE_FLOW_SEQUENCE_ENTRY_MAPPING_VALUE_STATE) ;;
      yaml_parser_process_empty_scalar mark).

Definition yaml_parser_parse_flow_sequence_entry_mapping_value (event : yaml_event_t)
    : M handled :=
  peek_or_fail event (fun token =>
    let empty token :=
      modify (set_state YAML_PARSE_FLOW_SEQUENCE_ENTRY_MAPPING_END_STATE) ;;
      yaml_parser_process_empty_scalar (Token.start_mark token) in
    if token_is token YAML_VALUE_TOKEN then
      skip_token ;;
      peek_or_fail event (fun token =>
        if negb (token_is token YAML_FLOW_ENTRY_TOKEN) &&
           negb (token_is token YAML_FLOW_SEQUENCE_END_TOKEN) then
          push_state YAML_PARSE_FLOW_SEQUENCE_ENTRY_MAPPING_END_STATE ;;
          yaml_parser_parse_node event false false
        else empty token)
    else empty token).

Definition yaml_parser_parse_flow_sequence_entry_mapping_end (event : yaml_event_t)
    : M handled :=
  peek_or_fail event (fun token =>
    modify (set_state YAML_PARSE_FLOW_SEQUENCE_ENTRY_STATE) ;;
    ret (true, marked_event YAML_MAPPING_END_EVENT (Token.start_mark token)
                 (Token.start_mark token))).

Definition yaml_parser_parse_flow_mapping_key (event : yaml_event_t) (first : bool)
    : M handled :=
  open_collection first ;;
  peek_or_fail event (fun token =>
    let close token :=
      pop_state ;;
      pop_mark ;;
      let event := marked_event YAML_MAPPING_END_EVENT (Token.start_mark token)
                     (Token.end_mark token) in
      skip_token ;;
      ret (true, event) in
    let entry token :=
      if token_is token YAML_KEY_TOKEN then
        skip_token ;;
        peek_or_fail event (fun token =>
          if negb (token_is token YAML_VALUE_TOKEN) &&
             negb (token_is token YAML_FLOW_ENTRY_TOKEN) &&
             negb (token_is token YAML_FLOW_MAPPING_END_TOKEN) then
            push_state YAML_PARSE_FLOW_MAPPING_VALUE_STATE ;;
            yaml_parser_parse_node event false false
          else
            modify (set_state YAML_PARSE_FLOW_MAPPING_VALUE_STATE) ;;
            yaml_parser_process_empty_scalar (Token.start_mark token))
      else if negb (token_is token YAML_FLOW_MAPPING_END_TOKEN) then
        push_state YAML_PARSE_FLOW_MAPPING_EMPTY_VALUE_STATE ;;
        yaml_parser_parse_node event false false
      else close token in
    if negb (token_is token YAML_FLOW_MAPPING_END_TOKEN) then
      if negb first then
        if token_is token YAML_FLOW_ENTRY_TOKEN then
          skip_token ;;
          peek_or_fail event entry
        else
          mark <- top_mark ;;
          pop_mark ;;
          ok <- yaml_parser_set_parser_error_context "while parsing a flow mapping" mark
                  "did not find expected ',' or '}'" (Token.start_mark token) ;;
          ret (ok, event)
      else entry token
    else close token).

Definition yaml_parser_parse_flow_mapping_value (event : yaml_event_t) (empty : bool)
    : M handled :=
  peek_or_fail event (fun token =>
    let no_value token :=
      modify (set_state YAML_PARSE_FLOW_MAPPING_KEY_STATE) ;;
      yaml_parser_process_empty_scalar (Token.start_mark token) in
    if empty then no_value token
    else if token_is token YAML_VALUE_TOKEN then
      skip_token ;;
      peek_or_fail event (fun token =>
        if negb (token_is token YAML_FLOW_ENTRY_TOKEN) &&
           negb (token_is token YAML_FLOW_MAPPING_END_TOKEN) then
          push_state YAML_PARSE_FLOW_MAPPING_KEY_STATE ;;
          yaml_parser_parse_node event false false
        else no_value token)
    else no_value token).

(** ** The dispatcher and the driver (parser.go:71-189) *)

Definition yaml_parser_state_machine (fuel : nat) (event : yaml_event_t) : M handled :=
  p <- get ;;
  match state p with
  | YAML_PARSE_STREAM_START_STATE => yaml_parser_parse_stream_start event
  | YAML_PARSE_IMPLICIT_DOCUMENT_START_STATE =>
      yaml_parser_parse_document_start fuel event true
  | YAML_PARSE_DOCUMENT_START_STATE => yaml_parser_parse_document_start fuel event false
  | YAML_PARSE_DOCUMENT_CONTENT_STATE => yaml_parser_parse_document_content event
  | YAML_PARSE_DOCUMENT_END_STATE => yaml_parser_parse_document_end event
  | YAML_PARSE_BLOCK_NODE_STATE => yaml_parser_parse_node event true false
  | YAML_PARSE_BLOCK_NODE_OR_INDENTLESS_SEQUENCE_STATE =>
      yaml_parser_parse_node event true true
  | YAML_PARSE_FLOW_NODE_STATE => yaml_parser_parse_node event false false
  | YAML_PARSE_BLOCK_SEQUENCE_FIRST_ENTRY_STATE =>
      yaml_parser_parse_block_sequence_entry event true
  | YAML_PARSE_BLOCK_SEQUENCE_ENTRY_STATE =>
      yaml_parser_parse_block_sequence_entry event false
  | YAML_PARSE_INDENTLESS_SEQUENCE_ENTRY_STATE =>
      yaml_parser_parse_indentless_sequence_entry event
  | YAML_PARSE_BLOCK_MAPPING_FIRST_KEY_STATE =>
      yaml_parser_parse_block_mapping_key event true
  | YAML_PARSE_BLOCK_MAPPING_KEY_STATE => yaml_parser_parse_block_mapping_key event false
  | YAML_PARSE_BLOCK_MAPPING_VALUE_STATE => yaml_parser_parse_block_mapping_value event
  | YAML_PARSE_FLOW_SEQUENCE_FIRST_ENTRY_STATE =>
      yaml_parser_parse_flow_sequence_entry event true
  | YAML_PARSE_FLOW_SEQUENCE_ENTRY_STATE =>
      yaml_parser_parse_flow_sequence_entry event false
  | YAML_PARSE_FLOW_SEQUENCE_ENTRY_MAPPING_KEY_STATE =>
      yaml_parser_parse_flow_sequence_entry_mapping_key event
  | YAML_PARSE_FLOW_SEQUENCE_ENTRY_MAPPING_VALUE_STATE =>
      yaml_parser_parse_flow_sequence_entry_mapping_value event
  | YAML_PARSE_FLOW_SEQUENCE_ENTRY_MAPPING_END_STATE =>
      yaml_parser_parse_flow_sequence_entry_mapping_end event
  | YAML_PARSE_FLOW_MAPPING_FIRST_KEY_STATE =>
      yaml_parser_parse_flow_mapping_key event true
  | YAML_PARSE_FLOW_MAPPING_KEY_STATE => yaml_parser_parse_flow_mapping_key event false
  | YAML_PARSE_FLOW_MAPPING_VALUE_STATE => yaml_parser_parse_flow_mapping_value event false
  | YAML_PARSE_FLOW_MAPPING_EMPTY_VALUE_STATE =>
      yaml_parser_parse_flow_mapping_value event true
  | YAML_PARSE_END_STATE => panic invalid_parser_state
  end.

(** Get the next event: [next_event] of the specification. *)
Definition yaml_parser_parse (fuel : nat) : M handled :=
  (* Erase the event object. *)
  let event := yaml_event_zero in
  p <- get ;;
  (* No events after the end of the stream or error. *)
  if stream_end_produced p
     || negb (yaml_error_type_t_beq (error p) YAML_NO_ERROR)
     || yaml_parser_state_t_beq (state p) YAML_PARSE_END_STATE
  then ret (true, event)
  else yaml_parser_state_machine fuel event.

End Parser.

(** ** Repeated calls and a scanner for token sequences produced in advance *)

(** [n] successive calls of [yaml_parser_parse]: the results of the calls, in
    order. *)
Fixpoint parse_calls (fetch : yaml_parser_t -> bool * yaml_parser_t) (fuel n : nat)
    : M (list handled) :=
  match n with
  | O => ret []
  | S n' =>
      r <- yaml_parser_parse fetch fuel ;;
      rs <- parse_calls fetch fuel n' ;;
      ret (r :: rs)
  end.

(** Modelled from the spec: the scanner of scanner.go is replaced, for the
    end-to-end scenarios, by a queue that holds the whole token sequence in
    [parser.tokens]: fetching succeeds while a token is left at the head and
    marks it available, and fails with a latched scanner error otherwise. *)
Definition queue_fetch_more_tokens (p : yaml_parser_t) : bool * yaml_parser_t :=
  if (tokens_head p <? List.length (tokens p))%nat then
    (true, set_queue (tokens_head p) (tokens_parsed p) true (stream_end_produced p) p)
  else
    (false, set_error_fields YAML_SCANNER_ERROR (context p) (context_mark p)
              (problem p) (problem_mark p) p).

(** Modelled from the spec: a new parser is in state STREAM-START with empty
    stacks, no directive and no error; [ts] is the token sequence it reads. *)
Definition yaml_parser_new (ts : list yaml_token_t) : yaml_parser_t :=
  {| error := YAML_NO_ERROR;
     problem := EmptyString;
     problem_mark := yaml_mark_zero;
     context := EmptyString;
     context_mark := yaml_mark_zero;
     tokens := ts;
     tokens_head := 0;
     tokens_parsed := 0;
     token_available := false;
     stream_end_produced := false;
     state := YAML_PARSE_STREAM_START_STATE;
     states := [];
     marks := [];
     tag_directives := [] |}.

(** Token literals. *)
Definition plain_token (ty : yaml_token_type_t) (sm em : yaml_mark_t) : yaml_token_t :=
  {| Token.token_type := ty;
     Token.start_mark := sm;
     Token.end_mark := em;
     Token.encoding := YAML_ANY_ENCODING;
     Token.value := [];
     Token.suffix := [];
     Token.prefix := [];
     Token.style := YAML_ANY_SCALAR_STYLE;
     Token.major := 0;
     Token.minor := 0 |}.

Definition stream_start_token (sm em : yaml_mark_t) (enc : yaml_encoding_t) : yaml_token_t :=
  {| Token.token_type := YAML_STREAM_START_TOKEN;
     Token.start_mark := sm;
     Token.end_mark := em;
     Token.encoding := enc;
     Token.value := [];
     Token.suffix := [];
     Token.prefix := [];
     Token.style := YAML_ANY_SCALAR_STYLE;
     Token.major := 0;
     Token.minor := 0 |}.

Definition version_directive_token (sm em : yaml_mark_t) (major minor : Z) : yaml_token_t :=
  {| Token.token_type := YAML_VERSION_DIRECTIVE_TOKEN;
     Token.start_mark := sm;
     Token.end_mark := em;
     Token.encoding := YAML_ANY_ENCODING;
     Token.value := [];
     Token.suffix := [];
     Token.prefix := [];
     Token.style := YAML_ANY_SCALAR_STYLE;
     Token.major := major;
     Token.minor := minor |}.

Definition tag_directive_token (sm em : yaml_mark_t) (handle prefix : string) : yaml_token_t :=
  {| Token.token_type := YAML_TAG_DIRECTIVE_TOKEN;
     Token.start_mark := sm;
     Token.end_mark := em;
     Token.encoding := YAML_ANY_ENCODING;
     Token.value := list_byte_of_string handle;
     Token.suffix := [];
     Token.prefix := list_byte_of_string prefix;
     Token.style := YAML_ANY_SCALAR_STYLE;
     Token.major := 0;
     Token.minor := 0 |}.

Definition tag_token (sm em : yaml_mark_t) (handle suffix : string) : yaml_token_t :=
  {| Token.token_type := YAML_TAG_TOKEN;
     Token.start_mark := sm;
     Token.end_mark := em;
     Token.encoding := YAML_ANY_ENCODING;
     Token.value := list_byte_of_string handle;
     Token.suffix := list_byte_of_string suffix;
     Token.prefix := [];
     Token.style := YAML_ANY_SCALAR_STYLE;
     Token.major := 0;
     Token.minor := 0 |}.

Definition scalar_token (sm em : yaml_mark_t) (value : string)
    (style : yaml_scalar_style_t) : yaml_token_t :=
  {| Token.token_type := YAML_SCALAR_TOKEN;
     Token.start_mark := sm;
     Token.end_mark := em;
     Token.encoding := YAML_ANY_ENCODING;
     Token.value := list_byte_of_string value;
     Token.suffix := [];
     Token.prefix := [];
     Token.style := style;
     Token.major := 0;
     Token.minor := 0 |}.

Definition mark_at (i : Z) : yaml_mark_t := {| index := i; line := 0; column := i |}.

(** * The vocabulary of the properties *)

Local Open Scope string_scope.
Local Open Scope nat_scope.
Local Open Scope list_scope.

(** The token sequence [STREAM-START, SCALAR("foo", plain), STREAM-END]. *)
Definition implicit_scalar_tokens (enc : yaml_encoding_t)
    (a a' b b' c c' : yaml_mark_t) : list yaml_token_t :=
  [ stream_start_token a a' enc;
    scalar_token b b' "foo" YAML_PLAIN_SCALAR_STYLE;
    plain_token YAML_STREAM_END_TOKEN c c' ].

(** The token sequence [STREAM-START, VERSION(1,1),
    TAG("!e!","tag:example.com,2024:"), DOCUMENT-START, SCALAR("x", plain),
    DOCUMENT-END, STREAM-END]. *)
Definition explicit_document_tokens (enc : yaml_encoding_t)
    (a a' b b' c c' d d' e e' f f' g g' : yaml_mark_t) : list yaml_token_t :=
  [ stream_start_token a a' enc;
    version_directive_token b b' 1 1;
    tag_directive_token c c' "!e!" "tag:example.com,2024:";
    plain_token YAML_DOCUMENT_START_TOKEN d d';
    scalar_token e e' "x" YAML_PLAIN_SCALAR_STYLE;
    plain_token YAML_DOCUMENT_END_TOKEN f f';
    plain_token YAML_STREAM_END_TOKEN g g' ].

(** The token sequence of the empty stream, [STREAM-START(utf8), STREAM-END]. *)
Definition empty_stream_tokens : list yaml_token_t :=
  [ stream_start_token (mark_at 0) (mark_at 0) YAML_UTF8_ENCODING;
    plain_token YAML_STREAM_END_TOKEN (mark_at 0) (mark_at 0) ].

(** The tokens of the flow sequence [[k: v]]. *)
Definition flow_pair_tokens : list yaml_token_t :=
  [ stream_start_token (mark_at 0) (mark_at 0) YAML_UTF8_ENCODING;
    plain_token YAML_FLOW_SEQUENCE_START_TOKEN (mark_at 0) (mark_at 1);
    plain_token YAML_KEY_TOKEN (mark_at 1) (mark_at 1);
    scalar_token (mark_at 1) (mark_at 2) "k" YAML_PLAIN_SCALAR_STYLE;
    plain_token YAML_VALUE_TOKEN (mark_at 2) (mark_at 3);
    scalar_token (mark_at 4) (mark_at 5) "v" YAML_PLAIN_SCALAR_STYLE;
    plain_token YAML_FLOW_SEQUENCE_END_TOKEN (mark_at 5) (mark_at 6);
    plain_token YAML_STREAM_END_TOKEN (mark_at 6) (mark_at 6) ].

(** The results of a run, reduced to the boolean and the type of the event
    of each call. *)
Definition call_summaries (r : outcome (list handled))
    : option (list (bool * yaml_event_type_t)) :=
  match r with
  | Value rs _ => Some (map (fun x => (fst x, Event.event_type (snd x))) rs)
  | _ => None
  end.

Definition returns_false (r : outcome handled) : Prop :=
  exists e p', r = Value (false, e) p'.

(** The parser left by a first call that finds a scalar where the stream
    start is expected. *)
Definition parser_after_bad_start : yaml_parser_t :=
  {| error := YAML_PARSER_ERROR;
     problem := "did not find expected <stream-start>";
     problem_mark := mark_at 0;
     context := EmptyString;
     context_mark := yaml_mark_zero;
     tokens := [ scalar_token (mark_at 0) (mark_at 3) "foo" YAML_PLAIN_SCALAR_STYLE ];
     tokens_head := 0;
     tokens_parsed := 0;
     token_available := true;
     stream_end_produced := false;
     state := YAML_PARSE_STREAM_START_STATE;
     states := [];
     marks := [];
     tag_directives := [] |}.

(** A parser inside an indentless sequence that is the value of a block
    mapping, looking at a document end token. *)
Definition parser_in_indentless_sequence : yaml_parser_t :=
  {| error := YAML_NO_ERROR;
     problem := EmptyString;
     problem_mark := yaml_mark_zero;
     context := EmptyString;
     context_mark := yaml_mark_zero;
     tokens := [ plain_token YAML_DOCUMENT_END_TOKEN (mark_at 7) (mark_at 10) ];
     tokens_head := 0;
     tokens_parsed := 6;
     token_available := false;
     stream_end_produced := false;
     state := YAML_PARSE_INDENTLESS_SEQUENCE_ENTRY_STATE;
     states := [ YAML_PARSE_DOCUMENT_END_STATE; YAML_PARSE_BLOCK_MAPPING_KEY_STATE ];
     marks := [ mark_at 0 ];
     tag_directives := default_tag_directives |}.

(** [wp m Q E p]: run from [p], [m] either ends with a value and a parser
    that satisfy [Q], or panics in a way [E] allows, or runs out of fuel. *)
Definition wp {A : Type} (m : M A) (Q : A -> yaml_parser_t -> Prop)
    (E : go_panic -> Prop) (p : yaml_parser_t) : Prop :=
  match m p with
  | Value a p' => Q a p'
  | Panic k => E k
  | OutOfFuel => True
  end.

(** What [peek_token] can do: return the buffered head, fetch and return the
    head, or fail to fetch. *)
Inductive peeked (fetch : yaml_parser_t -> bool * yaml_parser_t) (p : yaml_parser_t)
    : option yaml_token_t -> yaml_parser_t -> Prop :=
| peeked_buffered : forall t,
    token_available p = true ->
    nth_error (tokens p) (tokens_head p) = Some t ->
    peeked fetch p (Some t) p
| peeked_fetched : forall p1 t,
    token_available p = false ->
    fetch p = (true, p1) ->
    nth_error (tokens p1) (tokens_head p1) = Some t ->
    peeked fetch p (Some t) p1
| peeked_failed : forall p1,
    token_available p = false ->
    fetch p = (false, p1) ->
    peeked fetch p None p1.

(** The flags of a scalar event agree with its style and tag. *)
Definition scalar_flags_ok (e : yaml_event_t) : Prop :=
  Event.event_type e = YAML_SCALAR_EVENT ->
  (Event.implicit e = true ->
     (Event.style e = yaml_style_of_scalar YAML_PLAIN_SCALAR_STYLE /\ Event.tag e = [])
     \/ Event.tag e = ["!"%byte])
  /\ (Event.quoted_implicit e = true ->
      Event.style e <> yaml_style_of_scalar YAML_PLAIN_SCALAR_STYLE /\ Event.tag e = [])
  /\ ~ (Event.implicit e = true /\ Event.quoted_implicit e = true).

(** An event that is not the stream end and, if a scalar, has sound flags. *)
Definition quiet (e : yaml_event_t) : Prop :=
  scalar_flags_ok e /\ Event.event_type e <> YAML_STREAM_END_EVENT.

(** What holds after a handler: sound scalar flags, and a stream-end event
    leaves the parser in its terminal state with the stream end recorded. *)
Definition after_call (r : handled) (p' : yaml_parser_t) : Prop :=
  scalar_flags_ok (snd r)
  /\ (Event.event_type (snd r) = YAML_STREAM_END_EVENT ->
      state p' = YAML_PARSE_END_STATE /\ stream_end_produced p' = true).

(** The four states whose handler starts with an unchecked peek. *)
Definition is_first_state (s : yaml_parser_state_t) : bool :=
  match s with
  | YAML_PARSE_BLOCK_SEQUENCE_FIRST_ENTRY_STATE
  | YAML_PARSE_BLOCK_MAPPING_FIRST_KEY_STATE
  | YAML_PARSE_FLOW_SEQUENCE_FIRST_ENTRY_STATE
  | YAML_PARSE_FLOW_MAPPING_FIRST_KEY_STATE => true
  | _ => false
  end.

(** The parser of the scenario of the plain scalar "foo" before its third
    call. *)
Definition parser_at_scalar : yaml_parser_t :=
  {| error := YAML_NO_ERROR;
     problem := EmptyString;
     problem_mark := yaml_mark_zero;
     context := EmptyString;
     context_mark := yaml_mark_zero;
     tokens := implicit_scalar_tokens YAML_UTF8_ENCODING (mark_at 0) (mark_at 0)
                 (mark_at 0) (mark_at 3) (mark_at 4) (mark_at 4);
     tokens_head := 1;
     tokens_parsed := 1;
     token_available := true;
     stream_end_produced := false;
     state := YAML_PARSE_BLOCK_NODE_STATE;
     states := [ YAML_PARSE_DOCUMENT_END_STATE ];
     marks := [];
     tag_directives := default_tag_directives |}.

(** The parser of the scenario of the plain scalar "foo" after its five
    calls. *)
Definition parser_after_stream_end : yaml_parser_t :=
  {| error := YAML_NO_ERROR;
     problem := EmptyString;
     problem_mark := yaml_mark_zero;
     context := EmptyString;
     context_mark := yaml_mark_zero;
     tokens := implicit_scalar_tokens YAML_UTF8_ENCODING (mark_at 0) (mark_at 0)
                 (mark_at 0) (mark_at 3) (mark_at 4) (mark_at 4);
     tokens_head := 3;
     tokens_parsed := 3;
     token_available := false;
     stream_end_produced := true;
     state := YAML_PARSE_END_STATE;
     states := [];
     marks := [];
     tag_directives := [] |}.

(** The states of a collection whose opening token has been consumed and
    whose mark is on the mark stack.  The three states of a single-pair
    mapping inside a flow sequence stand for that flow sequence. *)
Definition marked (s : yaml_parser_state_t) : nat :=
  match s with
  | YAML_PARSE_BLOCK_SEQUENCE_ENTRY_STATE
  | YAML_PARSE_BLOCK_MAPPING_KEY_STATE
  | YAML_PARSE_BLOCK_MAPPING_VALUE_STATE
  | YAML_PARSE_FLOW_SEQUENCE_ENTRY_STATE
  | YAML_PARSE_FLOW_SEQUENCE_ENTRY_MAPPING_KEY_STATE
  | YAML_PARSE_FLOW_SEQUENCE_ENTRY_MAPPING_VALUE_STATE
  | YAML_PARSE_FLOW_SEQUENCE_ENTRY_MAPPING_END_STATE
  | YAML_PARSE_FLOW_MAPPING_KEY_STATE
  | YAML_PARSE_FLOW_MAPPING_VALUE_STATE
  | YAML_PARSE_FLOW_MAPPING_EMPTY_VALUE_STATE => 1
  | _ => 0
  end.

(** The states of an open collection that has no mark on the mark stack: a
    collection whose start event is out but whose FIRST handler has not run
    yet, an indentless sequence, a single-pair mapping in a flow sequence. *)
Definition unmarked (s : yaml_parser_state_t) : nat :=
  match s with
  | YAML_PARSE_BLOCK_SEQUENCE_FIRST_ENTRY_STATE
  | YAML_PARSE_BLOCK_MAPPING_FIRST_KEY_STATE
  | YAML_PARSE_FLOW_SEQUENCE_FIRST_ENTRY_STATE
  | YAML_PARSE_FLOW_MAPPING_FIRST_KEY_STATE
  | YAML_PARSE_INDENTLESS_SEQUENCE_ENTRY_STATE
  | YAML_PARSE_FLOW_SEQUENCE_ENTRY_MAPPING_KEY_STATE
  | YAML_PARSE_FLOW_SEQUENCE_ENTRY_MAPPING_VALUE_STATE
  | YAML_PARSE_FLOW_SEQUENCE_ENTRY_MAPPING_END_STATE => 1
  | _ => 0
  end.

(** The states between documents and around the stream, and the return
    state of a document. *)
Definition framing (s : yaml_parser_state_t) : nat :=
  match s with
  | YAML_PARSE_STREAM_START_STATE
  | YAML_PARSE_IMPLICIT_DOCUMENT_START_STATE
  | YAML_PARSE_DOCUMENT_START_STATE
  | YAML_PARSE_DOCUMENT_END_STATE
  | YAML_PARSE_END_STATE => 1
  | _ => 0
  end.

Fixpoint weigh (f : yaml_parser_state_t -> nat) (l : list yaml_parser_state_t) : nat :=
  match l with
  | [] => 0
  | s :: l' => f s + weigh f l'
  end.

(** The current state and the return states below it. *)
Definition control (p : yaml_parser_t) : list yaml_parser_state_t :=
  state p :: states p.

Definition opens (e : yaml_event_t) : nat :=
  match Event.event_type e with
  | YAML_SEQUENCE_START_EVENT | YAML_MAPPING_START_EVENT => 1
  | _ => 0
  end.

Definition closes (e : yaml_event_t) : nat :=
  match Event.event_type e with
  | YAML_SEQUENCE_END_EVENT | YAML_MAPPING_END_EVENT => 1
  | _ => 0
  end.

(** The numbers of start events and of end events of collections in [es],
    and the number of collections [es] leaves open. *)
Definition started (es : list yaml_event_t) : nat := list_sum (map opens es).

Definition ended (es : list yaml_event_t) : nat := list_sum (map closes es).

Definition open_collections (es : list yaml_event_t) : nat := started es - ended es.

(** The bottom of a state stack that is not empty is a framing state. *)
Definition bottom_ok (l : list yaml_parser_state_t) : Prop :=
  match l with
  | [] => True
  | s :: _ => framing s = 1
  end.

Definition no_first_state (l : list yaml_parser_state_t) : Prop :=
  Forall (fun s => is_first_state s = false) l.

(** What the parser relies on from the scanner: it leaves the state, the two
    stacks alone, and a successful fetch marks a token as available. *)
Definition scanner_frame (fetch : yaml_parser_t -> bool * yaml_parser_t) : Prop :=
  forall p ok p1,
    fetch p = (ok, p1) ->
    state p1 = state p /\ states p1 = states p /\ marks p1 = marks p
    /\ (ok = true -> token_available p1 = true).

(** The parsers reached from a new parser by calls that return true, with
    the events of these calls. *)
Inductive reached (fetch : yaml_parser_t -> bool * yaml_parser_t)
    : yaml_parser_t -> list yaml_event_t -> Prop :=
| reached_new : forall ts, reached fetch (yaml_parser_new ts) []
| reached_call : forall fuel p es e p',
    reached fetch p es ->
    yaml_parser_parse fetch fuel p = Value (true, e) p' ->
    reached fetch p' (es ++ [e]).

(** The invariant of the stacks, for a parser and the numbers of start and
    end events of collections produced so far. *)
Definition balanced (p : yaml_parser_t) (started ended : nat) : Prop :=
  List.length (marks p) = weigh marked (control p)
  /\ started = ended + weigh marked (control p) + weigh unmarked (control p)
  /\ no_first_state (states p)
  /\ (is_first_state (state p) = true -> token_available p = true)
  /\ weigh framing (control p) = 1
  /\ bottom_ok (states p).

(** What [yaml_parser_parse_node] does to the stacks when it returns true:
    it either returns to the state on top of the stack or opens a
    collection. *)
Definition node_step (p : yaml_parser_t) (r : handled) (p' : yaml_parser_t) : Prop :=
  fst r = true ->
  marks p' = marks p
  /\ weigh marked (control p') = weigh marked (states p)
  /\ opens (snd r) + weigh unmarked (states p)
     = closes (snd r) + weigh unmarked (control p')
  /\ (no_first_state (states p) -> no_first_state (states p'))
  /\ (no_first_state (states p) -> is_first_state (state p') = true ->
      token_available p' = true)
  /\ weigh framing (control p') = weigh framing (states p)
  /\ (bottom_ok (states p) -> bottom_ok (states p')).

(** What a handler does to the stacks when it returns true. *)
Definition handler_step (p : yaml_parser_t) (r : handled) (p' : yaml_parser_t) : Prop :=
  fst r = true ->
  List.length (marks p') + weigh marked (control p)
  = List.length (marks p) + weigh marked (control p')
  /\ opens (snd r) + weigh marked (control p) + weigh unmarked (control p)
     = closes (snd r) + weigh marked (control p') + weigh unmarked (control p')
  /\ (no_first_state (states p) -> no_first_state (states p'))
  /\ (no_first_state (states p) ->
      (is_first_state (state p) = true -> token_available p = true) ->
      is_first_state (state p') = true -> token_available p' = true)
  /\ weigh framing (control p') = weigh framing (control p)
  /\ (weigh framing (control p) = 1 -> bottom_ok (states p) -> bottom_ok (states p')).

(** The scanner leaves the state and the two stacks alone. *)
Definition stacks_kept (p p' : yaml_parser_t) : Prop :=
  state p' = state p /\ states p' = states p /\ marks p' = marks p.

(** The tokens of a block mapping whose value is an indentless sequence,
    [a:] followed by [- 1]. *)
Definition indentless_sequence_tokens : list yaml_token_t :=
  [ stream_start_token (mark_at 0) (mark_at 0) YAML_UTF8_ENCODING;
    plain_token YAML_BLOCK_MAPPING_START_TOKEN (mark_at 0) (mark_at 0);
    plain_token YAML_KEY_TOKEN (mark_at 0) (mark_at 0);
    scalar_token (mark_at 0) (mark_at 1) "a" YAML_PLAIN_SCALAR_STYLE;
    plain_token YAML_VALUE_TOKEN (mark_at 1) (mark_at 2);
    plain_token YAML_BLOCK_ENTRY_TOKEN (mark_at 3) (mark_at 4);
    scalar_token (mark_at 5) (mark_at 6) "1" YAML_PLAIN_SCALAR_STYLE;
    plain_token YAML_BLOCK_END_TOKEN (mark_at 7) (mark_at 7);
    plain_token YAML_STREAM_END_TOKEN (mark_at 7) (mark_at 7) ].

(** Six calls on these tokens: up to the scalar [1] inside the sequence. *)
Definition indentless_run : outcome (list handled) :=
  parse_calls queue_fetch_more_tokens 0 6 (yaml_parser_new indentless_sequence_tokens).

Definition run_parser (r : outcome (list handled)) : yaml_parser_t :=
  match r with
  | Value _ p => p
  | _ => yaml_parser_new []
  end.

Definition run_events (r : outcome (list handled)) : list yaml_event_t :=
  match r with
  | Value rs _ => map snd rs
  | _ => []
  end.

(** A parser in the first-entry state of a block sequence with no token
    buffered and an empty queue: the scanner has nothing to supply. *)
Definition parser_at_first_entry_without_token : yaml_parser_t :=
  {| error := YAML_NO_ERROR;
     problem := EmptyString;
     problem_mark := yaml_mark_zero;
     context := EmptyString;
     context_mark := yaml_mark_zero;
     tokens := [];
     tokens_head := 0;
     tokens_parsed := 0;
     token_available := false;
     stream_end_produced := false;
     state := YAML_PARSE_BLOCK_SEQUENCE_FIRST_ENTRY_STATE;
     states := [ YAML_PARSE_DOCUMENT_END_STATE ];
     marks := [];
     tag_directives := [] |}.

(** ** The directive table *)

(** The search of the directive table for a handle, as node parsing does it
    (parser.go:482-491): the first entry with that handle. *)
Definition directive_for (h : list byte) (tds : list yaml_tag_directive_t)
    : option yaml_tag_directive_t :=
  find (fun tag_directive => bytes_equal (handle tag_directive) h) tds.

(** No two entries of the table have the same handle. *)
Definition unique_handles (tds : list yaml_tag_directive_t) : Prop :=
  NoDup (map handle tds).

(** Every built-in handle has an entry in the table. *)
Definition defaults_present (tds : list yaml_tag_directive_t) : Prop :=
  forall d, In d default_tag_directives -> directive_for (handle d) tds <> None.

(** A parser at the start of a document whose table holds a user directive
    for the handle [!!]. *)
Definition parser_with_user_directive : yaml_parser_t :=
  set_tag_directives
    [ {| handle := list_byte_of_string "!!"; prefix := list_byte_of_string "tag:x:" |} ]
    (set_state YAML_PARSE_DOCUMENT_START_STATE
       (yaml_parser_new [ plain_token YAML_DOCUMENT_START_TOKEN (mark_at 0) (mark_at 3) ])).

(** ** The results of a call *)

Definition is_collection_start (e : yaml_event_t) : bool :=
  match Event.event_type e with
  | YAML_SEQUENCE_START_EVENT | YAML_MAPPING_START_EVENT => true
  | _ => false
  end.

(** The test at the head of [yaml_parser_parse]: the call does nothing. *)
Definition idle (p : yaml_parser_t) : bool :=
  stream_end_produced p
  || negb (yaml_error_type_t_beq (error p) YAML_NO_ERROR)
  || yaml_parser_state_t_beq (state p) YAML_PARSE_END_STATE.

(** What a handler leaves in its result: the zero event with false, an event
    of some type with true; and what no event carries: a tag, a version, tag
    directives, or a collection start that is not implicit. *)
Definition handler_result (r : handled) : Prop :=
  (fst r = false -> snd r = yaml_event_zero)
  /\ (fst r = true -> Event.event_type (snd r) <> YAML_NO_EVENT)
  /\ Event.tag (snd r) = []
  /\ Event.version_directive (snd r) = None
  /\ Event.tag_directives (snd r) = []
  /\ (is_collection_start (snd r) = true -> Event.implicit (snd r) = true).

(** What the parser relies on when the scanner reports: a failed fetch has
    latched an error, a successful one leaves the error field alone. *)
Definition scanner_reports (fetch : yaml_parser_t -> bool * yaml_parser_t) : Prop :=
  forall p ok p1,
    fetch p = (ok, p1) ->
    if ok then error p1 = error p else error p1 <> YAML_NO_ERROR.

(** The boolean of a handler tells whether an error is latched. *)
Definition error_told (p : yaml_parser_t) (ok : bool) (p' : yaml_parser_t) : Prop :=
  if ok then error p' = error p else error p' <> YAML_NO_ERROR.

(** A parser about to read the start of a block mapping. *)
Definition parser_at_block_mapping : yaml_parser_t :=
  set_state YAML_PARSE_BLOCK_NODE_STATE
    (yaml_parser_new
       [ plain_token YAML_BLOCK_MAPPING_START_TOKEN (mark_at 0) (mark_at 0) ]).

(** A parser at the start of a stream whose first token is not STREAM-START. *)
Definition parser_before_bad_start : yaml_parser_t :=
  yaml_parser_new [ plain_token YAML_BLOCK_END_TOKEN (mark_at 0) (mark_at 0) ].

(** ** The grammar of the events *)

(** The constructs an event can be inside of: a document, with whether its
    root node is out; a sequence; a mapping, with whether a key waits for its
    value. *)
Inductive frame : Type :=
| in_document (root : bool)
| in_sequence
| in_mapping (key : bool).

(** Where a sequence of events stands: before the stream, within the stream
    with the open constructs (innermost first), or after the stream. *)
Inductive position : Type :=
| before_stream
| within (open : list frame)
| after_stream.

(** The innermost construct receives a node. *)
Definition take_node (open : list frame) : option (list frame) :=
  match open with
  | in_document false :: rest => Some (in_document true :: rest)
  | in_sequence :: rest => Some (in_sequence :: rest)
  | in_mapping key :: rest => Some (in_mapping (negb key) :: rest)
  | _ => None
  end.

(** One event of
    stream ::= STREAM-START document* STREAM-END,
    document ::= DOCUMENT-START node DOCUMENT-END,
    node ::= ALIAS | SCALAR | SEQUENCE-START node* SEQUENCE-END
           | MAPPING-START (node node)* MAPPING-END;
    the zero event of a call that did nothing is passed over. *)
Definition track (pos : position) (e : yaml_event_t) : option position :=
  match Event.event_type e, pos with
  | YAML_NO_EVENT, _ => Some pos
  | YAML_STREAM_START_EVENT, before_stream => Some (within [])
  | YAML_STREAM_END_EVENT, within [] => Some after_stream
  | YAML_DOCUMENT_START_EVENT, within [] => Some (within [in_document false])
  | YAML_DOCUMENT_END_EVENT, within [in_document true] => Some (within [])
  | YAML_ALIAS_EVENT, within open
  | YAML_SCALAR_EVENT, within open => option_map within (take_node open)
  | YAML_SEQUENCE_START_EVENT, within open =>
      option_map (fun rest => within (in_sequence :: rest)) (take_node open)
  | YAML_MAPPING_START_EVENT, within open =>
      option_map (fun rest => within (in_mapping false :: rest)) (take_node open)
  | YAML_SEQUENCE_END_EVENT, within (in_sequence :: rest) => Some (within rest)
  | YAML_MAPPING_END_EVENT, within (in_mapping false :: rest) => Some (within rest)
  | _, _ => None
  end.

Fixpoint track_all (pos : position) (es : list yaml_event_t) : option position :=
  match es with
  | [] => Some pos
  | e :: es' =>
      match track pos e with
      | Some pos' => track_all pos' es'
      | None => None
      end
  end.

(** The states in which the next event is a node and the parser then returns
    to the state on top of the stack. *)
Definition is_node_state (s : yaml_parser_state_t) : bool :=
  match s with
  | YAML_PARSE_DOCUMENT_CONTENT_STATE
  | YAML_PARSE_BLOCK_NODE_STATE
  | YAML_PARSE_BLOCK_NODE_OR_INDENTLESS_SEQUENCE_STATE
  | YAML_PARSE_FLOW_NODE_STATE => true
  | _ => false
  end.

(** The states the handlers push on the state stack. *)
Definition is_return_state (s : yaml_parser_state_t) : bool :=
  match s with
  | YAML_PARSE_DOCUMENT_END_STATE
  | YAML_PARSE_BLOCK_SEQUENCE_ENTRY_STATE
  | YAML_PARSE_INDENTLESS_SEQUENCE_ENTRY_STATE
  | YAML_PARSE_BLOCK_MAPPING_KEY_STATE
  | YAML_PARSE_BLOCK_MAPPING_VALUE_STATE
  | YAML_PARSE_FLOW_SEQUENCE_ENTRY_STATE
  | YAML_PARSE_FLOW_SEQUENCE_ENTRY_MAPPING_VALUE_STATE
  | YAML_PARSE_FLOW_SEQUENCE_ENTRY_MAPPING_END_STATE
  | YAML_PARSE_FLOW_MAPPING_KEY_STATE
  | YAML_PARSE_FLOW_MAPPING_VALUE_STATE
  | YAML_PARSE_FLOW_MAPPING_EMPTY_VALUE_STATE => true
  | _ => false
  end.

(** The constructs a state stands for, as the current state or as a return
    state on the stack (innermost first).  A single-pair mapping in a flow
    sequence has no state of the sequence on the stack: its three states
    stand for the sequence too. *)
Definition frames (s : yaml_parser_state_t) : list frame :=
  match s with
  | YAML_PARSE_DOCUMENT_END_STATE => [in_document true]
  | YAML_PARSE_BLOCK_SEQUENCE_FIRST_ENTRY_STATE
  | YAML_PARSE_BLOCK_SEQUENCE_ENTRY_STATE
  | YAML_PARSE_INDENTLESS_SEQUENCE_ENTRY_STATE
  | YAML_PARSE_FLOW_SEQUENCE_FIRST_ENTRY_STATE
  | YAML_PARSE_FLOW_SEQUENCE_ENTRY_STATE => [in_sequence]
  | YAML_PARSE_BLOCK_MAPPING_FIRST_KEY_STATE
  | YAML_PARSE_BLOCK_MAPPING_KEY_STATE
  | YAML_PARSE_FLOW_MAPPING_FIRST_KEY_STATE
  | YAML_PARSE_FLOW_MAPPING_KEY_STATE => [in_mapping false]
  | YAML_PARSE_BLOCK_MAPPING_VALUE_STATE
  | YAML_PARSE_FLOW_MAPPING_VALUE_STATE
  | YAML_PARSE_FLOW_MAPPING_EMPTY_VALUE_STATE => [in_mapping true]
  | YAML_PARSE_FLOW_SEQUENCE_ENTRY_MAPPING_KEY_STATE
  | YAML_PARSE_FLOW_SEQUENCE_ENTRY_MAPPING_END_STATE => [in_mapping false; in_sequence]
  | YAML_PARSE_FLOW_SEQUENCE_ENTRY_MAPPING_VALUE_STATE => [in_mapping true; in_sequence]
  | _ => []
  end.

(** The position the current state [c] and the state stack [l] stand for. *)
Definition position_at (c : yaml_parser_state_t) (l : list yaml_parser_state_t)
    : position :=
  match c with
  | YAML_PARSE_STREAM_START_STATE => before_stream
  | YAML_PARSE_END_STATE => after_stream
  | YAML_PARSE_DOCUMENT_CONTENT_STATE
  | YAML_PARSE_BLOCK_NODE_STATE
  | YAML_PARSE_BLOCK_NODE_OR_INDENTLESS_SEQUENCE_STATE
  | YAML_PARSE_FLOW_NODE_STATE => within [in_document false]
  | _ => within (frames c ++ flat_map frames (rev l))
  end.

Definition position_of (p : yaml_parser_t) : position :=
  position_at (state p) (states p).

(** The shape of the state stack between calls: it is empty exactly in the
    states around the stream and between documents; otherwise its bottom is
    DOCUMENT-END, the states above are return states of collections, and a
    node state has nothing but the bottom below it. *)
Definition anchored_at (c : yaml_parser_state_t) (l : list yaml_parser_state_t) : Prop :=
  match l with
  | [] => framing c = 1
  | b :: l' =>
      b = YAML_PARSE_DOCUMENT_END_STATE
      /\ framing c = 0
      /\ Forall (fun s => is_return_state s = true /\ framing s = 0) l'
      /\ (is_node_state c = true -> l' = [])
  end.

Definition anchored (p : yaml_parser_t) : Prop := anchored_at (state p) (states p).

Definition is_leaf_event (e : yaml_event_t) : bool :=
  match Event.event_type e with
  | YAML_ALIAS_EVENT | YAML_SCALAR_EVENT => true
  | _ => false
  end.

(** The start event with which [yaml_parser_parse_node] enters state [s]. *)
Definition opened_by (s : yaml_parser_state_t) (e : yaml_event_t) : Prop :=
  match s with
  | YAML_PARSE_BLOCK_SEQUENCE_FIRST_ENTRY_STATE
  | YAML_PARSE_FLOW_SEQUENCE_FIRST_ENTRY_STATE
  | YAML_PARSE_INDENTLESS_SEQUENCE_ENTRY_STATE =>
      Event.event_type e = YAML_SEQUENCE_START_EVENT
  | YAML_PARSE_BLOCK_MAPPING_FIRST_KEY_STATE
  | YAML_PARSE_FLOW_MAPPING_FIRST_KEY_STATE =>
      Event.event_type e = YAML_MAPPING_START_EVENT
  | _ => False
  end.

(** What [yaml_parser_parse_node] does when it returns true: it produces an
    alias or a scalar and returns to the state on top of the stack, or it
    produces the start of a collection and enters its first state. *)
Definition node_nest (p : yaml_parser_t) (r : handled) (p' : yaml_parser_t) : Prop :=
  fst r = true ->
  (exists s, states p = states p' ++ [s] /\ state p' = s /\ is_leaf_event (snd r) = true)
  \/ (states p' = states p /\ opened_by (state p') (snd r)).

(** What a handler that returns true does to the position. *)
Definition nest_step (p : yaml_parser_t) (r : handled) (p' : yaml_parser_t) : Prop :=
  fst r = true ->
  anchored p ->
  anchored p' /\ track (position_of p) (snd r) = Some (position_of p').

(** ** The scope of the directive table *)

(** What the parser relies on for the directive table: the scanner leaves it
    alone. *)
Definition scanner_keeps_directives (fetch : yaml_parser_t -> bool * yaml_parser_t) : Prop :=
  forall p ok p1, fetch p = (ok, p1) -> tag_directives p1 = tag_directives p.

(** The states outside of a document. *)
Definition between_documents (s : yaml_parser_state_t) : bool :=
  match s with
  | YAML_PARSE_STREAM_START_STATE
  | YAML_PARSE_IMPLICIT_DOCUMENT_START_STATE
  | YAML_PARSE_DOCUMENT_START_STATE
  | YAML_PARSE_END_STATE => true
  | _ => false
  end.

(** The table is empty outside of a document and holds the two built-in
    directives inside. *)
Definition table_scoped (p : yaml_parser_t) : Prop :=
  tag_directives p
  = if between_documents (state p) then [] else default_tag_directives.

Definition table_kept (p p' : yaml_parser_t) : Prop :=
  stacks_kept p p' /\ tag_directives p' = tag_directives p.

Definition node_scope (p : yaml_parser_t) (r : handled) (p' : yaml_parser_t) : Prop :=
  node_nest p r p' /\ (fst r = true -> tag_directives p' = tag_directives p).

Definition scope_step (p : yaml_parser_t) (r : handled) (p' : yaml_parser_t) : Prop :=
  fst r = true -> anchored p -> table_scoped p -> table_scoped p'.

(** ** Run-time panics *)

(** What the parser relies on when the scanner succeeds: a token is at the
    head of the queue. *)
Definition scanner_delivers (fetch : yaml_parser_t -> bool * yaml_parser_t) : Prop :=
  forall p p1, fetch p = (true, p1) -> nth_error (tokens p1) (tokens_head p1) <> None.

(** A token marked as available is at the head of the queue. *)
Definition head_ok (p : yaml_parser_t) : Prop :=
  token_available p = true -> nth_error (tokens p) (tokens_head p) <> None.

(** What a handler needs to run without an index out of range or a nil
    token: a return state below every state of a node or a collection, a mark
    for every collection past its first entry, and the start token of a
    collection still available in its FIRST state. *)
Definition safe_at (p : yaml_parser_t) : Prop :=
  head_ok p
  /\ (framing (state p) = 0 -> states p <> [])
  /\ (marked (state p) = 1 -> marks p <> [])
  /\ (is_first_state (state p) = true -> token_available p = true).

(** The one panic left. *)
Definition tag_panic (k : go_panic) : Prop := k = nil_tag_handle_dereference.

Definition head_kept (r : handled) (p' : yaml_parser_t) : Prop :=
  fst r = true -> head_ok p'.

(** The stacks and the queue are as they were. *)
Definition queue_kept (p p' : yaml_parser_t) : Prop :=
  stacks_kept p p'
  /\ tokens p' = tokens p
  /\ tokens_head p' = tokens_head p
  /\ token_available p' = token_available p.

(** The tokens of a tagged scalar, and the two calls that lead to its tag. *)
Definition tagged_scalar_tokens : list yaml_token_t :=
  [ stream_start_token (mark_at 0) (mark_at 0) YAML_UTF8_ENCODING;
    tag_token (mark_at 0) (mark_at 2) "!" "x";
    scalar_token (mark_at 3) (mark_at 4) "a" YAML_PLAIN_SCALAR_STYLE;
    plain_token YAML_STREAM_END_TOKEN (mark_at 4) (mark_at 4) ].

Definition tagged_scalar_run : outcome (list handled) :=
  parse_calls queue_fetch_more_tokens 0 2 (yaml_parser_new tagged_scalar_tokens).

(** ** Fuel *)

(** The outcome of [m] is not [OutOfFuel], and a result satisfies [Q]. *)
Definition twp {A : Type} (m : M A) (Q : A -> yaml_parser_t -> Prop)
    (p : yaml_parser_t) : Prop :=
  match m p with
  | Value a p' => Q a p'
  | Panic _ => True
  | OutOfFuel => False
  end.

(** A scanner that works on a queue filled beforehand: it leaves the
    tokens and the head alone and succeeds only with a token at the head. *)
Definition scanner_on_queue (fetch : yaml_parser_t -> bool * yaml_parser_t) : Prop :=
  forall p ok p1,
    fetch p = (ok, p1) ->
    tokens p1 = tokens p /\ tokens_head p1 = tokens_head p
    /\ (ok = true -> nth_error (tokens p1) (tokens_head p1) <> None).

(** The number of tokens from the head on. *)
Definition unread (p : yaml_parser_t) : nat := List.length (tokens p) - tokens_head p.

(** The tokens are the same and the head has not moved back. *)
Definition queue_advanced (p p' : yaml_parser_t) : Prop :=
  tokens p' = tokens p /\ (tokens_head p <= tokens_head p')%nat.

(** A parser before two document end indicators at the end of a stream. *)
Definition parser_before_document_ends : yaml_parser_t :=
  set_state YAML_PARSE_DOCUMENT_START_STATE
    (yaml_parser_new
       [ plain_token YAML_DOCUMENT_END_TOKEN (mark_at 0) (mark_at 3);
         plain_token YAML_DOCUMENT_END_TOKEN (mark_at 4) (mark_at 7);
         plain_token YAML_STREAM_END_TOKEN (mark_at 8) (mark_at 8) ]).

(** * Properties *)

(** ** End-to-end scenarios *)

(** C4: for the tokens STREAM-START, SCALAR("foo", plain), STREAM-END, five
    calls of [yaml_parser_parse] all return true and produce stream-start,
    document-start (implicit), the scalar "foo" (plain style, plain_implicit
    set, quoted_implicit clear, no tag, no anchor), document-end (implicit)
    and stream-end, whatever the marks, the encoding and the fuel are. *)
Theorem implicit_scalar_scenario :
  forall (fuel : nat) (enc : yaml_encoding_t) (a a' b b' c c' : yaml_mark_t),
  exists p',
    parse_calls queue_fetch_more_tokens fuel 5
      (yaml_parser_new (implicit_scalar_tokens enc a a' b b' c c'))
    = Value
        [ (true, stream_start_event a a' enc);
          (true, document_event YAML_DOCUMENT_START_EVENT b b' None [] true);
          (true, node_event YAML_SCALAR_EVENT b b' [] [] (list_byte_of_string "foo")
                   true false (yaml_style_of_scalar YAML_PLAIN_SCALAR_STYLE));
          (true, document_event YAML_DOCUMENT_END_EVENT c c None [] true);
          (true, marked_event YAML_STREAM_END_EVENT c c') ] p'
    /\ state p' = YAML_PARSE_END_STATE
    /\ stream_end_produced p' = true
    /\ error p' = YAML_NO_ERROR.
Proof.
  intros fuel enc a a' b b' c c'.
  destruct fuel; vm_compute; eexists; repeat split.
Qed.

(** The empty stream gives stream-start and stream-end. *)
Example empty_stream_scenario :
  call_summaries (parse_calls queue_fetch_more_tokens 0 2 (yaml_parser_new empty_stream_tokens))
  = Some [ (true, YAML_STREAM_START_EVENT); (true, YAML_STREAM_END_EVENT) ].
Proof. reflexivity. Qed.

(** A block mapping with an indentless sequence as value, [a:] and [- 1]. *)
Example indentless_sequence_scenario :
  call_summaries
    (parse_calls queue_fetch_more_tokens 0 10 (yaml_parser_new indentless_sequence_tokens))
  = Some [ (true, YAML_STREAM_START_EVENT); (true, YAML_DOCUMENT_START_EVENT);
           (true, YAML_MAPPING_START_EVENT); (true, YAML_SCALAR_EVENT);
           (true, YAML_SEQUENCE_START_EVENT); (true, YAML_SCALAR_EVENT);
           (true, YAML_SEQUENCE_END_EVENT); (true, YAML_MAPPING_END_EVENT);
           (true, YAML_DOCUMENT_END_EVENT); (true, YAML_STREAM_END_EVENT) ].
Proof. vm_compute. reflexivity. Qed.

(** A flow sequence with a single-pair mapping, [[k: v]]. *)
Example flow_pair_scenario :
  call_summaries (parse_calls queue_fetch_more_tokens 0 10 (yaml_parser_new flow_pair_tokens))
  = Some [ (true, YAML_STREAM_START_EVENT); (true, YAML_DOCUMENT_START_EVENT);
           (true, YAML_SEQUENCE_START_EVENT); (true, YAML_MAPPING_START_EVENT);
           (true, YAML_SCALAR_EVENT); (true, YAML_SCALAR_EVENT);
           (true, YAML_MAPPING_END_EVENT); (true, YAML_SEQUENCE_END_EVENT);
           (true, YAML_DOCUMENT_END_EVENT); (true, YAML_STREAM_END_EVENT) ].
Proof. vm_compute. reflexivity. Qed.


(** ** Directives *)

(** Once the directive loop is entered it never reaches its exit: every
    return is a [return false] from inside the loop. *)
Lemma process_directives_loop_never_exits :
  forall fetch fuel token version_directive tag_directives p r p',
    token_is token YAML_VERSION_DIRECTIVE_TOKEN || token_is token YAML_TAG_DIRECTIVE_TOKEN
      = true ->
    process_directives_loop fetch fuel token version_directive tag_directives p
      = Value r p' ->
    r = None.
Proof.
  intros fetch fuel token.
  induction fuel as [|fuel IH]; intros vd tds p r p' Hdir H; simpl in H; rewrite Hdir in H.
  - discriminate.
  - assert (Hnext : forall vd' tds' q,
               (skip_token ;;
                inner <- peek_token fetch ;;
                match inner with
                | None => ret None
                | Some _ => process_directives_loop fetch fuel token vd' tds'
                end) q = Value r p' -> r = None).
    { intros vd' tds' q Hq. unfold bind in Hq.
      destruct (skip_token q) as [[] q1| |]; try discriminate.
      destruct (peek_token fetch q1) as [[t|] q2| |]; try discriminate.
      - eapply IH; eauto.
      - inversion Hq; reflexivity. }
    destruct (token_is token YAML_VERSION_DIRECTIVE_TOKEN).
    + destruct vd as [v|].
      * inversion H; reflexivity.
      * destruct (negb (Token.major token =? 1)%Z || negb (Token.minor token =? 1)%Z).
        -- inversion H; reflexivity.
        -- eapply Hnext; eauto.
    + destruct (token_is token YAML_TAG_DIRECTIVE_TOKEN).
      * unfold bind at 1 in H.
        destruct (yaml_parser_append_tag_directive _ _ _ p) as [[] q| |]; try discriminate.
        -- eapply Hnext; eauto.
        -- inversion H; reflexivity.
      * eapply Hnext; eauto.
Qed.

(** A version directive met when a version is already recorded fails as a
    duplicate. *)
Lemma duplicate_version_directive_fails :
  forall fetch fuel token v tag_directives p,
    token_is token YAML_VERSION_DIRECTIVE_TOKEN = true ->
    process_directives_loop fetch (S fuel) token (Some v) tag_directives p
    = Value None
        (set_error_fields YAML_PARSER_ERROR (context p) (context_mark p)
           "found duplicate %YAML directive" (Token.start_mark token) p).
Proof.
  intros fetch fuel token v tds p Hv. cbn [process_directives_loop].
  rewrite Hv. reflexivity.
Qed.

(** A version directive other than 1.1 fails as incompatible. *)
Lemma incompatible_version_directive_fails :
  forall fetch fuel token tag_directives p,
    token_is token YAML_VERSION_DIRECTIVE_TOKEN = true ->
    Token.major token <> 1%Z \/ Token.minor token <> 1%Z ->
    process_directives_loop fetch (S fuel) token None tag_directives p
    = Value None
        (set_error_fields YAML_PARSER_ERROR (context p) (context_mark p)
           "found incompatible YAML document" (Token.start_mark token) p).
Proof.
  intros fetch fuel token tds p Hv Hne. cbn [process_directives_loop].
  rewrite Hv. cbn [orb].
  assert (Hc : negb (Token.major token =? 1)%Z || negb (Token.minor token =? 1)%Z = true).
  { destruct Hne as [H | H]; apply Z.eqb_neq in H; rewrite H; cbn;
      [reflexivity | apply orb_true_r]. }
  rewrite Hc. reflexivity.
Qed.


(** ** Tags *)

(** C2: a node that carries a tag token makes [yaml_parser_parse] panic,
    whatever the handle and the suffix are: the store [*tag_handle = ...]
    goes through a nil pointer.  No tag is resolved, no event is produced
    and no error is latched. *)
Theorem tagged_node_panics :
  forall (fuel : nat) (handle suffix : string) (a a' b b' c c' d d' : yaml_mark_t),
    parse_calls queue_fetch_more_tokens fuel 3
      (yaml_parser_new [ stream_start_token a a' YAML_UTF8_ENCODING;
                         tag_token b b' handle suffix;
                         scalar_token c c' "foo" YAML_PLAIN_SCALAR_STYLE;
                         plain_token YAML_STREAM_END_TOKEN d d' ])
    = Panic nil_tag_handle_dereference.
Proof.
  intros. destruct fuel; reflexivity.
Qed.

(** ** The driver's early return *)

Lemma parse_after_error :
  forall fetch fuel p,
    error p <> YAML_NO_ERROR ->
    yaml_parser_parse fetch fuel p = Value (true, yaml_event_zero) p.
Proof.
  intros fetch fuel p Herr. unfold yaml_parser_parse, bind, get, ret.
  destruct (error p); try contradiction; cbn; rewrite orb_true_r; reflexivity.
Qed.

Lemma parse_after_stream_end :
  forall fetch fuel p,
    stream_end_produced p = true ->
    yaml_parser_parse fetch fuel p = Value (true, yaml_event_zero) p.
Proof.
  intros fetch fuel p Hend. unfold yaml_parser_parse, bind, get, ret.
  rewrite Hend. reflexivity.
Qed.

Lemma parse_in_end_state :
  forall fetch fuel p,
    state p = YAML_PARSE_END_STATE ->
    yaml_parser_parse fetch fuel p = Value (true, yaml_event_zero) p.
Proof.
  intros fetch fuel p Hend. unfold yaml_parser_parse, bind, get, ret.
  rewrite Hend. cbn. rewrite orb_true_r. reflexivity.
Qed.

(** Otherwise the call is the handler of the current state, run on the
    erased event. *)
Lemma parse_dispatches :
  forall fetch fuel p,
    stream_end_produced p = false ->
    error p = YAML_NO_ERROR ->
    state p <> YAML_PARSE_END_STATE ->
    yaml_parser_parse fetch fuel p = yaml_parser_state_machine fetch fuel yaml_event_zero p.
Proof.
  intros fetch fuel p Hend Herr Hst. unfold yaml_parser_parse, bind, get.
  rewrite Hend, Herr. destruct (state p); try reflexivity. contradiction Hst; reflexivity.
Qed.

(** A parser on which one call is a no-op stays so for any number of calls. *)
Lemma parse_calls_idle :
  forall fetch fuel p,
    yaml_parser_parse fetch fuel p = Value (true, yaml_event_zero) p ->
    forall n, parse_calls fetch fuel n p = Value (repeat (true, yaml_event_zero) n) p.
Proof.
  intros fetch fuel p Hidle n. induction n as [|n IH]; cbn.
  - reflexivity.
  - unfold bind at 1. rewrite Hidle. unfold bind at 1. rewrite IH. reflexivity.
Qed.

(** C3, counterexample: the stream-start handler returns false and latches
    a parser error; the next call does not return false, it returns true. *)
Lemma latched_error_next_call_not_false :
  yaml_parser_parse queue_fetch_more_tokens 0
    (yaml_parser_new [ scalar_token (mark_at 0) (mark_at 3) "foo" YAML_PLAIN_SCALAR_STYLE ])
  = Value (false, yaml_event_zero) parser_after_bad_start
  /\ error parser_after_bad_start <> YAML_NO_ERROR
  /\ ~ returns_false (yaml_parser_parse queue_fetch_more_tokens 0 parser_after_bad_start).
Proof.
  split; [reflexivity|]. split; [discriminate|].
  intros [e [p' H]]. vm_compute in H. discriminate.
Qed.

(** C3, as amended: once an error is latched, every later call returns true
    with the zero event and leaves the parser, and so its error fields, as
    they are. *)
Theorem latched_error_calls_are_idle :
  forall fetch fuel n p,
    error p <> YAML_NO_ERROR ->
    parse_calls fetch fuel n p = Value (repeat (true, yaml_event_zero) n) p.
Proof.
  intros fetch fuel n p Herr. apply parse_calls_idle. apply parse_after_error. exact Herr.
Qed.

Lemma latched_error_calls_are_idle_witness :
  error parser_after_bad_start <> YAML_NO_ERROR
  /\ parse_calls queue_fetch_more_tokens 0 3 parser_after_bad_start
     = Value (repeat (true, yaml_event_zero) 3) parser_after_bad_start.
Proof.
  split.
  - discriminate.
  - apply (latched_error_calls_are_idle queue_fetch_more_tokens 0 3 parser_after_bad_start).
    discriminate.
Defined.

(** ** Indentless sequences *)

(** In the INDENTLESS-SEQUENCE-ENTRY state every token but a block entry
    ends the sequence. *)
Lemma indentless_sequence_end :
  forall fetch fuel p p1 token s,
    state p = YAML_PARSE_INDENTLESS_SEQUENCE_ENTRY_STATE ->
    error p = YAML_NO_ERROR ->
    stream_end_produced p = false ->
    peek_token fetch p = Value (Some token) p1 ->
    Token.token_type token <> YAML_BLOCK_ENTRY_TOKEN ->
    top (states p1) = Some s ->
    yaml_parser_parse fetch fuel p
    = Value (true, marked_event YAML_SEQUENCE_END_EVENT (Token.start_mark token)
                     (Token.start_mark token))
            (set_states (removelast (states p1)) (set_state s p1)).
Proof.
  intros fetch fuel p p1 token s Hst Herr Hend Hpeek Hty Htop.
  assert (Hno : token_is token YAML_BLOCK_ENTRY_TOKEN = false).
  { unfold token_is. destruct (Token.token_type token); try reflexivity.
    contradiction Hty; reflexivity. }
  rewrite parse_dispatches by (rewrite ?Hst; auto; discriminate).
  unfold yaml_parser_state_machine, bind, get. rewrite Hst.
  unfold yaml_parser_parse_indentless_sequence_entry, peek_or_fail, bind.
  rewrite Hpeek, Hno. unfold pop_state, ret. rewrite Htop. reflexivity.
Qed.

(** C6: in the INDENTLESS-SEQUENCE-ENTRY state a lookahead token that is
    neither a block entry, a key, a value nor a block end ends the sequence:
    the call returns true with a sequence-end event whose two marks are the
    start mark of that token, the state is popped from the state stack, and
    the token is not consumed (the queue is as the peek left it). *)
Theorem indentless_sequence_terminated_by_other_token :
  forall fetch fuel p p1 token s,
    state p = YAML_PARSE_INDENTLESS_SEQUENCE_ENTRY_STATE ->
    error p = YAML_NO_ERROR ->
    stream_end_produced p = false ->
    peek_token fetch p = Value (Some token) p1 ->
    Token.token_type token <> YAML_BLOCK_ENTRY_TOKEN ->
    Token.token_type token <> YAML_KEY_TOKEN ->
    Token.token_type token <> YAML_VALUE_TOKEN ->
    Token.token_type token <> YAML_BLOCK_END_TOKEN ->
    top (states p1) = Some s ->
    exists e p',
      yaml_parser_parse fetch fuel p = Value (true, e) p'
      /\ Event.event_type e = YAML_SEQUENCE_END_EVENT
      /\ Event.start_mark e = Token.start_mark token
      /\ Event.end_mark e = Token.start_mark token
      /\ state p' = s
      /\ states p' = removelast (states p1)
      /\ marks p' = marks p1
      /\ tokens p' = tokens p1
      /\ tokens_head p' = tokens_head p1
      /\ tokens_parsed p' = tokens_parsed p1
      /\ token_available p' = token_available p1.
Proof.
  intros fetch fuel p p1 token s Hst Herr Hend Hpeek Hty _ _ _ Htop.
  do 2 eexists. split.
  - eapply indentless_sequence_end; eauto.
  - cbn. repeat split.
Qed.

Lemma indentless_sequence_terminated_by_other_token_witness :
  exists e p',
    yaml_parser_parse queue_fetch_more_tokens 0 parser_in_indentless_sequence
    = Value (true, e) p'
    /\ Event.event_type e = YAML_SEQUENCE_END_EVENT
    /\ Event.start_mark e = mark_at 7
    /\ Event.end_mark e = mark_at 7
    /\ state p' = YAML_PARSE_BLOCK_MAPPING_KEY_STATE
    /\ tokens_head p' = 0%nat.
Proof.
  destruct (indentless_sequence_terminated_by_other_token queue_fetch_more_tokens 0
              parser_in_indentless_sequence
              (snd (queue_fetch_more_tokens parser_in_indentless_sequence))
              (plain_token YAML_DOCUMENT_END_TOKEN (mark_at 7) (mark_at 10))
              YAML_PARSE_BLOCK_MAPPING_KEY_STATE)
    as [e [p' [H1 [H2 [H3 [H4 [H5 [_ [_ [_ [H6 _]]]]]]]]]]];
    try reflexivity; try discriminate.
  exists e, p'. repeat split; assumption.
Defined.

(** ** A program logic for the handlers *)

Section Logic.

Variable fetch : yaml_parser_t -> bool * yaml_parser_t.

Lemma peek_token_peeked :
  forall p o p1, peek_token fetch p = Value o p1 -> peeked fetch p o p1.
Proof.
  intros p o p1. unfold peek_token.
  destruct (token_available p) eqn:Ha.
  - destruct (nth_error (tokens p) (tokens_head p)) eqn:Hn; intros H; inversion H; subst.
    apply peeked_buffered; assumption.
  - destruct (fetch p) as [[] q] eqn:Hf.
    + destruct (nth_error (tokens q) (tokens_head q)) eqn:Hn; intros H; inversion H; subst.
      eapply peeked_fetched; eassumption.
    + intros H; inversion H; subst. apply peeked_failed; assumption.
Qed.

Lemma peeked_head :
  forall p t p1, peeked fetch p (Some t) p1 -> nth_error (tokens p1) (tokens_head p1) = Some t.
Proof. intros p t p1 H. inversion H; assumption. Qed.

Lemma wp_consequence :
  forall (A : Type) (m : M A) (Q Q' : A -> yaml_parser_t -> Prop) (E E' : go_panic -> Prop) p,
    wp m Q' E' p ->
    (forall a p', Q' a p' -> Q a p') ->
    (forall k, E' k -> E k) ->
    wp m Q E p.
Proof.
  intros A m Q Q' E E' p H HQ HE. unfold wp in *. destruct (m p); auto.
Qed.

Lemma wp_post :
  forall (A : Type) (m : M A) (Q Q' : A -> yaml_parser_t -> Prop) (E : go_panic -> Prop) p,
    wp m Q' E p ->
    (forall a p', Q' a p' -> Q a p') ->
    wp m Q E p.
Proof. intros. eapply wp_consequence; eauto. Qed.

Lemma wp_value :
  forall (A : Type) (m : M A) (Q : A -> yaml_parser_t -> Prop) E p a p',
    wp m Q E p -> m p = Value a p' -> Q a p'.
Proof. intros A m Q E p a p' H Hm. unfold wp in H. rewrite Hm in H. exact H. Qed.

Lemma wp_panics :
  forall (A : Type) (m : M A) (Q : A -> yaml_parser_t -> Prop) E p k,
    wp m Q E p -> m p = Panic k -> E k.
Proof. intros A m Q E p k H Hm. unfold wp in H. rewrite Hm in H. exact H. Qed.

Lemma wp_bind :
  forall (A B : Type) (m : M A) (k : A -> M B) Q E p,
    wp m (fun a p' => wp (k a) Q E p') E p -> wp (bind m k) Q E p.
Proof. intros A B m k Q E p H. unfold wp, bind in *. destruct (m p); auto. Qed.

Lemma wp_ret :
  forall (A : Type) (a : A) (Q : A -> yaml_parser_t -> Prop) E p, Q a p -> wp (ret a) Q E p.
Proof. intros; assumption. Qed.

Lemma wp_modify :
  forall f (Q : unit -> yaml_parser_t -> Prop) E p, Q tt (f p) -> wp (modify f) Q E p.
Proof. intros; assumption. Qed.

Lemma wp_get :
  forall (Q : yaml_parser_t -> yaml_parser_t -> Prop) E p, Q p p -> wp get Q E p.
Proof. intros; assumption. Qed.

Lemma wp_panic :
  forall (A : Type) k (Q : A -> yaml_parser_t -> Prop) (E : go_panic -> Prop) p,
    E k -> wp (panic k) Q E p.
Proof. intros; assumption. Qed.

Lemma wp_out_of_fuel :
  forall (A : Type) (Q : A -> yaml_parser_t -> Prop) E p, wp out_of_fuel Q E p.
Proof. intros; exact I. Qed.

Lemma wp_peek_token :
  forall (Q : option yaml_token_t -> yaml_parser_t -> Prop) (E : go_panic -> Prop) p,
    (forall o p1, peeked fetch p o p1 -> Q o p1) ->
    E index_out_of_range ->
    wp (peek_token fetch) Q E p.
Proof.
  intros Q E p HQ HE. unfold wp.
  destruct (peek_token fetch p) as [o p1|k|] eqn:Hp; auto.
  - apply HQ. apply peek_token_peeked. exact Hp.
  - unfold peek_token in Hp.
    destruct (if token_available p then (true, p) else fetch p) as [[] q];
      [destruct (nth_error (tokens q) (tokens_head q))|]; inversion Hp; subst; exact HE.
Qed.

Lemma wp_skip_token :
  forall (Q : unit -> yaml_parser_t -> Prop) (E : go_panic -> Prop) p,
    (forall t, nth_error (tokens p) (tokens_head p) = Some t ->
               Q tt (set_queue (S (tokens_head p)) (int_wrap (tokens_parsed p + 1)) false
                       (token_is t YAML_STREAM_END_TOKEN) p)) ->
    E index_out_of_range ->
    wp skip_token Q E p.
Proof.
  intros Q E p HQ HE. unfold wp, skip_token.
  destruct (nth_error (tokens p) (tokens_head p)); auto.
Qed.

Lemma wp_pop_state :
  forall (Q : unit -> yaml_parser_t -> Prop) (E : go_panic -> Prop) p,
    (forall s, top (states p) = Some s ->
               Q tt (set_states (removelast (states p)) (set_state s p))) ->
    E index_out_of_range ->
    wp pop_state Q E p.
Proof.
  intros Q E p HQ HE. unfold wp, pop_state. destruct (top (states p)); auto.
Qed.

Lemma wp_pop_mark :
  forall (Q : unit -> yaml_parser_t -> Prop) (E : go_panic -> Prop) p,
    (marks p <> [] -> Q tt (set_marks (removelast (marks p)) p)) ->
    E index_out_of_range ->
    wp pop_mark Q E p.
Proof.
  intros Q E p HQ HE. unfold wp, pop_mark. destruct (marks p); auto.
  apply HQ. discriminate.
Qed.

Lemma wp_top_mark :
  forall (Q : yaml_mark_t -> yaml_parser_t -> Prop) (E : go_panic -> Prop) p,
    (forall m, top (marks p) = Some m -> Q m p) ->
    E index_out_of_range ->
    wp top_mark Q E p.
Proof.
  intros Q E p HQ HE. unfold wp, top_mark. destruct (top (marks p)); auto.
Qed.

End Logic.

(** One step of symbolic execution of a handler; [node] deals with the calls
    of functions that have a specification of their own and [oops] with the
    panics. *)
Ltac wp_step node oops :=
  cbv beta iota zeta;
  lazymatch goal with
  | |- wp (bind _ _) _ _ _ => apply wp_bind
  | |- wp (ret _) _ _ _ => apply wp_ret
  | |- wp (modify _) _ _ _ => apply wp_modify
  | |- wp get _ _ _ => apply wp_get
  | |- wp (panic _) _ _ _ => apply wp_panic; oops
  | |- wp out_of_fuel _ _ _ => apply wp_out_of_fuel
  | |- wp (peek_token _) _ _ _ => apply wp_peek_token; [intros ? ? ? | oops]
  | |- wp skip_token _ _ _ => apply wp_skip_token; [intros ? ? | oops]
  | |- wp pop_state _ _ _ => apply wp_pop_state; [intros ? ? | oops]
  | |- wp pop_mark _ _ _ => apply wp_pop_mark; [intros ? | oops]
  | |- wp top_mark _ _ _ => apply wp_top_mark; [intros ? ? | oops]
  | |- wp (push_state _) _ _ _ => unfold push_state
  | |- wp (push_mark _) _ _ _ => unfold push_mark
  | |- wp (peek_or_fail _ _ _) _ _ _ => unfold peek_or_fail
  | |- wp (peek_unchecked _) _ _ _ => unfold peek_unchecked
  | |- wp (open_collection _ _) _ _ _ => unfold open_collection
  | |- wp (store_tag_handle _ _) _ _ _ => unfold store_tag_handle
  | |- wp (resolve_tag _ _ _ _ _ _) _ _ _ => unfold resolve_tag
  | |- wp (yaml_parser_set_parser_error _ _) _ _ _ => unfold yaml_parser_set_parser_error
  | |- wp (yaml_parser_set_parser_error_context _ _ _ _) _ _ _ =>
      unfold yaml_parser_set_parser_error_context
  | |- wp (yaml_parser_process_empty_scalar _) _ _ _ =>
      unfold yaml_parser_process_empty_scalar
  | |- wp (if ?b then _ else _) _ _ _ => destruct b eqn:?
  | |- wp (match ?x with _ => _ end) _ _ _ => destruct x eqn:?
  | |- wp (let '(_, _) := ?x in _) _ _ _ => destruct x eqn:?
  | |- wp _ _ _ _ => node
  end.

Ltac wp_run node oops := repeat (wp_step node oops).

(** ** The two loops, up to a relation the queue operations preserve *)

Section Frame.

Variable fetch : yaml_parser_t -> bool * yaml_parser_t.
Variable R : yaml_parser_t -> yaml_parser_t -> Prop.

Hypothesis R_refl : forall p, R p p.
Hypothesis R_trans : forall p q r, R p q -> R q r -> R p r.
Hypothesis R_peek : forall p o p1, peeked fetch p o p1 -> R p p1.
Hypothesis R_queue : forall h n a se p, R p (set_queue h n a se p).
Hypothesis R_error : forall e c cm pb pm p, R p (set_error_fields e c cm pb pm p).
Hypothesis R_directives : forall ds p, R p (set_tag_directives ds p).

Ltac frame_leaf :=
  cbv beta;
  repeat first
    [ assumption
    | apply R_refl
    | eapply R_trans; [ | apply R_queue ]
    | eapply R_trans; [ | apply R_error ]
    | eapply R_trans; [ | apply R_directives ]
    | match goal with
      | H : peeked _ ?p _ ?p1 |- R _ ?p1 =>
          tryif constr_eq p p1 then fail
          else (eapply R_trans; [ | apply (R_peek _ _ _ H) ])
      end ].

Lemma wp_append_tag_directive :
  forall value allow_duplicates mark (E : go_panic -> Prop) p0 p,
    R p0 p ->
    wp (yaml_parser_append_tag_directive value allow_duplicates mark)
       (fun _ p' => R p0 p') E p.
Proof.
  intros. unfold yaml_parser_append_tag_directive.
  wp_run fail fail; frame_leaf.
Qed.

Lemma wp_append_default_directives :
  forall ds mark (E : go_panic -> Prop) p0 p,
    R p0 p ->
    wp (append_default_directives ds mark) (fun _ p' => R p0 p') E p.
Proof.
  induction ds as [|d ds IH]; intros mark E p0 p Hp; cbn [append_default_directives].
  - apply wp_ret. exact Hp.
  - apply wp_bind.
    eapply wp_post; [apply wp_append_tag_directive; exact Hp|].
    intros [] p' Hp'; cbv beta; [apply IH; exact Hp' | apply wp_ret; exact Hp'].
Qed.

Lemma wp_process_directives_loop :
  forall fuel token version_directive tag_directives (E : go_panic -> Prop) p0 p,
    E index_out_of_range ->
    R p0 p ->
    wp (process_directives_loop fetch fuel token version_directive tag_directives)
       (fun _ p' => R p0 p') E p.
Proof.
  induction fuel as [|fuel IH]; intros token vd tds E p0 p HE Hp;
    cbn [process_directives_loop].
  - destruct (_ || _); [apply wp_out_of_fuel | apply wp_ret; exact Hp].
  - wp_run
      ltac:(first
        [ apply IH; [exact HE | frame_leaf]
        | eapply wp_post;
          [apply wp_append_tag_directive; eassumption | intros ? ? ?] ])
      ltac:(exact HE);
      frame_leaf.
Qed.

Lemma wp_process_directives :
  forall fuel version_directive_ref tag_directives_ref (E : go_panic -> Prop) p,
    E index_out_of_range ->
    wp (yaml_parser_process_directives fetch fuel version_directive_ref tag_directives_ref)
       (fun _ p' => R p p') E p.
Proof.
  intros fuel vr tr E p HE. unfold yaml_parser_process_directives.
  wp_run
    ltac:(first
      [ eapply wp_post;
        [apply wp_process_directives_loop; [exact HE | eapply R_peek; eassumption]
        | intros ? ? ?]
      | eapply wp_post;
        [apply wp_append_default_directives; eassumption | intros ? ? ?] ])
    ltac:(exact HE);
    frame_leaf.
Qed.

Lemma wp_skip_document_end_tokens :
  forall fuel event (k : yaml_token_t -> M handled) Q (E : go_panic -> Prop) p0,
    E index_out_of_range ->
    (forall p', R p0 p' -> Q (false, event) p') ->
    (forall t p', R p0 p' -> nth_error (tokens p') (tokens_head p') = Some t ->
                  wp (k t) Q E p') ->
    forall token p,
      R p0 p ->
      nth_error (tokens p) (tokens_head p) = Some token ->
      wp (skip_document_end_tokens fetch fuel event token k) Q E p.
Proof.
  intros fuel event k Q E p0 HE Hfail Hk.
  induction fuel as [|fuel IH]; intros token p Hp Hhead;
    cbn [skip_document_end_tokens].
  - destruct (token_is token YAML_DOCUMENT_END_TOKEN); [apply wp_out_of_fuel | auto].
  - destruct (token_is token YAML_DOCUMENT_END_TOKEN); [|auto].
    apply wp_bind. apply wp_skip_token; [intros t Ht | exact HE].
    unfold peek_or_fail. apply wp_bind. apply wp_peek_token; [intros o p1 Hpk | exact HE].
    assert (Hp1 : R p0 p1) by frame_leaf.
    destruct o as [t'|].
    + apply IH; [exact Hp1 | eapply peeked_head; eassumption].
    + apply wp_ret. auto.
Qed.

End Frame.

(** ** What a call can produce *)

Lemma scalar_implicit_flags_sound :
  forall style tag plain_implicit quoted_implicit sm em anchor value,
    scalar_implicit_flags style tag = (plain_implicit, quoted_implicit) ->
    scalar_flags_ok
      (node_event YAML_SCALAR_EVENT sm em anchor tag value plain_implicit quoted_implicit
         (yaml_style_of_scalar style)).
Proof.
  intros style tag pi qi sm em anchor value H _. cbn.
  unfold scalar_implicit_flags in H.
  destruct (yaml_scalar_style_t_beq style YAML_PLAIN_SCALAR_STYLE) eqn:Hstyle.
  - apply internal_yaml_scalar_style_t_dec_bl in Hstyle. subst style.
    destruct tag as [|b [|b' tag]]; cbn in H.
    + inversion H; subst. repeat split; auto; try discriminate. intros [_ Hq]; discriminate.
    + destruct (Byte.eqb b "!") eqn:Hb; inversion H; subst;
        repeat split; try discriminate; try (intros [Hi Hq]; discriminate).
      intros _. right. apply byte_dec_bl in Hb. subst b. reflexivity.
    + inversion H; subst. repeat split; try discriminate. intros [Hi _]; discriminate.
  - assert (Hne : yaml_style_of_scalar style <> yaml_style_of_scalar YAML_PLAIN_SCALAR_STYLE)
      by (destruct style; cbn; try discriminate; cbn in Hstyle; discriminate).
    destruct tag as [|b [|b' tag]]; cbn in H.
    + inversion H; subst. repeat split; auto; try discriminate. intros [Hi _]; discriminate.
    + destruct (Byte.eqb b "!") eqn:Hb; inversion H; subst;
        repeat split; try discriminate; try (intros [Hi Hq]; discriminate).
      intros _. right. apply byte_dec_bl in Hb. subst b. reflexivity.
    + inversion H; subst. repeat split; try discriminate. intros [Hi _]; discriminate.
Qed.

Lemma property_scalar_flags_ok :
  forall sm em anchor tag,
    scalar_flags_ok
      (node_event YAML_SCALAR_EVENT sm em anchor tag [] (len_is_zero tag) false
         (yaml_style_of_scalar YAML_PLAIN_SCALAR_STYLE)).
Proof.
  intros sm em anchor tag _. cbn. repeat split; try discriminate.
  - intros H. left. destruct tag; [auto | discriminate].
  - intros [_ H]; discriminate.
Qed.

Lemma empty_scalar_flags_ok :
  forall sm em,
    scalar_flags_ok
      (node_event YAML_SCALAR_EVENT sm em [] [] [] true false
         (yaml_style_of_scalar YAML_PLAIN_SCALAR_STYLE)).
Proof. intros sm em. apply (property_scalar_flags_ok sm em [] []). Qed.

Lemma quiet_zero : quiet yaml_event_zero.
Proof. split; [intros H; discriminate H | discriminate]. Qed.

Ltac flags_leaf :=
  first
    [ assumption
    | apply empty_scalar_flags_ok
    | apply property_scalar_flags_ok
    | eapply scalar_implicit_flags_sound; eassumption
    | let H := fresh in intros H; discriminate H ].

Ltac quiet_leaf :=
  cbv beta; cbn [fst snd];
  first
    [ assumption
    | split; [flags_leaf | first [assumption | cbn; discriminate]] ].

Section Events.

Variable fetch : yaml_parser_t -> bool * yaml_parser_t.

Lemma parse_node_content_quiet :
  forall event block indentless_sequence token start_mark end_mark anchor tag p,
    quiet event ->
    wp (parse_node_content event block indentless_sequence token start_mark end_mark
          anchor tag)
       (fun r _ => quiet (snd r)) (fun k => k <> nil_token_dereference) p.
Proof.
  intros event block ind token sm em anchor tag p [Hflags Hty].
  unfold parse_node_content.
  wp_run fail ltac:(cbv beta; discriminate); quiet_leaf.
Qed.

Lemma parse_node_quiet :
  forall event block indentless_sequence p,
    quiet event ->
    wp (yaml_parser_parse_node fetch event block indentless_sequence)
       (fun r _ => quiet (snd r)) (fun k => k <> nil_token_dereference) p.
Proof.
  intros event block ind p Hq. pose proof Hq as [Hflags Hty].
  unfold yaml_parser_parse_node.
  wp_run ltac:(apply parse_node_content_quiet; exact Hq) ltac:(cbv beta; discriminate);
    quiet_leaf.
Qed.

(** The leaves of the handlers: the event is a literal and the parser a
    stack of field updates. *)
Ltac stream_end_leaf :=
  let H := fresh in
  intros H;
  first
    [ discriminate H
    | contradiction
    | split; [reflexivity|];
      repeat match goal with
             | Hp : peeked _ _ (Some _) _ |- _ => apply peeked_head in Hp
             end;
      cbn in *;
      repeat match goal with
             | H1 : nth_error ?l ?n = Some ?a, H2 : nth_error ?l ?n = Some ?b |- _ =>
                 rewrite H1 in H2; inversion H2; subst; clear H2
             end;
      match goal with
      | |- token_is ?t YAML_STREAM_END_TOKEN = true =>
          destruct (token_is t YAML_STREAM_END_TOKEN); [reflexivity | discriminate]
      end ].

Ltac after_leaf :=
  cbv beta; unfold after_call; cbn [fst snd];
  split; [flags_leaf | stream_end_leaf].

Ltac events_node :=
  eapply wp_consequence;
  [ apply parse_node_quiet; apply quiet_zero
  | let Hf := fresh in let Hn := fresh in intros ? ? [Hf Hn]; after_leaf
  | let Hk := fresh in intros ? Hk; first [exact Hk | intros _; exact Hk] ].

Ltac events_oops :=
  cbv beta;
  first
    [ discriminate
    | intros _; discriminate
    | let Hb := fresh in
      intros Hb; specialize (Hb eq_refl);
      match goal with
      | H : peeked _ _ None _ |- _ => inversion H; congruence
      end ].

Ltac events_handler := wp_run events_node events_oops; after_leaf.

Lemma flags_ok_zero : scalar_flags_ok yaml_event_zero.
Proof. intros H; discriminate H. Qed.

Lemma stream_start_after_call :
  forall p,
    wp (yaml_parser_parse_stream_start fetch yaml_event_zero) after_call
       (fun k => k <> nil_token_dereference) p.
Proof.
  intros p. pose proof flags_ok_zero.
  unfold yaml_parser_parse_stream_start. events_handler.
Qed.

Lemma document_end_after_call :
  forall p,
    wp (yaml_parser_parse_document_end fetch yaml_event_zero) after_call
       (fun k => k <> nil_token_dereference) p.
Proof.
  intros p. pose proof flags_ok_zero.
  unfold yaml_parser_parse_document_end. events_handler.
Qed.

Lemma document_content_after_call :
  forall p,
    wp (yaml_parser_parse_document_content fetch yaml_event_zero) after_call
       (fun k => k <> nil_token_dereference) p.
Proof.
  intros p. pose proof flags_ok_zero.
  unfold yaml_parser_parse_document_content. events_handler.
Qed.

Lemma node_after_call :
  forall block indentless_sequence p,
    wp (yaml_parser_parse_node fetch yaml_event_zero block indentless_sequence) after_call
       (fun k => k <> nil_token_dereference) p.
Proof. intros block ind p. events_node. Qed.

Lemma block_sequence_entry_after_call :
  forall first p,
    wp (yaml_parser_parse_block_sequence_entry fetch yaml_event_zero first) after_call
       (fun k => (first = true -> token_available p = true) -> k <> nil_token_dereference) p.
Proof.
  intros first p. pose proof flags_ok_zero.
  unfold yaml_parser_parse_block_sequence_entry. events_handler.
Qed.

Lemma indentless_sequence_entry_after_call :
  forall p,
    wp (yaml_parser_parse_indentless_sequence_entry fetch yaml_event_zero) after_call
       (fun k => k <> nil_token_dereference) p.
Proof.
  intros p. pose proof flags_ok_zero.
  unfold yaml_parser_parse_indentless_sequence_entry. events_handler.
Qed.

Lemma block_mapping_key_after_call :
  forall first p,
    wp (yaml_parser_parse_block_mapping_key fetch yaml_event_zero first) after_call
       (fun k => (first = true -> token_available p = true) -> k <> nil_token_dereference) p.
Proof.
  intros first p. pose proof flags_ok_zero.
  unfold yaml_parser_parse_block_mapping_key. events_handler.
Qed.

Lemma block_mapping_value_after_call :
  forall p,
    wp (yaml_parser_parse_block_mapping_value fetch yaml_event_zero) after_call
       (fun k => k <> nil_token_dereference) p.
Proof.
  intros p. pose proof flags_ok_zero.
  unfold yaml_parser_parse_block_mapping_value. events_handler.
Qed.

Lemma flow_sequence_entry_after_call :
  forall first p,
    wp (yaml_parser_parse_flow_sequence_entry fetch yaml_event_zero first) after_call
       (fun k => (first = true -> token_available p = true) -> k <> nil_token_dereference) p.
Proof.
  intros first p. pose proof flags_ok_zero.
  unfold yaml_parser_parse_flow_sequence_entry. events_handler.
Qed.

Lemma flow_sequence_entry_mapping_key_after_call :
  forall p,
    wp (yaml_parser_parse_flow_sequence_entry_mapping_key fetch yaml_event_zero) after_call
       (fun k => k <> nil_token_dereference) p.
Proof.
  intros p. pose proof flags_ok_zero.
  unfold yaml_parser_parse_flow_sequence_entry_mapping_key. events_handler.
Qed.

Lemma flow_sequence_entry_mapping_value_after_call :
  forall p,
    wp (yaml_parser_parse_flow_sequence_entry_mapping_value fetch yaml_event_zero)
       after_call (fun k => k <> nil_token_dereference) p.
Proof.
  intros p. pose proof flags_ok_zero.
  unfold yaml_parser_parse_flow_sequence_entry_mapping_value. events_handler.
Qed.

Lemma flow_sequence_entry_mapping_end_after_call :
  forall p,
    wp (yaml_parser_parse_flow_sequence_entry_mapping_end fetch yaml_event_zero)
       after_call (fun k => k <> nil_token_dereference) p.
Proof.
  intros p. pose proof flags_ok_zero.
  unfold yaml_parser_parse_flow_sequence_entry_mapping_end. events_handler.
Qed.

Lemma flow_mapping_key_after_call :
  forall first p,
    wp (yaml_parser_parse_flow_mapping_key fetch yaml_event_zero first) after_call
       (fun k => (first = true -> token_available p = true) -> k <> nil_token_dereference) p.
Proof.
  intros first p. pose proof flags_ok_zero.
  unfold yaml_parser_parse_flow_mapping_key. events_handler.
Qed.

Lemma flow_mapping_value_after_call :
  forall empty p,
    wp (yaml_parser_parse_flow_mapping_value fetch yaml_event_zero empty) after_call
       (fun k => k <> nil_token_dereference) p.
Proof.
  intros empty p. pose proof flags_ok_zero.
  unfold yaml_parser_parse_flow_mapping_value. events_handler.
Qed.

Lemma document_start_after_call :
  forall fuel implicit p,
    wp (yaml_parser_parse_document_start fetch fuel yaml_event_zero implicit) after_call
       (fun k => k <> nil_token_dereference) p.
Proof.
  intros fuel implicit p. pose proof flags_ok_zero.
  unfold yaml_parser_parse_document_start.
  destruct implicit; cbn [negb andb];
    wp_run
      ltac:(first
        [ eapply wp_post;
          [ apply (wp_process_directives fetch (fun _ _ => True));
            first [cbv beta; discriminate | intros; exact I]
          | intros ? ? _ ]
        | match goal with
          | |- wp _ _ _ ?q =>
              eapply (wp_skip_document_end_tokens fetch (fun _ _ => True)) with (p0 := q)
          end;
          first [ intros; exact I | cbv beta; discriminate
                | eapply peeked_head; eassumption
                | intros ? _; after_leaf | intros ? ? _ ? ] ])
      events_oops;
    after_leaf.
Qed.

Lemma state_machine_after_call :
  forall fuel p,
    wp (yaml_parser_state_machine fetch fuel yaml_event_zero) after_call
       (fun k => (is_first_state (state p) = true -> token_available p = true) ->
                 k <> nil_token_dereference) p.
Proof.
  intros fuel p. unfold yaml_parser_state_machine. apply wp_bind, wp_get. cbv beta.
  destruct (state p) eqn:Hst; cbn [is_first_state];
    try (apply wp_panic; intros _; discriminate);
    (eapply wp_consequence;
     [ first
         [ apply stream_start_after_call
         | apply document_start_after_call
         | apply document_content_after_call
         | apply document_end_after_call
         | apply node_after_call
         | apply block_sequence_entry_after_call
         | apply indentless_sequence_entry_after_call
         | apply block_mapping_key_after_call
         | apply block_mapping_value_after_call
         | apply flow_sequence_entry_after_call
         | apply flow_sequence_entry_mapping_key_after_call
         | apply flow_sequence_entry_mapping_value_after_call
         | apply flow_sequence_entry_mapping_end_after_call
         | apply flow_mapping_key_after_call
         | apply flow_mapping_value_after_call ]
     | intros ? ? Hq; exact Hq
     | cbv beta; intros k Hk; first [exact Hk | intros _; apply Hk; discriminate
                                    | intros _; exact Hk] ]).
Qed.

Lemma parse_after_call :
  forall fuel p,
    wp (yaml_parser_parse fetch fuel) after_call
       (fun k => (is_first_state (state p) = true -> token_available p = true) ->
                 k <> nil_token_dereference) p.
Proof.
  intros fuel p. pose proof flags_ok_zero. unfold yaml_parser_parse.
  apply wp_bind, wp_get. cbv beta.
  destruct (_ || _).
  - apply wp_ret. after_leaf.
  - apply state_machine_after_call.
Qed.

End Events.

(** C8: on every scalar event a call produces, [implicit] (the plain-implicit
    flag) is set only if the style is plain and the tag empty, or the tag is
    the single byte [!]; [quoted_implicit] is set only if the style is not
    plain and the tag is empty; and the two flags are never both set. *)
Theorem scalar_event_flags :
  forall fetch fuel p ok e p',
    yaml_parser_parse fetch fuel p = Value (ok, e) p' ->
    Event.event_type e = YAML_SCALAR_EVENT ->
    (Event.implicit e = true ->
       (Event.style e = yaml_style_of_scalar YAML_PLAIN_SCALAR_STYLE /\ Event.tag e = [])
       \/ Event.tag e = ["!"%byte])
    /\ (Event.quoted_implicit e = true ->
        Event.style e <> yaml_style_of_scalar YAML_PLAIN_SCALAR_STYLE /\ Event.tag e = [])
    /\ ~ (Event.implicit e = true /\ Event.quoted_implicit e = true).
Proof.
  intros fetch fuel p ok e p' Hcall Hty.
  pose proof (wp_value _ _ _ _ _ _ _ (parse_after_call fetch fuel p) Hcall) as [Hflags _].
  exact (Hflags Hty).
Qed.

Lemma scalar_event_flags_witness :
  exists e p',
    yaml_parser_parse queue_fetch_more_tokens 0 parser_at_scalar = Value (true, e) p'
    /\ Event.event_type e = YAML_SCALAR_EVENT
    /\ Event.value e = list_byte_of_string "foo"
    /\ ((Event.implicit e = true ->
          (Event.style e = yaml_style_of_scalar YAML_PLAIN_SCALAR_STYLE /\ Event.tag e = [])
          \/ Event.tag e = ["!"%byte])
        /\ (Event.quoted_implicit e = true ->
            Event.style e <> yaml_style_of_scalar YAML_PLAIN_SCALAR_STYLE
            /\ Event.tag e = [])
        /\ ~ (Event.implicit e = true /\ Event.quoted_implicit e = true)).
Proof.
  eexists. eexists. split; [lazy; reflexivity|]. split; [reflexivity|].
  split; [reflexivity|].
  eapply (scalar_event_flags queue_fetch_more_tokens 0 parser_at_scalar true);
    [lazy; reflexivity | reflexivity].
Defined.

(** ** After the end of the stream *)

(** A stream-end event comes with the terminal state and the latched flag. *)
Lemma stream_end_event_latches :
  forall fetch fuel p ok e p',
    yaml_parser_parse fetch fuel p = Value (ok, e) p' ->
    Event.event_type e = YAML_STREAM_END_EVENT ->
    state p' = YAML_PARSE_END_STATE /\ stream_end_produced p' = true.
Proof.
  intros fetch fuel p ok e p' Hcall Hty.
  pose proof (wp_value _ _ _ _ _ _ _ (parse_after_call fetch fuel p) Hcall) as [_ Hend].
  exact (Hend Hty).
Qed.

(** C5: once the stream-end token has been consumed ([stream_end_produced]
    is set), or once a call has returned the stream-end event, every further
    call returns true with the zero event and leaves the parser as it is: no
    token is consumed and no other event is produced. *)
Theorem no_events_after_stream_end :
  forall fetch fuel n p,
    (stream_end_produced p = true
     \/ exists p0 ok e,
          yaml_parser_parse fetch fuel p0 = Value (ok, e) p
          /\ Event.event_type e = YAML_STREAM_END_EVENT) ->
    parse_calls fetch fuel n p = Value (repeat (true, yaml_event_zero) n) p.
Proof.
  intros fetch fuel n p H. apply parse_calls_idle. apply parse_after_stream_end.
  destruct H as [H | [p0 [ok [e [Hcall Hty]]]]].
  - exact H.
  - destruct (stream_end_event_latches _ _ _ _ _ _ Hcall Hty) as [_ Hend]. exact Hend.
Qed.

Lemma no_events_after_stream_end_witness :
  stream_end_produced parser_after_stream_end = true
  /\ parse_calls queue_fetch_more_tokens 0 3 parser_after_stream_end
     = Value (repeat (true, yaml_event_zero) 3) parser_after_stream_end.
Proof.
  split.
  - reflexivity.
  - apply (no_events_after_stream_end queue_fetch_more_tokens 0 3 parser_after_stream_end).
    left. reflexivity.
Defined.

(** ** The stacks *)

Lemma top_app : forall (A : Type) (l : list A) (x : A), top (l ++ [x]) = Some x.
Proof.
  intros A l x. induction l as [|a l IH]; [reflexivity|].
  cbn. destruct (l ++ [x]) eqn:Hl; [destruct l; discriminate | exact IH].
Qed.

Lemma top_split :
  forall (A : Type) (l : list A) (x : A), top l = Some x -> l = removelast l ++ [x].
Proof.
  intros A l x. induction l as [|a l IH]; [discriminate|].
  destruct l as [|b l].
  - cbn. intros H; inversion H; reflexivity.
  - intros H. change (top (b :: l) = Some x) in H.
    change (a :: b :: l = a :: (removelast (b :: l) ++ [x])). f_equal. apply IH. exact H.
Qed.

Lemma weigh_app :
  forall f l x, weigh f (l ++ [x]) = weigh f l + f x.
Proof.
  intros f l x. induction l as [|a l IH]; cbn; lia.
Qed.

Lemma weigh_top :
  forall f l s, top l = Some s -> weigh f l = weigh f (removelast l) + f s.
Proof.
  intros f l s H. rewrite (top_split _ l s H) at 1. apply weigh_app.
Qed.

Lemma length_removelast :
  forall (A : Type) (l : list A), l <> [] -> List.length l = S (List.length (removelast l)).
Proof.
  intros A l H. induction l as [|a l IH]; [contradiction H; reflexivity|].
  destruct l as [|b l]; [reflexivity|].
  change (S (List.length (b :: l)) = S (S (List.length (removelast (b :: l))))).
  f_equal. apply IH. discriminate.
Qed.

Lemma no_first_state_top :
  forall l s, top l = Some s -> no_first_state l ->
              is_first_state s = false /\ no_first_state (removelast l).
Proof.
  intros l s H Hl. rewrite (top_split _ l s H) in Hl.
  apply Forall_app in Hl. destruct Hl as [Hl Hs]. split; [|exact Hl].
  inversion Hs; assumption.
Qed.

Lemma bottom_ok_pop : forall l, bottom_ok l -> bottom_ok (removelast l).
Proof.
  intros [|a [|b l]] H; cbn; auto.
Qed.

Lemma bottom_ok_push :
  forall l x, bottom_ok l -> (weigh framing l = 0 -> framing x = 1) -> bottom_ok (l ++ [x]).
Proof.
  intros [|a l] x H Hx; cbn; auto.
Qed.

Lemma bottom_ok_framed :
  forall l, bottom_ok l -> weigh framing l = 0 -> l = [].
Proof.
  intros [|a l] H Hw; [reflexivity|]. cbn in H, Hw. lia.
Qed.

Lemma no_first_state_push :
  forall l s, no_first_state l -> is_first_state s = false -> no_first_state (l ++ [s]).
Proof.
  intros l s Hl Hs. apply Forall_app. split; [exact Hl | constructor; [exact Hs | constructor]].
Qed.

Section Balance.

Variable fetch : yaml_parser_t -> bool * yaml_parser_t.
Hypothesis fetch_frame : scanner_frame fetch.

Lemma peeked_frame :
  forall p o p1,
    peeked fetch p o p1 ->
    state p1 = state p /\ states p1 = states p /\ marks p1 = marks p
    /\ match o with Some _ => token_available p1 = true | None => True end.
Proof.
  intros p o p1 H. inversion H; subst.
  - auto.
  - destruct (fetch_frame _ _ _ H1) as (? & ? & ? & ?). auto.
  - destruct (fetch_frame _ _ _ H1) as (? & ? & ? & ?). auto.
Qed.

Ltac use_frame :=
  repeat match goal with
         | H : peeked _ _ _ _ |- _ =>
             apply peeked_frame in H;
             let E1 := fresh "Est" in
             let E2 := fresh "Ess" in
             let E3 := fresh "Emk" in
             let E4 := fresh "Eav" in
             destruct H as (E1 & E2 & E3 & E4)
         end.

Ltac use_tops :=
  repeat match goal with
         | H : top (?l ++ [?x]) = Some ?s |- _ =>
             rewrite top_app in H; inversion H; subst; clear H
         | H : top ?l = Some ?s |- _ =>
             pose proof (weigh_top marked l s H);
             pose proof (weigh_top unmarked l s H);
             pose proof (weigh_top framing l s H);
             pose proof (no_first_state_top l s H);
             clear H
         | H : marks ?p <> [] |- _ =>
             apply length_removelast in H
         end.

Ltac rewrite_frame :=
  repeat match goal with
         | H : state ?a = _ |- _ => is_var a; try rewrite H in *; clear H
         | H : states ?a = _ |- _ => is_var a; try rewrite H in *; clear H
         | H : marks ?a = _ |- _ => is_var a; try rewrite H in *; clear H
         end.

Ltac bottom_goal :=
  first
    [ assumption
    | apply bottom_ok_pop; assumption
    | apply bottom_ok_push; [assumption | intros; first [reflexivity | lia]] ].

Ltac stack_goal :=
  intros;
  repeat match goal with
         | Hn : no_first_state ?l, H : no_first_state ?l -> _ |- _ => specialize (H Hn)
         | Hn : no_first_state ?l, H : no_first_state (?l ++ [?x]) -> _ |- _ =>
             specialize (H (no_first_state_push l x Hn eq_refl))
         | H : _ /\ _ |- _ => destruct H
         end;
  first
    [ reflexivity
    | assumption
    | lia
    | discriminate
    | congruence
    | solve [auto]
    | apply no_first_state_push; [assumption | reflexivity]
    | bottom_goal
    | match goal with
      | H : bottom_ok _ -> bottom_ok ?l |- bottom_ok ?l => apply H; bottom_goal
      end ].

Ltac stack_leaf :=
  cbv beta; unfold handler_step, node_step, stacks_kept in *; cbn [fst snd] in *;
  let Hok := fresh in
  intros Hok; try discriminate Hok;
  repeat match goal with
         | H : ?a = true -> _, H' : ?a = true |- _ => specialize (H H')
         end;
  repeat match goal with
         | H : _ /\ _ |- _ => destruct H
         end;
  use_frame;
  unfold control in *;
  cbn [state states marks token_available set_state set_states set_marks set_queue
       set_error_fields set_tag_directives] in *;
  rewrite_frame;
  rewrite ?removelast_last in *;
  use_tops;
  rewrite ?length_app, ?removelast_last, ?weigh_app in *;
  unfold opens, closes in *;
  cbn [weigh marked unmarked framing is_first_state Event.event_type node_event
       marked_event document_event stream_start_event yaml_event_zero List.length] in *;
  rewrite ?weigh_app in *;
  cbn [weigh marked unmarked framing] in *;
  repeat split; stack_goal.

Lemma parse_node_content_step :
  forall event block indentless_sequence token start_mark end_mark anchor tag p,
    token_available p = true ->
    wp (parse_node_content event block indentless_sequence token start_mark end_mark
          anchor tag)
       (node_step p) (fun _ => True) p.
Proof.
  intros event block ind token sm em anchor tag p Hav.
  unfold parse_node_content.
  wp_run fail ltac:(exact I); stack_leaf.
Qed.

Ltac token_is_available :=
  match goal with
  | H : peeked _ _ (Some _) ?q |- token_available ?q = true =>
      exact (proj2 (proj2 (proj2 (peeked_frame _ _ _ H))))
  end.

Lemma parse_node_step :
  forall event block indentless_sequence p,
    wp (yaml_parser_parse_node fetch event block indentless_sequence)
       (node_step p) (fun _ => True) p.
Proof.
  intros event block ind p. unfold yaml_parser_parse_node.
  wp_run
    ltac:(eapply wp_post;
          [ apply parse_node_content_step; token_is_available
          | intros ? ? ?; stack_leaf ])
    ltac:(exact I);
    stack_leaf.
Qed.

Lemma stacks_kept_refl : forall p, stacks_kept p p.
Proof. intros p. repeat split. Qed.

Lemma stacks_kept_trans :
  forall p q r, stacks_kept p q -> stacks_kept q r -> stacks_kept p r.
Proof.
  intros p q r (H1 & H2 & H3) (H4 & H5 & H6). repeat split; congruence.
Qed.

Lemma stacks_kept_peek : forall p o p1, peeked fetch p o p1 -> stacks_kept p p1.
Proof. intros p o p1 H. destruct (peeked_frame _ _ _ H) as (? & ? & ? & _). repeat split; auto. Qed.

Lemma stacks_kept_queue : forall h n a se p, stacks_kept p (set_queue h n a se p).
Proof. intros. repeat split. Qed.

Lemma stacks_kept_error :
  forall e c cm pb pm p, stacks_kept p (set_error_fields e c cm pb pm p).
Proof. intros. repeat split. Qed.

Lemma stacks_kept_directives : forall ds p, stacks_kept p (set_tag_directives ds p).
Proof. intros. repeat split. Qed.

Ltac stack_hook :=
  first
    [ eapply wp_post; [apply parse_node_step | intros ? ? ?; stack_leaf]
    | eapply wp_post;
      [ apply (wp_process_directives fetch stacks_kept stacks_kept_refl stacks_kept_trans
                 stacks_kept_peek stacks_kept_queue stacks_kept_error
                 stacks_kept_directives);
        exact I
      | intros ? ? ? ]
    | match goal with
      | |- wp _ _ _ ?q =>
          eapply (wp_skip_document_end_tokens fetch stacks_kept stacks_kept_trans
                    stacks_kept_peek stacks_kept_queue) with (p0 := q)
      end;
      first [ exact I | apply stacks_kept_refl | eapply peeked_head; eassumption
            | intros ? ?; stack_leaf | intros ? ? ? ? ] ].

Ltac stack_handler := wp_run stack_hook ltac:(exact I); stack_leaf.

Lemma state_machine_step :
  forall fuel p,
    wp (yaml_parser_state_machine fetch fuel yaml_event_zero) (handler_step p)
       (fun _ => True) p.
Proof.
  intros fuel p. unfold yaml_parser_state_machine. apply wp_bind, wp_get. cbv beta.
  destruct (state p) eqn:Hst.
  - unfold yaml_parser_parse_stream_start. stack_handler.
  - unfold yaml_parser_parse_document_start. cbn [negb andb]. stack_handler.
  - unfold yaml_parser_parse_document_start. cbn [negb andb]. stack_handler.
  - unfold yaml_parser_parse_document_content. stack_handler.
  - unfold yaml_parser_parse_document_end. stack_handler.
  - stack_handler.
  - stack_handler.
  - stack_handler.
  - unfold yaml_parser_parse_block_sequence_entry. stack_handler.
  - unfold yaml_parser_parse_block_sequence_entry. stack_handler.
  - unfold yaml_parser_parse_indentless_sequence_entry. stack_handler.
  - unfold yaml_parser_parse_block_mapping_key. stack_handler.
  - unfold yaml_parser_parse_block_mapping_key. stack_handler.
  - unfold yaml_parser_parse_block_mapping_value. stack_handler.
  - unfold yaml_parser_parse_flow_sequence_entry. stack_handler.
  - unfold yaml_parser_parse_flow_sequence_entry. stack_handler.
  - unfold yaml_parser_parse_flow_sequence_entry_mapping_key. stack_handler.
  - unfold yaml_parser_parse_flow_sequence_entry_mapping_value. stack_handler.
  - unfold yaml_parser_parse_flow_sequence_entry_mapping_end. stack_handler.
  - unfold yaml_parser_parse_flow_mapping_key. stack_handler.
  - unfold yaml_parser_parse_flow_mapping_key. stack_handler.
  - unfold yaml_parser_parse_flow_mapping_value. stack_handler.
  - unfold yaml_parser_parse_flow_mapping_value. stack_handler.
  - apply wp_panic. exact I.
Qed.

Lemma parse_step :
  forall fuel p,
    wp (yaml_parser_parse fetch fuel) (handler_step p) (fun _ => True) p.
Proof.
  intros fuel p. unfold yaml_parser_parse. apply wp_bind, wp_get. cbv beta.
  destruct (_ || _).
  - apply wp_ret. stack_leaf.
  - apply state_machine_step.
Qed.

Lemma balanced_call :
  forall fuel p e p' n m,
    balanced p n m ->
    yaml_parser_parse fetch fuel p = Value (true, e) p' ->
    balanced p' (n + opens e) (m + closes e).
Proof.
  intros fuel p e p' n m (Hm & Ho & Hn & Hf & Hk & Hb) Hcall.
  pose proof (wp_value _ _ _ _ _ _ _ (parse_step fuel p) Hcall eq_refl)
    as (H1 & H2 & H3 & H4 & H5 & H6).
  cbn [snd] in *. unfold balanced. repeat split; auto; lia.
Qed.

Lemma reached_balanced :
  forall p es, reached fetch p es -> balanced p (started es) (ended es).
Proof.
  intros p es H. induction H as [ts | fuel p es e p' _ IH Hcall].
  - unfold balanced. cbn. repeat split; auto. constructor.
  - replace (started (es ++ [e])) with (started es + opens e)
      by (unfold started; rewrite map_app, list_sum_app; cbn; lia).
    replace (ended (es ++ [e])) with (ended es + closes e)
      by (unfold ended; rewrite map_app, list_sum_app; cbn; lia).
    eapply balanced_call; eassumption.
Qed.

End Balance.

Lemma framing_state_unweighed :
  forall s, framing s = 1 -> marked s = 0 /\ unmarked s = 0.
Proof. intros s H. destruct s; cbn in *; auto; discriminate. Qed.

Lemma parse_calls_reached :
  forall fetch fuel n p es rs p',
    reached fetch p es ->
    parse_calls fetch fuel n p = Value rs p' ->
    forallb fst rs = true ->
    reached fetch p' (es ++ map snd rs).
Proof.
  intros fetch fuel n. induction n as [|n IH]; intros p es rs p' Hr Hcalls Hok.
  - cbn in Hcalls. inversion Hcalls; subst. cbn. rewrite app_nil_r. exact Hr.
  - cbn in Hcalls. unfold bind at 1 in Hcalls.
    destruct (yaml_parser_parse fetch fuel p) as [[ok e] q| |] eqn:Hcall; try discriminate.
    unfold bind at 1 in Hcalls.
    destruct (parse_calls fetch fuel n q) as [rs' q'| |] eqn:Hrest; try discriminate.
    inversion Hcalls; subst. cbn in Hok. apply andb_true_iff in Hok. destruct Hok as [Ho Hok].
    subst ok. cbn [map snd].
    replace (es ++ e :: map snd rs') with ((es ++ [e]) ++ map snd rs')
      by (rewrite <- app_assoc; reflexivity).
    eapply IH; [ | eassumption | assumption].
    eapply reached_call; eassumption.
Qed.

Lemma queue_scanner_frame : scanner_frame queue_fetch_more_tokens.
Proof.
  intros p ok p1. unfold queue_fetch_more_tokens.
  destruct (tokens_head p <? List.length (tokens p)); intros H; inversion H; subst; cbn;
    repeat split; auto; discriminate.
Qed.

Lemma indentless_run_succeeds :
  exists rs p,
    parse_calls queue_fetch_more_tokens 0 6 (yaml_parser_new indentless_sequence_tokens)
    = Value rs p
    /\ indentless_run = Value rs p
    /\ forallb fst rs = true.
Proof.
  vm_compute. do 2 eexists. repeat split; reflexivity.
Qed.

Lemma indentless_run_reached :
  reached queue_fetch_more_tokens (run_parser indentless_run) (run_events indentless_run).
Proof.
  destruct indentless_run_succeeds as (rs & p & Hcalls & Hrun & Hok).
  rewrite Hrun. cbn [run_parser run_events].
  apply (parse_calls_reached queue_fetch_more_tokens 0 6
           (yaml_parser_new indentless_sequence_tokens) [] rs p).
  - apply reached_new.
  - exact Hcalls.
  - exact Hok.
Qed.

(** C9, counterexample: inside the indentless sequence of [a:], [- 1] two
    collections are open, the mapping and the sequence, and the mark stack
    holds one mark. *)
Lemma mark_depth_is_not_open_collections :
  reached queue_fetch_more_tokens (run_parser indentless_run) (run_events indentless_run)
  /\ map Event.event_type (run_events indentless_run)
     = [ YAML_STREAM_START_EVENT; YAML_DOCUMENT_START_EVENT; YAML_MAPPING_START_EVENT;
         YAML_SCALAR_EVENT; YAML_SEQUENCE_START_EVENT; YAML_SCALAR_EVENT ]
  /\ open_collections (run_events indentless_run) = 2
  /\ List.length (marks (run_parser indentless_run)) = 1
  /\ List.length (marks (run_parser indentless_run))
     <> open_collections (run_events indentless_run).
Proof.
  split; [exact indentless_run_reached|].
  vm_compute. repeat split. discriminate.
Qed.

(** C9, as amended: in every parser reached from a new one by calls that
    return true, the depth of the mark stack is the number of states, among
    the current state and the state stack, of a block or flow collection whose
    FIRST handler has run.  It is the number of open collections less the ones
    that have no mark: a collection whose start event is out but whose FIRST
    handler has not run yet, an indentless sequence, a single-pair mapping of
    a flow sequence.  End events never outnumber start events, and in a
    framing state (between documents and around the stream) both stacks are
    empty and no collection is open. *)
Theorem mark_stack_depth :
  forall fetch p es,
    scanner_frame fetch ->
    reached fetch p es ->
    List.length (marks p) = weigh marked (control p)
    /\ ended es <= started es
    /\ open_collections es = List.length (marks p) + weigh unmarked (control p)
    /\ (framing (state p) = 1 ->
        states p = [] /\ marks p = [] /\ open_collections es = 0).
Proof.
  intros fetch p es Hframe Hreached.
  destruct (reached_balanced fetch Hframe p es Hreached) as (Hm & Ho & _ & _ & Hk & Hb).
  unfold open_collections, control in *. cbn [weigh] in *.
  split; [exact Hm|]. split; [lia|]. split; [lia|].
  intros Hs. destruct (framing_state_unweighed _ Hs) as [H1 H2].
  assert (Hnil : states p = []) by (apply bottom_ok_framed; [exact Hb | lia]).
  rewrite Hnil in *. cbn [weigh] in *.
  split; [reflexivity|]. split; [|lia].
  destruct (marks p); [reflexivity | cbn in Hm; lia].
Qed.

Lemma mark_stack_depth_witness :
  scanner_frame queue_fetch_more_tokens
  /\ reached queue_fetch_more_tokens (run_parser indentless_run) (run_events indentless_run)
  /\ List.length (marks (run_parser indentless_run))
     = weigh marked (control (run_parser indentless_run))
  /\ open_collections (run_events indentless_run)
     = List.length (marks (run_parser indentless_run))
       + weigh unmarked (control (run_parser indentless_run)).
Proof.
  split; [exact queue_scanner_frame|]. split; [exact indentless_run_reached|].
  destruct (mark_stack_depth queue_fetch_more_tokens (run_parser indentless_run)
              (run_events indentless_run) queue_scanner_frame indentless_run_reached)
    as (H1 & _ & H2 & _).
  split; [exact H1 | exact H2].
Defined.

(** ** Null tokens *)

(** Outside the four FIRST states a handler starts with a checked peek: when
    the scanner supplies no token the call returns false at once. *)
Lemma first_peek_checked :
  forall fetch fuel p p1,
    is_first_state (state p) = false ->
    stream_end_produced p = false ->
    error p = YAML_NO_ERROR ->
    state p <> YAML_PARSE_END_STATE ->
    peek_token fetch p = Value None p1 ->
    yaml_parser_parse fetch fuel p = Value (false, yaml_event_zero) p1.
Proof.
  intros fetch fuel p p1 Hfirst Hend Herr Hst Hpeek.
  rewrite parse_dispatches by assumption.
  unfold yaml_parser_state_machine, bind, get.
  destruct (state p); try discriminate Hfirst; try (contradiction Hst; reflexivity);
    unfold yaml_parser_parse_stream_start, yaml_parser_parse_document_start,
      yaml_parser_parse_document_content, yaml_parser_parse_document_end,
      yaml_parser_parse_node, yaml_parser_parse_block_sequence_entry,
      yaml_parser_parse_indentless_sequence_entry, yaml_parser_parse_block_mapping_key,
      yaml_parser_parse_block_mapping_value, yaml_parser_parse_flow_sequence_entry,
      yaml_parser_parse_flow_sequence_entry_mapping_key,
      yaml_parser_parse_flow_sequence_entry_mapping_value,
      yaml_parser_parse_flow_sequence_entry_mapping_end,
      yaml_parser_parse_flow_mapping_key, yaml_parser_parse_flow_mapping_value,
      open_collection, peek_or_fail, bind, ret;
    cbv beta iota; rewrite Hpeek; reflexivity.
Qed.




(** ** The directive table *)

Lemma bytes_equal_true_iff : forall a b, bytes_equal a b = true <-> a = b.
Proof.
  induction a as [|x a IH]; intros [|y b]; cbn; split; intros H;
    try reflexivity; try discriminate.
  - apply andb_true_iff in H. destruct H as [Hx Hab].
    apply byte_dec_bl in Hx. apply IH in Hab. subst. reflexivity.
  - inversion H; subst. apply andb_true_iff. split.
    + apply byte_dec_lb. reflexivity.
    + apply IH. reflexivity.
Qed.

Lemma bytes_equal_sym : forall a b, bytes_equal a b = bytes_equal b a.
Proof.
  intros a b. destruct (bytes_equal a b) eqn:H1, (bytes_equal b a) eqn:H2;
    try reflexivity.
  - apply bytes_equal_true_iff in H1. subst.
    rewrite (proj2 (bytes_equal_true_iff b b) eq_refl) in H2. discriminate.
  - apply bytes_equal_true_iff in H2. subst.
    rewrite (proj2 (bytes_equal_true_iff a a) eq_refl) in H1. discriminate.
Qed.

Lemma directive_for_app :
  forall h tds d,
    directive_for h (tds ++ [d])
    = match directive_for h tds with
      | Some d0 => Some d0
      | None => if bytes_equal (handle d) h then Some d else None
      end.
Proof.
  intros h tds d. unfold directive_for. induction tds as [|a tds IH]; cbn.
  - reflexivity.
  - destruct (bytes_equal (handle a) h); [reflexivity | exact IH].
Qed.

Lemma directive_for_none :
  forall h tds, directive_for h tds = None -> ~ In h (map handle tds).
Proof.
  intros h tds. unfold directive_for. induction tds as [|a tds IH]; cbn; intros H.
  - intros [].
  - destruct (bytes_equal (handle a) h) eqn:Ha; [discriminate|].
    intros [Heq | Hin].
    + rewrite Heq in Ha. rewrite (proj2 (bytes_equal_true_iff h h) eq_refl) in Ha.
      discriminate.
    + exact (IH H Hin).
Qed.

Lemma directive_for_handle :
  forall h tds d, directive_for h tds = Some d -> handle d = h /\ In d tds.
Proof.
  intros h tds d H. unfold directive_for in H. apply find_some in H.
  destruct H as [Hin Heq]. apply bytes_equal_true_iff in Heq. auto.
Qed.

Lemma find_pointwise :
  forall (A : Type) (f g : A -> bool) (l : list A),
    (forall a, f a = g a) -> find f l = find g l.
Proof.
  intros A f g l H. induction l as [|a l IH]; cbn; [reflexivity|].
  rewrite H, IH. reflexivity.
Qed.

(** What [yaml_parser_append_tag_directive] does, by cases on the search for
    the handle. *)
Lemma append_tag_directive_cases :
  forall value allow_duplicates mark p,
    yaml_parser_append_tag_directive value allow_duplicates mark p
    = match directive_for (handle value) (tag_directives p) with
      | None => Value true (set_tag_directives (tag_directives p ++ [value]) p)
      | Some _ =>
          if allow_duplicates then Value true p
          else Value false
                 (set_error_fields YAML_PARSER_ERROR (context p) (context_mark p)
                    "found duplicate %TAG directive" mark p)
      end.
Proof.
  intros value dup mark p. unfold yaml_parser_append_tag_directive, directive_for, bind, get.
  rewrite (find_pointwise _ (fun tag => bytes_equal (handle value) (handle tag))
             (fun tag_directive => bytes_equal (handle tag_directive) (handle value)))
    by (intros a; apply bytes_equal_sym).
  destruct (find _ (tag_directives p)); [destruct dup|]; reflexivity.
Qed.

Lemma append_unique_handles :
  forall value allow_duplicates mark p ok p',
    unique_handles (tag_directives p) ->
    yaml_parser_append_tag_directive value allow_duplicates mark p = Value ok p' ->
    unique_handles (tag_directives p').
Proof.
  intros value dup mark p ok p' Hu H. rewrite append_tag_directive_cases in H.
  destruct (directive_for (handle value) (tag_directives p)) eqn:Hf.
  - destruct dup; inversion H; subst; exact Hu.
  - inversion H; subst. cbn [tag_directives set_tag_directives]. unfold unique_handles in *.
    rewrite map_app. cbn. apply NoDup_app; [exact Hu | repeat constructor; intros [] |].
    intros h Hin [Heq | []]. subst h. exact (directive_for_none _ _ Hf Hin).
Qed.

(** X1: appending a directive keeps the handles of the table pairwise
    distinct, whatever the directive and whether duplicates are allowed. *)
Theorem append_keeps_handles_unique :
  forall value allow_duplicates mark p ok p',
    unique_handles (tag_directives p) ->
    yaml_parser_append_tag_directive value allow_duplicates mark p = Value ok p' ->
    unique_handles (tag_directives p').
Proof. exact append_unique_handles. Qed.

Lemma append_keeps_handles_unique_witness :
  unique_handles (tag_directives parser_with_user_directive)
  /\ unique_handles
       (tag_directives
          (set_tag_directives
             (tag_directives parser_with_user_directive
              ++ [ {| handle := list_byte_of_string "!e!";
                      prefix := list_byte_of_string "tag:e:" |} ])
             parser_with_user_directive)).
Proof.
  assert (Hu : unique_handles (tag_directives parser_with_user_directive))
    by (repeat constructor; intros []).
  split; [exact Hu|].
  apply (append_keeps_handles_unique
           {| handle := list_byte_of_string "!e!"; prefix := list_byte_of_string "tag:e:" |}
           false (mark_at 0) parser_with_user_directive true _ Hu).
  reflexivity.
Defined.

(** X2: after an append that returns true the handle has an entry: the new
    directive when the handle was absent, the older entry otherwise; and
    every search that found an entry before finds the same entry after. *)
Theorem append_then_search :
  forall value allow_duplicates mark p p',
    yaml_parser_append_tag_directive value allow_duplicates mark p = Value true p' ->
    (exists d,
        directive_for (handle value) (tag_directives p') = Some d
        /\ (directive_for (handle value) (tag_directives p) = None -> d = value)
        /\ (forall d0, directive_for (handle value) (tag_directives p) = Some d0 -> d = d0))
    /\ (forall h d0,
          directive_for h (tag_directives p) = Some d0 ->
          directive_for h (tag_directives p') = Some d0).
Proof.
  intros value dup mark p p' H. rewrite append_tag_directive_cases in H.
  destruct (directive_for (handle value) (tag_directives p)) as [d|] eqn:Hf.
  - destruct dup; inversion H; subst. split.
    + exists d. repeat split; [exact Hf | discriminate | intros d0 H0; inversion H0; auto].
    + auto.
  - inversion H; subst. cbn [tag_directives set_tag_directives]. split.
    + exists value. rewrite directive_for_app, Hf.
      rewrite (proj2 (bytes_equal_true_iff _ _) eq_refl).
      repeat split; auto. discriminate.
    + intros h d0 H0. rewrite directive_for_app, H0. reflexivity.
Qed.

Lemma append_then_search_witness :
  exists d,
    directive_for (list_byte_of_string "!!") (tag_directives parser_with_user_directive)
    = Some d
    /\ prefix d = list_byte_of_string "tag:x:".
Proof.
  destruct (append_then_search
              {| handle := list_byte_of_string "!!";
                 prefix := list_byte_of_string "tag:yaml.org,2002:" |}
              true (mark_at 0) parser_with_user_directive parser_with_user_directive
              eq_refl) as [[d [H1 [_ H2]]] _].
  exists d. split; [exact H1|].
  rewrite (H2 {| handle := list_byte_of_string "!!";
                 prefix := list_byte_of_string "tag:x:" |} eq_refl).
  reflexivity.
Defined.

Lemma append_directives_allowing_duplicates :
  forall ds mark p,
    exists p',
      append_default_directives ds mark p = Value true p'
      /\ (forall d, In d ds -> directive_for (handle d) (tag_directives p') <> None)
      /\ (forall h d0,
            directive_for h (tag_directives p) = Some d0 ->
            directive_for h (tag_directives p') = Some d0)
      /\ (unique_handles (tag_directives p) -> unique_handles (tag_directives p'))
      /\ set_tag_directives (tag_directives p) p' = p.
Proof.
  induction ds as [|d ds IH]; intros mark p.
  - exists p. cbn. repeat split; auto. destruct p; reflexivity.
  - cbn [append_default_directives]. unfold bind at 1.
    destruct (yaml_parser_append_tag_directive d true mark p) as [ok q| |] eqn:Happ;
      rewrite append_tag_directive_cases in Happ;
      destruct (directive_for (handle d) (tag_directives p)) eqn:Hf; try discriminate.
    + inversion Happ; subst ok q.
      destruct (IH mark p) as (p' & Hrun & Hin & Hkeep & Hu & Hrest).
      exists p'. repeat split; auto.
      intros d' [Heq | Hd']; [subst d'| auto].
      rewrite (Hkeep _ _ Hf). discriminate.
    + inversion Happ; subst ok q.
      destruct (IH mark (set_tag_directives (tag_directives p ++ [d]) p))
        as (p' & Hrun & Hin & Hkeep & Hu & Hrest).
      exists p'. cbn [tag_directives set_tag_directives] in *. repeat split; auto.
      * intros d' [Heq | Hd']; [subst d'| auto].
        rewrite (Hkeep (handle d) d); [discriminate|].
        rewrite directive_for_app, Hf.
        rewrite (proj2 (bytes_equal_true_iff _ _) eq_refl). reflexivity.
      * intros h d0 H0. apply Hkeep. rewrite directive_for_app, H0. reflexivity.
      * intros Hup. apply Hu.
        apply (append_unique_handles d true mark p true
                 (set_tag_directives (tag_directives p ++ [d]) p) Hup).
        rewrite append_tag_directive_cases, Hf. reflexivity.
      * apply (f_equal (set_tag_directives (tag_directives p))) in Hrest.
        etransitivity; [exact Hrest | destruct p; reflexivity].
Qed.

(** X3: installing the built-in directives always returns true; afterwards
    the handles [!] and [!!] both have an entry, every search that found an
    entry before finds the same entry (a user directive for a built-in handle
    keeps its prefix), distinct handles stay distinct, and nothing but the
    table has changed. *)
Theorem default_directives_installed :
  forall mark p,
    exists p',
      append_default_directives default_tag_directives mark p = Value true p'
      /\ defaults_present (tag_directives p')
      /\ (forall h d0,
            directive_for h (tag_directives p) = Some d0 ->
            directive_for h (tag_directives p') = Some d0)
      /\ (unique_handles (tag_directives p) -> unique_handles (tag_directives p'))
      /\ set_tag_directives (tag_directives p) p' = p.
Proof.
  intros mark p. exact (append_directives_allowing_duplicates default_tag_directives mark p).
Qed.

Lemma process_directives_loop_skipped :
  forall fetch fuel token version_directive tag_directives p,
    token_is token YAML_VERSION_DIRECTIVE_TOKEN || token_is token YAML_TAG_DIRECTIVE_TOKEN
      = false ->
    process_directives_loop fetch fuel token version_directive tag_directives p
    = Value (Some (version_directive, tag_directives)) p.
Proof.
  intros fetch fuel token vd tds p H. destruct fuel; cbn; rewrite H; reflexivity.
Qed.

Lemma process_directives_returns_true :
  forall fetch fuel version_directive_ref tag_directives_ref p vr tr p',
    yaml_parser_process_directives fetch fuel version_directive_ref tag_directives_ref p
    = Value (true, vr, tr) p' ->
    exists token p1,
      peek_token fetch p = Value (Some token) p1
      /\ token_is token YAML_VERSION_DIRECTIVE_TOKEN = false
      /\ token_is token YAML_TAG_DIRECTIVE_TOKEN = false
      /\ vr = match version_directive_ref with Some _ => Some None | None => None end
      /\ tr = match tag_directives_ref with Some _ => Some [] | None => None end
      /\ defaults_present (tag_directives p')
      /\ (forall h d0,
            directive_for h (tag_directives p1) = Some d0 ->
            directive_for h (tag_directives p') = Some d0)
      /\ set_tag_directives (tag_directives p1) p' = p1.
Proof.
  intros fetch fuel vref tref p vr tr p' H.
  unfold yaml_parser_process_directives in H. unfold bind at 1 in H.
  destruct (peek_token fetch p) as [[token|] p1| |] eqn:Hpeek; try discriminate.
  unfold bind at 1 in H.
  destruct (token_is token YAML_VERSION_DIRECTIVE_TOKEN
            || token_is token YAML_TAG_DIRECTIVE_TOKEN) eqn:Hdir.
  - destruct (process_directives_loop fetch fuel token None [] p1) as [r q| |] eqn:Hloop;
      try discriminate.
    rewrite (process_directives_loop_never_exits _ _ _ _ _ _ _ _ Hdir Hloop) in H.
    discriminate.
  - rewrite (process_directives_loop_skipped _ _ _ _ _ _ Hdir) in H.
    destruct (append_directives_allowing_duplicates default_tag_directives
                (Token.start_mark token) p1)
      as (q & Hrun & Hdef & Hkeep & _ & Hrest).
    unfold bind at 1 in H. rewrite Hrun in H. inversion H; subst.
    apply orb_false_iff in Hdir. destruct Hdir as [Hv Ht].
    exists token, p1. repeat split; auto.
Qed.



(** ** The results of a call *)

Lemma wp_anything :
  forall (A : Type) (m : M A) p, wp m (fun _ _ => True) (fun _ => True) p.
Proof. intros A m p. unfold wp. destruct (m p); exact I. Qed.

Ltac result_leaf :=
  cbv beta in *; try assumption; unfold handler_result; subst; cbn in *;
  repeat match goal with
         | H : negb ?b = false |- _ => destruct b; [clear H | discriminate H]
         end;
  repeat match goal with
         | H : true = true -> _ |- _ => specialize (H eq_refl); destruct H; subst
         end;
  cbn;
  repeat split; intros; try discriminate; try reflexivity; auto.

Section Results.

Variable fetch : yaml_parser_t -> bool * yaml_parser_t.

Lemma wp_process_directives_refs :
  forall fuel p,
    wp (yaml_parser_process_directives fetch fuel (Some None) (Some []))
       (fun r _ => fst (fst r) = true -> snd (fst r) = Some None /\ snd r = Some [])
       (fun _ => True) p.
Proof.
  intros fuel p. unfold wp.
  destruct (yaml_parser_process_directives fetch fuel (Some None) (Some []) p)
    as [[[ok vr] tr] q| |] eqn:H; auto.
  cbn. intros Hok. subst ok.
  destruct (process_directives_returns_true _ _ _ _ _ _ _ _ H)
    as (_ & _ & _ & _ & _ & Hv & Ht & _).
  auto.
Qed.

Ltac result_hook :=
  first
    [ progress unfold parse_node_content
    | eapply wp_post; [apply wp_process_directives_refs | intros ? ? ?]
    | match goal with
      | |- wp (yaml_parser_process_directives _ _ None None) _ _ _ =>
          eapply wp_post; [apply wp_anything | intros ? ? _]
      | |- wp (skip_document_end_tokens _ _ _ _ _) _ _ ?q =>
          eapply (wp_skip_document_end_tokens fetch (fun _ _ => True)) with (p0 := q);
          first [ intros; exact I | eapply peeked_head; eassumption
                | intros ? _; result_leaf | intros ? ? _ ? ]
      end ].

Lemma parse_node_result :
  forall block indentless_sequence p,
    wp (yaml_parser_parse_node fetch yaml_event_zero block indentless_sequence)
       (fun r _ => handler_result r) (fun _ => True) p.
Proof.
  intros block ind p. unfold yaml_parser_parse_node.
  wp_run result_hook ltac:(exact I); result_leaf.
Qed.

Ltac result_handler :=
  wp_run
    ltac:(first [ eapply wp_post; [apply parse_node_result | intros ? ? ?; result_leaf]
                | result_hook ])
    ltac:(exact I);
  result_leaf.

Lemma state_machine_result :
  forall fuel p,
    wp (yaml_parser_state_machine fetch fuel yaml_event_zero)
       (fun r _ => handler_result r) (fun _ => True) p.
Proof.
  intros fuel p. unfold yaml_parser_state_machine. apply wp_bind, wp_get. cbv beta.
  destruct (state p) eqn:Hst;
    try (apply wp_panic; exact I);
    unfold yaml_parser_parse_stream_start, yaml_parser_parse_document_start,
      yaml_parser_parse_document_content, yaml_parser_parse_document_end,
      yaml_parser_parse_block_sequence_entry,
      yaml_parser_parse_indentless_sequence_entry, yaml_parser_parse_block_mapping_key,
      yaml_parser_parse_block_mapping_value, yaml_parser_parse_flow_sequence_entry,
      yaml_parser_parse_flow_sequence_entry_mapping_key,
      yaml_parser_parse_flow_sequence_entry_mapping_value,
      yaml_parser_parse_flow_sequence_entry_mapping_end,
      yaml_parser_parse_flow_mapping_key, yaml_parser_parse_flow_mapping_value;
    cbn [negb andb];
    result_handler.
Qed.

End Results.

Lemma parse_result :
  forall fetch fuel p ok e p',
    yaml_parser_parse fetch fuel p = Value (ok, e) p' ->
    (idle p = true /\ ok = true /\ e = yaml_event_zero /\ p' = p)
    \/ (idle p = false /\ handler_result (ok, e)).
Proof.
  intros fetch fuel p ok e p' H. unfold yaml_parser_parse, bind, get in H.
  change (stream_end_produced p
          || negb (yaml_error_type_t_beq (error p) YAML_NO_ERROR)
          || yaml_parser_state_t_beq (state p) YAML_PARSE_END_STATE)
    with (idle p) in H.
  destruct (idle p).
  - left. inversion H; subst. auto.
  - right. split; [reflexivity|].
    exact (wp_value _ _ _ _ _ _ _ (state_machine_result fetch fuel p) H).
Qed.

(** X5: a call that returns false leaves the zero event; a call that returns
    true either did nothing (the stream has ended, an error is latched or the
    state is END: zero event, parser unchanged) or carries an event of some
    type. *)
Theorem call_result_and_event :
  forall fetch fuel p ok e p',
    yaml_parser_parse fetch fuel p = Value (ok, e) p' ->
    (ok = false -> e = yaml_event_zero /\ idle p = false)
    /\ (ok = true ->
        if idle p then e = yaml_event_zero /\ p' = p
        else Event.event_type e <> YAML_NO_EVENT).
Proof.
  intros fetch fuel p ok e p' H.
  destruct (parse_result _ _ _ _ _ _ H) as [(Hi & Hok & He & Hp) | (Hi & Hf & Ht & _)];
    rewrite Hi; split; intros Ho; subst; auto; discriminate.
Qed.

Lemma call_result_and_event_witness :
  exists e p',
    yaml_parser_parse queue_fetch_more_tokens 0 parser_at_scalar = Value (true, e) p'
    /\ idle parser_at_scalar = false
    /\ Event.event_type e <> YAML_NO_EVENT.
Proof.
  eexists. eexists. split; [lazy; reflexivity|]. split; [reflexivity|].
  destruct (call_result_and_event queue_fetch_more_tokens 0 parser_at_scalar true _ _
              ltac:(lazy; reflexivity)) as [_ H].
  exact (H eq_refl).
Defined.



(** ** The result of a call and the error field *)

Section Told.

Variable fetch : yaml_parser_t -> bool * yaml_parser_t.
Hypothesis fetch_reports : scanner_reports fetch.

Lemma peeked_told :
  forall p o p1,
    peeked fetch p o p1 ->
    match o with
    | Some _ => error p1 = error p
    | None => error p1 <> YAML_NO_ERROR
    end.
Proof.
  intros p o p1 H. inversion H; subst.
  - reflexivity.
  - exact (fetch_reports p true p1 ltac:(assumption)).
  - exact (fetch_reports p false p1 ltac:(assumption)).
Qed.

Ltac told_leaf :=
  cbv beta in *; subst;
  repeat match goal with
         | H : peeked fetch _ _ _ |- _ => apply peeked_told in H
         end;
  unfold error_told in *; cbn in *;
  repeat match goal with
         | H : negb ?b = _ |- _ => destruct b; cbn in H; try discriminate H; clear H
         end;
  repeat match goal with
         | |- context [if ?b then _ else _] => destruct b
         | H : context [if ?b then _ else _] |- _ => destruct b
         end;
  cbn in *; try congruence.

Lemma wp_append_tag_directive_told :
  forall value allow_duplicates mark (E : go_panic -> Prop) p,
    wp (yaml_parser_append_tag_directive value allow_duplicates mark)
       (fun ok q => error_told p ok q) E p.
Proof.
  intros value dup mark E p. unfold wp. rewrite append_tag_directive_cases.
  destruct (directive_for _ _); [destruct dup|]; unfold error_told; cbn;
    try reflexivity. discriminate.
Qed.

Lemma wp_append_default_directives_told :
  forall ds mark (E : go_panic -> Prop) p,
    wp (append_default_directives ds mark) (fun ok q => error_told p ok q) E p.
Proof.
  induction ds as [|d ds IH]; intros mark E p; cbn [append_default_directives].
  - apply wp_ret. reflexivity.
  - apply wp_bind.
    eapply wp_post; [apply wp_append_tag_directive_told|].
    intros [] q Hq; cbv beta.
    + eapply wp_post; [apply IH|]. intros ok q' Hq'. told_leaf.
    + apply wp_ret. exact Hq.
Qed.

Lemma wp_process_directives_loop_told :
  forall fuel token version_directive tag_directives (E : go_panic -> Prop) p,
    E index_out_of_range ->
    wp (process_directives_loop fetch fuel token version_directive tag_directives)
       (fun r q => error_told p (match r with Some _ => true | None => false end) q) E p.
Proof.
  induction fuel as [|fuel IH]; intros token vd tds E p HE;
    cbn [process_directives_loop].
  - destruct (_ || _); [apply wp_out_of_fuel | apply wp_ret; reflexivity].
  - wp_run
      ltac:(first
        [ eapply wp_post; [apply IH; exact HE | intros ? ? ?]
        | eapply wp_post; [apply wp_append_tag_directive_told | intros ? ? ?] ])
      ltac:(exact HE);
      told_leaf.
Qed.

Lemma wp_process_directives_told :
  forall fuel version_directive_ref tag_directives_ref (E : go_panic -> Prop) p,
    E index_out_of_range ->
    wp (yaml_parser_process_directives fetch fuel version_directive_ref tag_directives_ref)
       (fun r q => error_told p (fst (fst r)) q) E p.
Proof.
  intros fuel vr tr E p HE. unfold yaml_parser_process_directives.
  wp_run
    ltac:(first
      [ eapply wp_post; [apply wp_process_directives_loop_told; exact HE | intros ? ? ?]
      | eapply wp_post; [apply wp_append_default_directives_told | intros ? ? ?] ])
    ltac:(exact HE);
    told_leaf.
Qed.

Lemma wp_skip_document_end_tokens_told :
  forall fuel event (k : yaml_token_t -> M handled) (E : go_panic -> Prop) p0,
    E index_out_of_range ->
    (forall t p', error p' = error p0 ->
                  wp (k t) (fun r q => error_told p0 (fst r) q) E p') ->
    forall token p,
      error p = error p0 ->
      wp (skip_document_end_tokens fetch fuel event token k)
         (fun r q => error_told p0 (fst r) q) E p.
Proof.
  intros fuel event k E p0 HE Hk.
  induction fuel as [|fuel IH]; intros token p Hp; cbn [skip_document_end_tokens].
  - destruct (token_is token YAML_DOCUMENT_END_TOKEN); [apply wp_out_of_fuel | auto].
  - destruct (token_is token YAML_DOCUMENT_END_TOKEN); [|auto].
    apply wp_bind. apply wp_skip_token; [intros t Ht | exact HE].
    unfold peek_or_fail. apply wp_bind. apply wp_peek_token; [intros o p1 Hpk | exact HE].
    destruct o as [t'|].
    + apply IH. told_leaf.
    + apply wp_ret. told_leaf.
Qed.

Ltac told_hook :=
  first
    [ progress unfold parse_node_content
    | eapply wp_post; [apply wp_process_directives_told; exact I | intros ? ? ?]
    | eapply wp_skip_document_end_tokens_told; [exact I | intros ? ? ? | told_leaf] ].

Lemma parse_node_told :
  forall event block indentless_sequence p,
    wp (yaml_parser_parse_node fetch event block indentless_sequence)
       (fun r q => error_told p (fst r) q) (fun _ => True) p.
Proof.
  intros event block ind p. unfold yaml_parser_parse_node.
  wp_run told_hook ltac:(exact I); told_leaf.
Qed.

Ltac told_handler :=
  wp_run
    ltac:(first [ eapply wp_post; [apply parse_node_told | intros ? ? ?; told_leaf]
                | told_hook ])
    ltac:(exact I);
  told_leaf.

Lemma state_machine_told :
  forall fuel event p,
    wp (yaml_parser_state_machine fetch fuel event)
       (fun r q => error_told p (fst r) q) (fun _ => True) p.
Proof.
  intros fuel event p. unfold yaml_parser_state_machine. apply wp_bind, wp_get. cbv beta.
  destruct (state p) eqn:Hst;
    try (apply wp_panic; exact I);
    unfold yaml_parser_parse_stream_start, yaml_parser_parse_document_start,
      yaml_parser_parse_document_content, yaml_parser_parse_document_end,
      yaml_parser_parse_block_sequence_entry,
      yaml_parser_parse_indentless_sequence_entry, yaml_parser_parse_block_mapping_key,
      yaml_parser_parse_block_mapping_value, yaml_parser_parse_flow_sequence_entry,
      yaml_parser_parse_flow_sequence_entry_mapping_key,
      yaml_parser_parse_flow_sequence_entry_mapping_value,
      yaml_parser_parse_flow_sequence_entry_mapping_end,
      yaml_parser_parse_flow_mapping_key, yaml_parser_parse_flow_mapping_value;
    cbn [negb andb];
    told_handler.
Qed.

Lemma parse_told :
  forall fuel p ok e p',
    yaml_parser_parse fetch fuel p = Value (ok, e) p' ->
    error_told p ok p'.
Proof.
  intros fuel p ok e p' H. unfold yaml_parser_parse, bind, get in H.
  destruct (_ || _).
  - inversion H; subst. reflexivity.
  - exact (wp_value _ _ _ _ _ _ _ (state_machine_told fuel yaml_event_zero p) H).
Qed.

End Told.

Lemma queue_scanner_reports : scanner_reports queue_fetch_more_tokens.
Proof.
  intros p ok p1 H. unfold queue_fetch_more_tokens in H.
  destruct (_ <? _)%nat; inversion H; subst; cbn; [reflexivity | discriminate].
Qed.

(** X7: with a scanner that latches an error whenever it fails and leaves
    the error field alone otherwise, the boolean of a call tells the error
    field: a call that returns true leaves the field as it was, a call that
    returns false has latched an error; after that every later call returns
    true with the zero event and changes nothing. *)
Theorem call_result_tells_error :
  forall fetch fuel p ok e p',
    scanner_reports fetch ->
    yaml_parser_parse fetch fuel p = Value (ok, e) p' ->
    (ok = true -> error p' = error p)
    /\ (ok = false ->
        error p' <> YAML_NO_ERROR
        /\ forall fuel' n,
             parse_calls fetch fuel' n p' = Value (repeat (true, yaml_event_zero) n) p').
Proof.
  intros fetch fuel p ok e p' Hf H.
  pose proof (parse_told fetch Hf fuel p ok e p' H) as Ht. unfold error_told in Ht.
  split; intros Hok; subst ok; [exact Ht|].
  split; [exact Ht|].
  intros fuel' n. apply parse_calls_idle. apply parse_after_error. exact Ht.
Qed.

Lemma call_result_tells_error_witness :
  exists e p',
    yaml_parser_parse queue_fetch_more_tokens 0 parser_before_bad_start = Value (false, e) p'
    /\ error p' <> YAML_NO_ERROR
    /\ parse_calls queue_fetch_more_tokens 0 3 p'
       = Value (repeat (true, yaml_event_zero) 3) p'.
Proof.
  eexists. eexists. split; [lazy; reflexivity|].
  destruct (call_result_tells_error queue_fetch_more_tokens 0 parser_before_bad_start
              false _ _ queue_scanner_reports ltac:(lazy; reflexivity)) as [_ H].
  destruct (H eq_refl) as [Herr Hidle].
  split; [exact Herr | exact (Hidle 0%nat 3%nat)].
Defined.

(** ** The grammar of the events *)

Lemma track_all_app :
  forall es pos e,
    track_all pos (es ++ [e])
    = match track_all pos es with
      | Some pos' => track pos' e
      | None => None
      end.
Proof.
  induction es as [|a es IH]; intros pos e; cbn.
  - destruct (track pos e); reflexivity.
  - destruct (track pos a); [apply IH | reflexivity].
Qed.

Lemma anchored_top :
  forall c l s, anchored_at c (l ++ [s]) -> is_return_state s = true /\ anchored_at s l.
Proof.
  intros c [|b l] s H; cbn in H.
  - destruct H as (Hb & _). subst s. split; reflexivity.
  - destruct H as (Hb & Hc & Hl & _). apply Forall_app in Hl. destruct Hl as [Hl Hs].
    inversion Hs as [|? ? [Hr Hf] _]; subst. split; [exact Hr|].
    cbn. repeat split; auto. intros Hn. destruct s; discriminate.
Qed.

Lemma anchored_move :
  forall c c' l,
    anchored_at c l -> framing c = 0 -> framing c' = 0 -> is_node_state c' = false ->
    anchored_at c' l.
Proof.
  intros c c' [|b l] H Hc Hc' Hn; cbn in *; [lia|].
  destruct H as (Hb & _ & Hl & _). repeat split; auto. rewrite Hn. discriminate.
Qed.

Lemma anchored_push :
  forall c c' l s,
    anchored_at c l -> framing c = 0 ->
    is_return_state s = true -> framing s = 0 ->
    framing c' = 0 -> is_node_state c' = false ->
    anchored_at c' (l ++ [s]).
Proof.
  intros c c' [|b l] s H Hc Hr Hs Hc' Hn; cbn in *; [lia|].
  destruct H as (Hb & _ & Hl & _). repeat split; auto.
  - apply Forall_app. split; [exact Hl | constructor; auto].
  - rewrite Hn. discriminate.
Qed.

Lemma anchored_framing :
  forall c l, anchored_at c l -> framing c = 1 -> l = [].
Proof.
  intros c [|b l] H Hc; [reflexivity|]. cbn in H. destruct H as (_ & H & _). lia.
Qed.

Lemma anchored_node :
  forall c l, anchored_at c l -> is_node_state c = true -> l = [YAML_PARSE_DOCUMENT_END_STATE].
Proof.
  intros c [|b l] H Hc; cbn in H.
  - destruct c; discriminate.
  - destruct H as (Hb & _ & _ & Hl). rewrite (Hl Hc), Hb. reflexivity.
Qed.

(** The equations a peek and the two loops give on the state and the
    state stack, oriented towards the parser the handler started from. *)
Ltac stack_frame Hf :=
  unfold stacks_kept in *;
  repeat match goal with
         | H : peeked ?f _ _ _ |- _ =>
             apply (peeked_frame f Hf) in H;
             let E1 := fresh "Est" in
             let E2 := fresh "Ess" in
             destruct H as (E1 & E2 & _ & _)
         | H : state _ = _ /\ states _ = _ /\ marks _ = _ |- _ =>
             let E1 := fresh "Est" in
             let E2 := fresh "Ess" in
             destruct H as (E1 & E2 & _)
         end;
  cbn [fst snd state states set_state set_states set_marks set_queue set_error_fields
       set_tag_directives] in *;
  repeat match goal with
         | H : state ?a = _ |- _ => is_var a; try rewrite H in *; clear H
         | H : states ?a = _ |- _ => is_var a; try rewrite H in *; clear H
         end.

(** The cases of a handler on the state stack: an empty stack in a framing
    state, the lone DOCUMENT-END below a node state, the return state a pop
    finds, and the two ways [yaml_parser_parse_node] returns true. *)
Ltac anchor_cases :=
  try match goal with
      | H : anchored_at ?c ?l |- _ =>
          first
            [ let E := fresh in
              pose proof (anchored_framing c l H eq_refl) as E; rewrite E in *; clear E
            | let E := fresh in
              pose proof (anchored_node c l H eq_refl) as E; rewrite E in * ; clear E ]
      end;
  repeat match goal with
         | H : top (?l ++ [?x]) = Some ?s |- _ =>
             rewrite top_app in H; inversion H; subst; clear H
         | H : top [?x] = Some ?s |- _ =>
             cbn in H; inversion H; subst; clear H
         | H : top [] = Some ?s |- _ => discriminate H
         end;
  try match goal with
      | H : top ?l = Some ?s, Ha : anchored_at _ ?l |- _ =>
          let l0 := fresh "l0" in
          let Hr := fresh "Hret" in
          let Ha' := fresh "Hanch" in
          set (l0 := removelast l) in *;
          rewrite (top_split _ l s H : l = l0 ++ [s]) in Ha;
          try rewrite (top_split _ l s H : l = l0 ++ [s]);
          clearbody l0; clear H;
          destruct (anchored_top _ _ _ Ha) as [Hr Ha'];
          destruct s; try discriminate Hr
      end;
  try match goal with
      | H : (exists s, _) \/ _ |- _ =>
          let s := fresh "s" in
          let H1 := fresh "Hstack" in
          let H2 := fresh "Hstate" in
          let H3 := fresh "Hevent" in
          destruct H as [(s & H1 & H2 & H3) | (H1 & H2)];
          [ first [ apply app_inj_tail in H1
                  | apply (app_inj_tail [] _ _ _) in H1 ];
            let Hs := fresh in
            destruct H1 as [H1 Hs]; subst s; try rewrite H2 in *; try rewrite <- H1 in *
          | try rewrite H1 in *; revert H2;
            match goal with
            | |- opened_by ?s _ -> _ =>
                destruct s; cbn [opened_by]; intros H2; try contradiction H2
            end ]
      end;
  cbn [removelast app] in *; rewrite ?removelast_last in *.

Ltac nest_track :=
  unfold position_at; rewrite ?rev_unit; cbn [rev flat_map frames app];
  unfold track;
  repeat match goal with
         | H : Event.event_type ?e = _ |- _ => rewrite H
         end;
  cbn;
  try match goal with
      | H : is_leaf_event ?e = true |- _ =>
          unfold is_leaf_event in H; destruct (Event.event_type e); try discriminate H
      end;
  cbn; reflexivity.

Ltac nest_anchor :=
  first
    [ assumption
    | eapply anchored_move; [eassumption | reflexivity | reflexivity | reflexivity]
    | eapply anchored_push;
      [eassumption | reflexivity | reflexivity | reflexivity | reflexivity | reflexivity]
    | cbn; repeat split; auto; intros; try discriminate; try reflexivity ].

Section Grammar.

Variable fetch : yaml_parser_t -> bool * yaml_parser_t.
Hypothesis fetch_frame : scanner_frame fetch.

Ltac node_leaf :=
  cbv beta; unfold node_nest; cbn [fst snd];
  let Hok := fresh in
  intros Hok; try discriminate Hok;
  stack_frame fetch_frame;
  first
    [ right; split; [reflexivity | cbn; reflexivity]
    | match goal with
      | H : top ?l = Some ?s |- _ =>
          left; exists s; split; [exact (top_split _ l s H) | split; reflexivity]
      end ].

Lemma parse_node_nest :
  forall event block indentless_sequence p,
    wp (yaml_parser_parse_node fetch event block indentless_sequence)
       (node_nest p) (fun _ => True) p.
Proof.
  intros event block ind p. unfold yaml_parser_parse_node.
  wp_run ltac:(progress unfold parse_node_content) ltac:(exact I); node_leaf.
Qed.

Ltac nest_leaf :=
  cbv beta; unfold nest_step, node_nest, anchored, position_of in *; cbn [fst snd] in *;
  let Hok := fresh "Hok" in
  let Hanch := fresh "Hanch" in
  intros Hok Hanch; try discriminate Hok;
  repeat match goal with
         | H : ?a = true -> _, H' : ?a = true |- _ => specialize (H H')
         end;
  stack_frame fetch_frame;
  anchor_cases;
  (split; [nest_anchor | nest_track]).

Ltac nest_hook :=
  first
    [ eapply wp_post; [apply parse_node_nest | intros ? ? ?; nest_leaf]
    | eapply wp_post;
      [ apply (wp_process_directives fetch stacks_kept (stacks_kept_refl)
                 (stacks_kept_trans) (stacks_kept_peek fetch fetch_frame)
                 (stacks_kept_queue) (stacks_kept_error)
                 (stacks_kept_directives));
        exact I
      | intros ? ? ? ]
    | match goal with
      | |- wp _ _ _ ?q =>
          eapply (wp_skip_document_end_tokens fetch stacks_kept (stacks_kept_trans)
                    (stacks_kept_peek fetch fetch_frame) (stacks_kept_queue))
            with (p0 := q)
      end;
      first [ exact I | apply stacks_kept_refl | eapply peeked_head; eassumption
            | intros ? ?; nest_leaf | intros ? ? ? ? ] ].

Ltac nest_handler := wp_run nest_hook ltac:(exact I); nest_leaf.

Lemma state_machine_nest :
  forall fuel p,
    wp (yaml_parser_state_machine fetch fuel yaml_event_zero) (nest_step p)
       (fun _ => True) p.
Proof.
  intros fuel p. unfold yaml_parser_state_machine. apply wp_bind, wp_get. cbv beta.
  destruct (state p) eqn:Hst.
  - unfold yaml_parser_parse_stream_start. nest_handler.
  - unfold yaml_parser_parse_document_start. cbn [negb andb]. nest_handler.
  - unfold yaml_parser_parse_document_start. cbn [negb andb]. nest_handler.
  - unfold yaml_parser_parse_document_content. nest_handler.
  - unfold yaml_parser_parse_document_end. nest_handler.
  - nest_handler.
  - nest_handler.
  - nest_handler.
  - unfold yaml_parser_parse_block_sequence_entry. nest_handler.
  - unfold yaml_parser_parse_block_sequence_entry. nest_handler.
  - unfold yaml_parser_parse_indentless_sequence_entry. nest_handler.
  - unfold yaml_parser_parse_block_mapping_key. nest_handler.
  - unfold yaml_parser_parse_block_mapping_key. nest_handler.
  - unfold yaml_parser_parse_block_mapping_value. nest_handler.
  - unfold yaml_parser_parse_flow_sequence_entry. nest_handler.
  - unfold yaml_parser_parse_flow_sequence_entry. nest_handler.
  - unfold yaml_parser_parse_flow_sequence_entry_mapping_key. nest_handler.
  - unfold yaml_parser_parse_flow_sequence_entry_mapping_value. nest_handler.
  - unfold yaml_parser_parse_flow_sequence_entry_mapping_end. nest_handler.
  - unfold yaml_parser_parse_flow_mapping_key. nest_handler.
  - unfold yaml_parser_parse_flow_mapping_key. nest_handler.
  - unfold yaml_parser_parse_flow_mapping_value. nest_handler.
  - unfold yaml_parser_parse_flow_mapping_value. nest_handler.
  - apply wp_panic. exact I.
Qed.

Lemma parse_nest :
  forall fuel p e p',
    anchored p ->
    yaml_parser_parse fetch fuel p = Value (true, e) p' ->
    anchored p' /\ track (position_of p) e = Some (position_of p').
Proof.
  intros fuel p e p' Hanch Hcall. unfold yaml_parser_parse, bind, get in Hcall.
  destruct (_ || _).
  - inversion Hcall; subst. split; [exact Hanch | reflexivity].
  - exact (wp_value _ _ _ _ _ _ _ (state_machine_nest fuel p) Hcall eq_refl Hanch).
Qed.

Lemma reached_nest :
  forall p es,
    reached fetch p es ->
    anchored p /\ track_all before_stream es = Some (position_of p).
Proof.
  intros p es H. induction H as [ts | fuel p es e p' _ [IHa IHt] Hcall].
  - split; reflexivity.
  - destruct (parse_nest fuel p e p' IHa Hcall) as [Ha Ht].
    split; [exact Ha|]. rewrite track_all_app, IHt. exact Ht.
Qed.

End Grammar.

(** X9: the events of the calls that return true, from a new parser on,
    follow the grammar of event streams -- the stream start first, documents
    with one root node each, collections closed innermost first by an end
    event of their own kind, keys and values in pairs -- and the state and the
    state stack stand for the constructs that are open; the stack is empty
    between documents and has DOCUMENT-END at its bottom inside one.  In
    state END the events are a complete stream. *)
Theorem events_follow_grammar :
  forall fetch p es,
    scanner_frame fetch ->
    reached fetch p es ->
    track_all before_stream es = Some (position_of p)
    /\ anchored p
    /\ (state p = YAML_PARSE_END_STATE -> track_all before_stream es = Some after_stream).
Proof.
  intros fetch p es Hf Hr. destruct (reached_nest fetch Hf p es Hr) as [Ha Ht].
  split; [exact Ht|]. split; [exact Ha|].
  intros Hend. rewrite Ht. unfold position_of. rewrite Hend. reflexivity.
Qed.

Lemma events_follow_grammar_witness :
  scanner_frame queue_fetch_more_tokens
  /\ reached queue_fetch_more_tokens (run_parser indentless_run) (run_events indentless_run)
  /\ track_all before_stream (run_events indentless_run)
     = Some (position_of (run_parser indentless_run)).
Proof.
  split; [exact queue_scanner_frame|]. split; [exact indentless_run_reached|].
  exact (proj1 (events_follow_grammar queue_fetch_more_tokens (run_parser indentless_run)
                  (run_events indentless_run) queue_scanner_frame
                  indentless_run_reached)).
Defined.

(** ** The scope of the directive table *)

Lemma wp_and :
  forall (A : Type) (m : M A) (Q1 Q2 : A -> yaml_parser_t -> Prop) E p,
    wp m Q1 E p -> wp m Q2 E p -> wp m (fun a q => Q1 a q /\ Q2 a q) E p.
Proof. intros A m Q1 Q2 E p H1 H2. unfold wp in *. destruct (m p); auto. Qed.

Lemma append_defaults_on_empty :
  forall mark p,
    tag_directives p = [] ->
    append_default_directives default_tag_directives mark p
    = Value true (set_tag_directives default_tag_directives p).
Proof.
  intros mark p Hnil. unfold default_tag_directives.
  cbn [append_default_directives]. unfold bind at 1.
  rewrite append_tag_directive_cases, Hnil. cbn [directive_for find app].
  unfold bind at 1. rewrite append_tag_directive_cases.
  cbn [tag_directives set_tag_directives]. cbn.
  destruct p; reflexivity.
Qed.

Section Scope.

Variable fetch : yaml_parser_t -> bool * yaml_parser_t.
Hypothesis fetch_frame : scanner_frame fetch.
Hypothesis fetch_keeps : scanner_keeps_directives fetch.

Lemma peeked_table :
  forall p o p1, peeked fetch p o p1 -> tag_directives p1 = tag_directives p.
Proof.
  intros p o p1 H. inversion H; subst; [reflexivity | |]; eapply fetch_keeps; eassumption.
Qed.

Lemma table_kept_refl : forall p, table_kept p p.
Proof. intros p. split; [apply stacks_kept_refl | reflexivity]. Qed.

Lemma table_kept_trans :
  forall p q r, table_kept p q -> table_kept q r -> table_kept p r.
Proof.
  intros p q r [H1 H2] [H3 H4]. split; [eapply stacks_kept_trans; eassumption | congruence].
Qed.

Lemma table_kept_peek : forall p o p1, peeked fetch p o p1 -> table_kept p p1.
Proof.
  intros p o p1 H. split; [exact (stacks_kept_peek fetch fetch_frame p o p1 H)|].
  exact (peeked_table p o p1 H).
Qed.

Lemma table_kept_queue : forall h n a se p, table_kept p (set_queue h n a se p).
Proof. intros. split; [apply stacks_kept_queue | reflexivity]. Qed.

Lemma wp_process_directives_scope :
  forall fuel version_directive_ref tag_directives_ref p,
    wp (yaml_parser_process_directives fetch fuel version_directive_ref tag_directives_ref)
       (fun r q =>
          fst (fst r) = true ->
          tag_directives p = [] ->
          stacks_kept p q /\ tag_directives q = default_tag_directives)
       (fun _ => True) p.
Proof.
  intros fuel vr tr p. unfold wp.
  destruct (yaml_parser_process_directives fetch fuel vr tr p) as [[[ok v] t] q| |] eqn:H;
    auto.
  cbn [fst]. intros Hok Hnil. subst ok.
  unfold yaml_parser_process_directives in H. unfold bind at 1 in H.
  destruct (peek_token fetch p) as [[token|] p1| |] eqn:Hpeek; try discriminate.
  apply peek_token_peeked in Hpeek.
  pose proof (peeked_table _ _ _ Hpeek) as Htable.
  pose proof (stacks_kept_peek fetch fetch_frame _ _ _ Hpeek) as Hkept.
  unfold bind at 1 in H.
  destruct (token_is token YAML_VERSION_DIRECTIVE_TOKEN
            || token_is token YAML_TAG_DIRECTIVE_TOKEN) eqn:Hdir.
  - destruct (process_directives_loop fetch fuel token None [] p1) as [r q'| |] eqn:Hloop;
      try discriminate.
    rewrite (process_directives_loop_never_exits _ _ _ _ _ _ _ _ Hdir Hloop) in H.
    discriminate.
  - rewrite (process_directives_loop_skipped _ _ _ _ _ _ Hdir) in H.
    unfold bind at 1 in H.
    rewrite (append_defaults_on_empty _ p1) in H by congruence.
    inversion H; subst. split; [exact Hkept | reflexivity].
Qed.

Ltac scope_frame :=
  repeat match goal with
         | H : _ /\ _ |- _ => destruct H
         end;
  repeat match goal with
         | H : negb ?b = false |- _ => destruct b; [clear H | discriminate H]
         end;
  repeat match goal with
         | H : peeked fetch ?a _ ?b |- _ =>
             lazymatch goal with
             | _ : tag_directives b = tag_directives a |- _ => fail
             | _ => pose proof (peeked_table _ _ _ H)
             end
         end;
  stack_frame fetch_frame;
  cbn [fst snd tag_directives set_state set_states set_marks set_queue set_error_fields
       set_tag_directives] in *;
  repeat match goal with
         | H : tag_directives ?a = _ |- _ => is_var a; try rewrite H in *; clear H
         end.

Ltac table_leaf :=
  cbv beta; unfold table_kept, stacks_kept in *; cbn [fst snd] in *;
  scope_frame; repeat split; first [reflexivity | assumption | congruence].

Ltac node_table_leaf :=
  cbv beta; cbn [fst snd];
  let Hok := fresh in
  intros Hok; try discriminate Hok;
  scope_frame; reflexivity.

Lemma parse_node_table :
  forall event block indentless_sequence p,
    wp (yaml_parser_parse_node fetch event block indentless_sequence)
       (fun r q => fst r = true -> tag_directives q = tag_directives p)
       (fun _ => True) p.
Proof.
  intros event block ind p. unfold yaml_parser_parse_node.
  wp_run ltac:(progress unfold parse_node_content) ltac:(exact I); node_table_leaf.
Qed.

Lemma parse_node_scope :
  forall event block indentless_sequence p,
    wp (yaml_parser_parse_node fetch event block indentless_sequence)
       (node_scope p) (fun _ => True) p.
Proof.
  intros event block ind p. unfold node_scope.
  apply wp_and; [apply (parse_node_nest fetch fetch_frame) | apply parse_node_table].
Qed.

Ltac scope_leaf :=
  cbv beta;
  unfold scope_step, node_scope, node_nest, anchored, table_scoped, table_kept in *;
  cbn [fst snd] in *;
  let Hok := fresh "Hok" in
  let Hanch := fresh "Hanch" in
  let Hscoped := fresh "Hscoped" in
  intros Hok Hanch Hscoped; try discriminate Hok;
  scope_frame;
  cbn [between_documents] in *;
  repeat match goal with
         | H : ?a = true -> _, H' : ?a = true |- _ => specialize (H H')
         | H : ?x = ?x -> _ |- _ => specialize (H eq_refl)
         end;
  scope_frame;
  anchor_cases;
  cbn [between_documents] in *;
  first [ reflexivity | assumption | congruence ].

Ltac scope_hook :=
  first
    [ eapply wp_post; [apply parse_node_scope | intros ? ? ?; scope_leaf]
    | eapply wp_post; [apply wp_process_directives_scope | intros ? ? ?]
    | match goal with
      | |- wp _ _ _ ?q =>
          eapply (wp_skip_document_end_tokens fetch table_kept table_kept_trans
                    table_kept_peek table_kept_queue)
            with (p0 := q)
      end;
      first [ exact I | apply table_kept_refl | eapply peeked_head; eassumption
            | intros ? ?; scope_leaf | intros ? ? ? ? ] ].

Ltac scope_handler := wp_run scope_hook ltac:(exact I); scope_leaf.

Lemma state_machine_scope :
  forall fuel p,
    wp (yaml_parser_state_machine fetch fuel yaml_event_zero) (scope_step p)
       (fun _ => True) p.
Proof.
  intros fuel p. unfold yaml_parser_state_machine. apply wp_bind, wp_get. cbv beta.
  destruct (state p) eqn:Hst;
    try (apply wp_panic; exact I);
    unfold yaml_parser_parse_stream_start, yaml_parser_parse_document_start,
      yaml_parser_parse_document_content, yaml_parser_parse_document_end,
      yaml_parser_parse_block_sequence_entry,
      yaml_parser_parse_indentless_sequence_entry, yaml_parser_parse_block_mapping_key,
      yaml_parser_parse_block_mapping_value, yaml_parser_parse_flow_sequence_entry,
      yaml_parser_parse_flow_sequence_entry_mapping_key,
      yaml_parser_parse_flow_sequence_entry_mapping_value,
      yaml_parser_parse_flow_sequence_entry_mapping_end,
      yaml_parser_parse_flow_mapping_key, yaml_parser_parse_flow_mapping_value;
    cbn [negb andb];
    scope_handler.
Qed.

Lemma parse_scope :
  forall fuel p e p',
    anchored p ->
    table_scoped p ->
    yaml_parser_parse fetch fuel p = Value (true, e) p' ->
    table_scoped p'.
Proof.
  intros fuel p e p' Hanch Hscoped Hcall. unfold yaml_parser_parse, bind, get in Hcall.
  destruct (_ || _).
  - inversion Hcall; subst. exact Hscoped.
  - exact (wp_value _ _ _ _ _ _ _ (state_machine_scope fuel p) Hcall eq_refl Hanch Hscoped).
Qed.

Lemma reached_scope :
  forall p es, reached fetch p es -> table_scoped p.
Proof.
  intros p es H. induction H as [ts | fuel p es e p' Hr IH Hcall].
  - reflexivity.
  - eapply parse_scope; [|exact IH | exact Hcall].
    exact (proj1 (reached_nest fetch fetch_frame p es Hr)).
Qed.

End Scope.

Lemma queue_keeps_directives : scanner_keeps_directives queue_fetch_more_tokens.
Proof.
  intros p ok p1 H. unfold queue_fetch_more_tokens in H.
  destruct (_ <? _)%nat; inversion H; subst; reflexivity.
Qed.



(** ** Run-time panics *)

Lemma snoc_not_nil : forall (A : Type) (l : list A) (x : A), l ++ [x] <> [].
Proof. intros A l x H. apply app_eq_nil in H. destruct H; discriminate. Qed.

Lemma balanced_safe_at :
  forall p n m, balanced p n m -> head_ok p -> safe_at p.
Proof.
  intros p n m (Hm & _ & _ & Hf & Hk & _) Hh. unfold safe_at, control in *.
  repeat split; auto.
  - intros Hs Hnil. rewrite Hnil in Hk. cbn in Hk. lia.
  - intros Hs Hnil. rewrite Hnil in Hm. cbn in Hm. lia.
Qed.

Section Safety.

Variable fetch : yaml_parser_t -> bool * yaml_parser_t.
Hypothesis fetch_frame : scanner_frame fetch.
Hypothesis fetch_delivers : scanner_delivers fetch.

Lemma wp_peek_token_safe :
  forall (Q : option yaml_token_t -> yaml_parser_t -> Prop) (E : go_panic -> Prop) p,
    head_ok p ->
    (forall o p1, peeked fetch p o p1 -> Q o p1) ->
    wp (peek_token fetch) Q E p.
Proof.
  intros Q E p Hhead HQ. unfold wp, peek_token.
  destruct (token_available p) eqn:Ha.
  - destruct (nth_error (tokens p) (tokens_head p)) eqn:Hn.
    + apply HQ. apply peeked_buffered; assumption.
    + contradiction (Hhead Ha).
  - destruct (fetch p) as [[] q] eqn:Hf.
    + destruct (nth_error (tokens q) (tokens_head q)) eqn:Hn.
      * apply HQ. eapply peeked_fetched; eassumption.
      * contradiction (fetch_delivers p q Hf).
    + apply HQ. apply peeked_failed; assumption.
Qed.

Lemma wp_skip_token_safe :
  forall (Q : unit -> yaml_parser_t -> Prop) (E : go_panic -> Prop) p t,
    nth_error (tokens p) (tokens_head p) = Some t ->
    Q tt (set_queue (S (tokens_head p)) (int_wrap (tokens_parsed p + 1)) false
            (token_is t YAML_STREAM_END_TOKEN) p) ->
    wp skip_token Q E p.
Proof. intros Q E p t Hn HQ. unfold wp, skip_token. rewrite Hn. exact HQ. Qed.

Lemma wp_pop_state_safe :
  forall (Q : unit -> yaml_parser_t -> Prop) (E : go_panic -> Prop) p,
    states p <> [] ->
    (forall s, top (states p) = Some s ->
               Q tt (set_states (removelast (states p)) (set_state s p))) ->
    wp pop_state Q E p.
Proof.
  intros Q E p Hne HQ. unfold wp, pop_state.
  destruct (top (states p)) eqn:Ht; [auto|].
  destruct (exists_last Hne) as (l & s & Hl). rewrite Hl, top_app in Ht. discriminate.
Qed.

Lemma wp_pop_mark_safe :
  forall (Q : unit -> yaml_parser_t -> Prop) (E : go_panic -> Prop) p,
    marks p <> [] ->
    Q tt (set_marks (removelast (marks p)) p) ->
    wp pop_mark Q E p.
Proof.
  intros Q E p Hne HQ. unfold wp, pop_mark. destruct (marks p); [contradiction | exact HQ].
Qed.

Lemma wp_top_mark_safe :
  forall (Q : yaml_mark_t -> yaml_parser_t -> Prop) (E : go_panic -> Prop) p,
    marks p <> [] ->
    (forall m, top (marks p) = Some m -> Q m p) ->
    wp top_mark Q E p.
Proof.
  intros Q E p Hne HQ. unfold wp, top_mark.
  destruct (top (marks p)) eqn:Ht; [auto|].
  destruct (exists_last Hne) as (l & s & Hl). rewrite Hl, top_app in Ht. discriminate.
Qed.

Ltac safe_facts :=
  cbv beta in *; unfold queue_kept, head_kept, stacks_kept in *;
  repeat first
    [ progress cbn [fst snd] in *
    | match goal with
      | H : _ /\ _ |- _ => destruct H
      | H : negb ?b = false |- _ => destruct b; [clear H | discriminate H]
      | H : ?x = ?x -> _ |- _ => specialize (H eq_refl)
      end ].

Ltac side_rewrite :=
  cbn [state states marks tokens tokens_head token_available set_state set_states
       set_marks set_queue set_error_fields set_tag_directives];
  repeat match goal with
         | H : state ?a = _ |- _ => is_var a; rewrite H
         | H : states ?a = _ |- _ => is_var a; rewrite H
         | H : marks ?a = _ |- _ => is_var a; rewrite H
         | H : tokens ?a = _ |- _ => is_var a; rewrite H
         | H : tokens_head ?a = _ |- _ => is_var a; rewrite H
         | H : token_available ?a = _ |- _ => is_var a; rewrite H
         end;
  cbn [state states marks tokens tokens_head token_available set_state set_states
       set_marks set_queue set_error_fields set_tag_directives].

Ltac side_head :=
  safe_facts;
  first
    [ assumption
    | unfold head_ok in *; side_rewrite;
      first
        [ assumption
        | let H := fresh in
          intros H;
          first
            [ discriminate H
            | match goal with
              | Hp : peeked _ _ (Some _) ?b |- nth_error (tokens ?b) _ <> None =>
                  rewrite (peeked_head _ _ _ _ Hp); discriminate
              | Hn : nth_error ?l ?n = Some _ |- nth_error ?l ?n <> None =>
                  rewrite Hn; discriminate
              | Hh : _ -> nth_error ?l ?n <> None |- nth_error ?l ?n <> None =>
                  apply Hh; assumption
              end ] ] ].

Ltac side_skip :=
  safe_facts; side_rewrite;
  first [ eassumption | eapply peeked_head; eassumption ].

Ltac side_stack :=
  safe_facts; side_rewrite; first [ assumption | apply snoc_not_nil ].

Ltac side_panic :=
  unfold tag_panic;
  first
    [ reflexivity
    | exfalso;
      match goal with
      | H : peeked _ ?a None _, Ha : token_available ?a = true |- _ =>
          inversion H; congruence
      end ].

Ltac safe_step node :=
  cbv beta iota zeta;
  lazymatch goal with
  | |- wp (bind _ _) _ _ _ => apply wp_bind
  | |- wp (ret _) _ _ _ => apply wp_ret
  | |- wp (modify _) _ _ _ => apply wp_modify
  | |- wp get _ _ _ => apply wp_get
  | |- wp (panic _) _ _ _ => apply wp_panic; side_panic
  | |- wp out_of_fuel _ _ _ => apply wp_out_of_fuel
  | |- wp (peek_token _) _ _ _ =>
      apply wp_peek_token_safe;
      [ side_head
      | let o := fresh "o" in
        let q := fresh "q" in
        let H := fresh "Hpeek" in
        let E1 := fresh "Est" in
        let E2 := fresh "Ess" in
        let E3 := fresh "Emk" in
        intros o q H;
        destruct (peeked_frame fetch fetch_frame _ _ _ H) as (E1 & E2 & E3 & _);
        cbn [state states marks set_state set_states set_marks set_queue
             set_error_fields set_tag_directives] in E1, E2, E3 ]
  | |- wp skip_token _ _ _ => eapply wp_skip_token_safe; [side_skip | ]
  | |- wp pop_state _ _ _ => apply wp_pop_state_safe; [side_stack | intros ? ?]
  | |- wp pop_mark _ _ _ => apply wp_pop_mark_safe; [side_stack | ]
  | |- wp top_mark _ _ _ => apply wp_top_mark_safe; [side_stack | intros ? ?]
  | |- wp (push_state _) _ _ _ => unfold push_state
  | |- wp (push_mark _) _ _ _ => unfold push_mark
  | |- wp (peek_or_fail _ _ _) _ _ _ => unfold peek_or_fail
  | |- wp (peek_unchecked _) _ _ _ => unfold peek_unchecked
  | |- wp (open_collection _ _) _ _ _ => unfold open_collection
  | |- wp (store_tag_handle _ _) _ _ _ => unfold store_tag_handle
  | |- wp (resolve_tag _ _ _ _ _ _) _ _ _ => unfold resolve_tag
  | |- wp (yaml_parser_set_parser_error _ _) _ _ _ => unfold yaml_parser_set_parser_error
  | |- wp (yaml_parser_set_parser_error_context _ _ _ _) _ _ _ =>
      unfold yaml_parser_set_parser_error_context
  | |- wp (yaml_parser_process_empty_scalar _) _ _ _ =>
      unfold yaml_parser_process_empty_scalar
  | |- wp (if ?b then _ else _) _ _ _ => destruct b eqn:?
  | |- wp (match ?x with _ => _ end) _ _ _ => destruct x eqn:?
  | |- wp (let '(_, _) := ?x in _) _ _ _ => destruct x eqn:?
  | |- wp _ _ _ _ => node
  end.

Ltac safe_run node := repeat (safe_step node).

Ltac safe_leaf :=
  cbv beta; unfold head_kept; cbn [fst snd];
  let H := fresh in
  intros H; try discriminate H; side_head.

Lemma wp_append_tag_directive_safe :
  forall value allow_duplicates mark p,
    wp (yaml_parser_append_tag_directive value allow_duplicates mark)
       (fun _ q => queue_kept p q) tag_panic p.
Proof.
  intros value dup mark p. unfold wp. rewrite append_tag_directive_cases.
  destruct (directive_for _ _); [destruct dup|]; repeat split.
Qed.

Lemma queue_kept_trans :
  forall p q r, queue_kept p q -> queue_kept q r -> queue_kept p r.
Proof.
  intros p q r (H1 & H2 & H3 & H4) (H5 & H6 & H7 & H8).
  split; [eapply stacks_kept_trans; eassumption | repeat split; congruence].
Qed.

Lemma wp_append_default_directives_safe :
  forall ds mark p,
    wp (append_default_directives ds mark) (fun _ q => queue_kept p q) tag_panic p.
Proof.
  induction ds as [|d ds IH]; intros mark p; cbn [append_default_directives].
  - apply wp_ret. repeat split.
  - apply wp_bind.
    eapply wp_post; [apply wp_append_tag_directive_safe|].
    intros [] q Hq; cbv beta.
    + eapply wp_post; [apply IH|]. intros ok q' Hq'. eapply queue_kept_trans; eassumption.
    + apply wp_ret. exact Hq.
Qed.

Lemma wp_process_directives_loop_safe :
  forall fuel token version_directive tag_directives p t0,
    nth_error (tokens p) (tokens_head p) = Some t0 ->
    wp (process_directives_loop fetch fuel token version_directive tag_directives)
       (fun r q =>
          r <> None ->
          stacks_kept p q /\ nth_error (tokens q) (tokens_head q) <> None)
       tag_panic p.
Proof.
  induction fuel as [|fuel IH]; intros token vd tds p t0 Hhead;
    cbn [process_directives_loop].
  - destruct (_ || _); [apply wp_out_of_fuel|].
    apply wp_ret. intros _. split; [apply stacks_kept_refl | rewrite Hhead; discriminate].
  - safe_run
      ltac:(first
        [ eapply wp_post;
          [ eapply IH; eapply peeked_head; eassumption | intros ? ? ? ]
        | eapply wp_post; [apply wp_append_tag_directive_safe | intros ? ? ?] ]);
      cbv beta in *;
      (let Hne := fresh in
       intros Hne; try (contradiction Hne; reflexivity);
       repeat match goal with
              | H : ?a <> None -> _ |- _ => specialize (H Hne)
              end);
      safe_facts;
      (split; [ repeat split; side_rewrite; reflexivity
              | side_rewrite;
                first [ assumption
                      | match goal with
                        | Hn : nth_error ?l ?n = Some _ |- nth_error ?l ?n <> None =>
                            rewrite Hn; discriminate
                        end ] ]).
Qed.

Lemma wp_process_directives_safe :
  forall fuel version_directive_ref tag_directives_ref p,
    head_ok p ->
    wp (yaml_parser_process_directives fetch fuel version_directive_ref tag_directives_ref)
       (fun r q => fst (fst r) = true -> stacks_kept p q /\ head_ok q)
       tag_panic p.
Proof.
  intros fuel vr tr p Hhead. unfold yaml_parser_process_directives.
  safe_run
    ltac:(first
      [ eapply wp_post;
        [ eapply wp_process_directives_loop_safe; eapply peeked_head; eassumption
        | intros ? ? ? ]
      | eapply wp_post; [apply wp_append_default_directives_safe | intros ? ? ?] ]);
    cbv beta in *; cbn [fst snd];
    (let H := fresh in intros H; try discriminate H);
    repeat match goal with
           | H : Some ?x <> None -> _ |- _ =>
               specialize (H ltac:(discriminate))
           end;
    safe_facts;
    (split; [ repeat split; side_rewrite; reflexivity
            | unfold head_ok; side_rewrite; intros _; assumption ]).
Qed.

Lemma wp_skip_document_end_tokens_safe :
  forall fuel event (k : yaml_token_t -> M handled) p0,
    (forall t p', stacks_kept p0 p' ->
                  nth_error (tokens p') (tokens_head p') = Some t ->
                  wp (k t) head_kept tag_panic p') ->
    forall token p,
      stacks_kept p0 p ->
      nth_error (tokens p) (tokens_head p) = Some token ->
      wp (skip_document_end_tokens fetch fuel event token k) head_kept tag_panic p.
Proof.
  intros fuel event k p0 Hk.
  induction fuel as [|fuel IH]; intros token p Hp Hhead;
    cbn [skip_document_end_tokens].
  - destruct (token_is token YAML_DOCUMENT_END_TOKEN); [apply wp_out_of_fuel | auto].
  - destruct (token_is token YAML_DOCUMENT_END_TOKEN); [|auto].
    apply wp_bind. eapply wp_skip_token_safe; [exact Hhead|].
    unfold peek_or_fail. apply wp_bind.
    apply wp_peek_token_safe; [intros H; discriminate H|].
    intros o p1 Hpk. destruct o as [t'|].
    + apply IH; [|eapply peeked_head; eassumption].
      eapply stacks_kept_trans; [exact Hp|].
      eapply stacks_kept_trans; [apply stacks_kept_queue|].
      exact (stacks_kept_peek fetch fetch_frame _ _ _ Hpk).
    + apply wp_ret. intros H. discriminate H.
Qed.

Lemma parse_node_safe :
  forall event block indentless_sequence p,
    head_ok p ->
    states p <> [] ->
    wp (yaml_parser_parse_node fetch event block indentless_sequence)
       head_kept tag_panic p.
Proof.
  intros event block ind p Hhead Hstates. unfold yaml_parser_parse_node.
  safe_run ltac:(progress unfold parse_node_content); safe_leaf.
Qed.

Ltac safe_hook :=
  first
    [ apply parse_node_safe; [side_head | side_stack]
    | eapply wp_post; [apply wp_process_directives_safe; side_head | intros ? ? ?]
    | match goal with
      | |- wp (skip_document_end_tokens _ _ _ _ _) _ _ ?q =>
          eapply wp_skip_document_end_tokens_safe with (p0 := q);
          [ intros ? ? ? ?
          | apply stacks_kept_refl
          | eapply peeked_head; eassumption ]
      end ].

Ltac safe_handler := safe_run safe_hook; safe_leaf.

Lemma state_machine_safe :
  forall fuel event p,
    safe_at p ->
    state p <> YAML_PARSE_END_STATE ->
    wp (yaml_parser_state_machine fetch fuel event) head_kept tag_panic p.
Proof.
  intros fuel event p (Hhead & Hstates & Hmarks & Hfirst) Hend.
  unfold yaml_parser_state_machine. apply wp_bind, wp_get. cbv beta.
  destruct (state p) eqn:Hst; try (contradiction Hend; reflexivity);
    cbn [framing marked is_first_state] in Hstates, Hmarks, Hfirst;
    try specialize (Hstates eq_refl);
    try specialize (Hmarks eq_refl);
    try specialize (Hfirst eq_refl);
    unfold yaml_parser_parse_stream_start, yaml_parser_parse_document_start,
      yaml_parser_parse_document_content, yaml_parser_parse_document_end,
      yaml_parser_parse_block_sequence_entry,
      yaml_parser_parse_indentless_sequence_entry, yaml_parser_parse_block_mapping_key,
      yaml_parser_parse_block_mapping_value, yaml_parser_parse_flow_sequence_entry,
      yaml_parser_parse_flow_sequence_entry_mapping_key,
      yaml_parser_parse_flow_sequence_entry_mapping_value,
      yaml_parser_parse_flow_sequence_entry_mapping_end,
      yaml_parser_parse_flow_mapping_key, yaml_parser_parse_flow_mapping_value;
    cbn [negb andb];
    safe_handler.
Qed.

Lemma parse_safe :
  forall fuel p,
    safe_at p ->
    wp (yaml_parser_parse fetch fuel) head_kept tag_panic p.
Proof.
  intros fuel p Hsafe. unfold yaml_parser_parse. apply wp_bind, wp_get. cbv beta.
  destruct (_ || _) eqn:Hidle.
  - apply wp_ret. intros _. exact (proj1 Hsafe).
  - apply state_machine_safe; [exact Hsafe|].
    apply orb_false_iff in Hidle. destruct Hidle as [_ Hend].
    intros Heq. rewrite Heq in Hend. discriminate Hend.
Qed.

Lemma reached_head_ok :
  forall p es, reached fetch p es -> head_ok p.
Proof.
  intros p es H. induction H as [ts | fuel p es e p' Hr IH Hcall].
  - intros Hav. discriminate Hav.
  - pose proof (reached_balanced fetch fetch_frame p es Hr) as Hb.
    exact (wp_value _ _ _ _ _ _ _
             (parse_safe fuel p (balanced_safe_at _ _ _ Hb IH)) Hcall eq_refl).
Qed.

Lemma reached_safe_at :
  forall p es, reached fetch p es -> safe_at p.
Proof.
  intros p es Hr. eapply balanced_safe_at.
  - exact (reached_balanced fetch fetch_frame p es Hr).
  - exact (reached_head_ok p es Hr).
Qed.

End Safety.

Lemma queue_scanner_delivers : scanner_delivers queue_fetch_more_tokens.
Proof.
  intros p p1 H. unfold queue_fetch_more_tokens in H.
  destruct (tokens_head p <? List.length (tokens p))%nat eqn:Hlt; inversion H; subst.
  cbn. apply Nat.ltb_lt in Hlt. apply nth_error_Some. exact Hlt.
Qed.

Lemma tagged_scalar_run_succeeds :
  exists rs p,
    parse_calls queue_fetch_more_tokens 0 2 (yaml_parser_new tagged_scalar_tokens)
    = Value rs p
    /\ tagged_scalar_run = Value rs p
    /\ forallb fst rs = true.
Proof.
  vm_compute. do 2 eexists. repeat split; reflexivity.
Qed.

Lemma tagged_scalar_run_reached :
  reached queue_fetch_more_tokens (run_parser tagged_scalar_run)
    (run_events tagged_scalar_run).
Proof.
  destruct tagged_scalar_run_succeeds as (rs & p & Hcalls & Hrun & Hok).
  rewrite Hrun. cbn [run_parser run_events].
  apply (parse_calls_reached queue_fetch_more_tokens 0 2
           (yaml_parser_new tagged_scalar_tokens) [] rs p).
  - apply reached_new.
  - exact Hcalls.
  - exact Hok.
Qed.

Lemma tagged_scalar_run_panics :
  yaml_parser_parse queue_fetch_more_tokens 0 (run_parser tagged_scalar_run)
  = Panic nil_tag_handle_dereference.
Proof.
  vm_compute. reflexivity.
Qed.

(** X8: with a scanner that leaves the state and the stacks alone and puts a
    token at the head of the queue whenever it succeeds, a call on a parser
    reached from a new one by calls that return true raises no index out of
    range, no nil token and no invalid state: the one panic it can raise is
    the store through the nil tag handle. *)
Theorem calls_panic_only_on_tags :
  forall fetch fuel p es k,
    scanner_frame fetch ->
    scanner_delivers fetch ->
    reached fetch p es ->
    yaml_parser_parse fetch fuel p = Panic k ->
    k = nil_tag_handle_dereference.
Proof.
  intros fetch fuel p es k Hf Hd Hr Hpanic.
  exact (wp_panics _ _ _ _ _ _
           (parse_safe fetch Hf Hd fuel p (reached_safe_at fetch Hf Hd p es Hr)) Hpanic).
Qed.

Lemma calls_panic_only_on_tags_witness :
  scanner_frame queue_fetch_more_tokens
  /\ scanner_delivers queue_fetch_more_tokens
  /\ reached queue_fetch_more_tokens (run_parser tagged_scalar_run)
       (run_events tagged_scalar_run)
  /\ exists k,
       yaml_parser_parse queue_fetch_more_tokens 0 (run_parser tagged_scalar_run) = Panic k
       /\ k = nil_tag_handle_dereference.
Proof.
  split; [exact queue_scanner_frame|]. split; [exact queue_scanner_delivers|].
  split; [exact tagged_scalar_run_reached|].
  exists nil_tag_handle_dereference. split; [exact tagged_scalar_run_panics|].
  exact (calls_panic_only_on_tags queue_fetch_more_tokens 0 (run_parser tagged_scalar_run)
           (run_events tagged_scalar_run) nil_tag_handle_dereference
           queue_scanner_frame queue_scanner_delivers tagged_scalar_run_reached
           tagged_scalar_run_panics).
Defined.

(** ** Fuel *)

Lemma twp_post :
  forall (A : Type) (m : M A) (Q Q' : A -> yaml_parser_t -> Prop) p,
    twp m Q' p -> (forall a p', Q' a p' -> Q a p') -> twp m Q p.
Proof. intros A m Q Q' p H HQ. unfold twp in *. destruct (m p); auto. Qed.

Lemma twp_bind :
  forall (A B : Type) (m : M A) (k : A -> M B) Q p,
    twp m (fun a p' => twp (k a) Q p') p -> twp (bind m k) Q p.
Proof. intros A B m k Q p H. unfold twp, bind in *. destruct (m p); auto. Qed.

Lemma twp_ret :
  forall (A : Type) (a : A) (Q : A -> yaml_parser_t -> Prop) p, Q a p -> twp (ret a) Q p.
Proof. intros; assumption. Qed.

Lemma twp_modify :
  forall f (Q : unit -> yaml_parser_t -> Prop) p, Q tt (f p) -> twp (modify f) Q p.
Proof. intros; assumption. Qed.

Lemma twp_get :
  forall (Q : yaml_parser_t -> yaml_parser_t -> Prop) p, Q p p -> twp get Q p.
Proof. intros; assumption. Qed.

Lemma twp_panic :
  forall (A : Type) k (Q : A -> yaml_parser_t -> Prop) p, twp (panic k) Q p.
Proof. intros; exact I. Qed.

Lemma twp_skip_token :
  forall (Q : unit -> yaml_parser_t -> Prop) p,
    (forall t, nth_error (tokens p) (tokens_head p) = Some t ->
               Q tt (set_queue (S (tokens_head p)) (int_wrap (tokens_parsed p + 1)) false
                       (token_is t YAML_STREAM_END_TOKEN) p)) ->
    twp skip_token Q p.
Proof.
  intros Q p HQ. unfold twp, skip_token.
  destruct (nth_error (tokens p) (tokens_head p)); auto.
Qed.

Lemma twp_pop_state :
  forall (Q : unit -> yaml_parser_t -> Prop) p,
    (forall s, Q tt (set_states (removelast (states p)) (set_state s p))) ->
    twp pop_state Q p.
Proof. intros Q p HQ. unfold twp, pop_state. destruct (top (states p)); auto. Qed.

Lemma twp_pop_mark :
  forall (Q : unit -> yaml_parser_t -> Prop) p,
    Q tt (set_marks (removelast (marks p)) p) -> twp pop_mark Q p.
Proof. intros Q p HQ. unfold twp, pop_mark. destruct (marks p); auto. Qed.

Lemma twp_top_mark :
  forall (Q : yaml_mark_t -> yaml_parser_t -> Prop) p,
    (forall m, Q m p) -> twp top_mark Q p.
Proof. intros Q p HQ. unfold twp, top_mark. destruct (top (marks p)); auto. Qed.

Lemma unread_head :
  forall p, nth_error (tokens p) (tokens_head p) <> None -> (1 <= unread p)%nat.
Proof.
  intros p H. apply nth_error_Some in H. unfold unread. lia.
Qed.

Section Fuel.

Variable fetch : yaml_parser_t -> bool * yaml_parser_t.
Hypothesis fetch_queue : scanner_on_queue fetch.

Lemma peeked_queue :
  forall p o p1,
    peeked fetch p o p1 -> tokens p1 = tokens p /\ tokens_head p1 = tokens_head p.
Proof.
  intros p o p1 H. inversion H; subst.
  - auto.
  - destruct (fetch_queue _ _ _ H1) as (? & ? & _). auto.
  - destruct (fetch_queue _ _ _ H1) as (? & ? & _). auto.
Qed.

Lemma twp_peek_token :
  forall (Q : option yaml_token_t -> yaml_parser_t -> Prop) p,
    (forall o p1, peeked fetch p o p1 -> Q o p1) ->
    twp (peek_token fetch) Q p.
Proof.
  intros Q p HQ. unfold twp.
  destruct (peek_token fetch p) as [o p1|k|] eqn:Hp; auto.
  - apply HQ. apply peek_token_peeked. exact Hp.
  - unfold peek_token in Hp.
    destruct (if token_available p then (true, p) else fetch p) as [[] q];
      [destruct (nth_error (tokens q) (tokens_head q))|]; discriminate Hp.
Qed.

Ltac fuel_facts :=
  cbv beta in *; unfold queue_advanced, unread in *;
  repeat match goal with
         | H : _ /\ _ |- _ => destruct H
         end;
  cbn [fst snd tokens tokens_head set_state set_states set_marks set_queue
       set_error_fields set_tag_directives] in *;
  repeat match goal with
         | H : tokens ?a = _ |- _ => is_var a; try rewrite H in *; clear H
         end.

Ltac fuel_side :=
  repeat match goal with
         | Hp : peeked _ _ (Some ?t) ?b |- _ =>
             lazymatch goal with
             | _ : nth_error (tokens b) (tokens_head b) = Some t |- _ => fail
             | _ => pose proof (peeked_head _ _ _ _ Hp)
             end
         end;
  fuel_facts;
  first
    [ assumption
    | lia
    | match goal with
      | E : nth_error ?l ?n = Some _ |- nth_error ?l ?n <> None =>
          rewrite E; discriminate
      end ].

Ltac fuel_leaf :=
  first [ fuel_side | fuel_facts; split; [reflexivity | lia] ].

Ltac twp_step node :=
  cbv beta iota zeta;
  lazymatch goal with
  | |- twp (bind _ _) _ _ => apply twp_bind
  | |- twp (ret _) _ _ => apply twp_ret
  | |- twp (modify _) _ _ => apply twp_modify
  | |- twp get _ _ => apply twp_get
  | |- twp (panic _) _ _ => apply twp_panic
  | |- twp (peek_token _) _ _ =>
      apply twp_peek_token;
      let o := fresh "o" in
      let q := fresh "q" in
      let H := fresh "Hpeek" in
      let E1 := fresh "Etk" in
      let E2 := fresh "Ehd" in
      intros o q H;
      destruct (peeked_queue _ _ _ H) as (E1 & E2);
      cbn [tokens tokens_head set_state set_states set_marks set_queue
           set_error_fields set_tag_directives] in E1, E2
  | |- twp skip_token _ _ => apply twp_skip_token; intros ? ?
  | |- twp pop_state _ _ => apply twp_pop_state; intros ?
  | |- twp pop_mark _ _ => apply twp_pop_mark
  | |- twp top_mark _ _ => apply twp_top_mark; intros ?
  | |- twp (push_state _) _ _ => unfold push_state
  | |- twp (push_mark _) _ _ => unfold push_mark
  | |- twp (peek_or_fail _ _ _) _ _ => unfold peek_or_fail
  | |- twp (peek_unchecked _) _ _ => unfold peek_unchecked
  | |- twp (open_collection _ _) _ _ => unfold open_collection
  | |- twp (store_tag_handle _ _) _ _ => unfold store_tag_handle
  | |- twp (resolve_tag _ _ _ _ _ _) _ _ => unfold resolve_tag
  | |- twp (yaml_parser_set_parser_error _ _) _ _ => unfold yaml_parser_set_parser_error
  | |- twp (yaml_parser_set_parser_error_context _ _ _ _) _ _ =>
      unfold yaml_parser_set_parser_error_context
  | |- twp (yaml_parser_process_empty_scalar _) _ _ =>
      unfold yaml_parser_process_empty_scalar
  | |- twp (if ?b then _ else _) _ _ => destruct b eqn:?
  | |- twp (match ?x with _ => _ end) _ _ => destruct x eqn:?
  | |- twp (let '(_, _) := ?x in _) _ _ => destruct x eqn:?
  | |- twp _ _ _ => node
  end.

Ltac twp_run node := repeat (twp_step node).

Lemma twp_append_tag_directive :
  forall value allow_duplicates mark p,
    twp (yaml_parser_append_tag_directive value allow_duplicates mark)
        (fun _ q => tokens q = tokens p /\ tokens_head q = tokens_head p) p.
Proof.
  intros value dup mark p. unfold twp. rewrite append_tag_directive_cases.
  destruct (directive_for _ _); [destruct dup|]; split; reflexivity.
Qed.

Lemma twp_append_default_directives :
  forall ds mark p,
    twp (append_default_directives ds mark)
        (fun _ q => tokens q = tokens p /\ tokens_head q = tokens_head p) p.
Proof.
  induction ds as [|d ds IH]; intros mark p; cbn [append_default_directives].
  - apply twp_ret. split; reflexivity.
  - apply twp_bind.
    eapply twp_post; [apply twp_append_tag_directive|].
    intros [] q [Hq1 Hq2]; cbv beta.
    + eapply twp_post; [apply IH|]. intros ok q' [H1 H2]. split; congruence.
    + apply twp_ret. split; assumption.
Qed.

Lemma twp_process_directives_loop :
  forall fuel token version_directive tag_directives p,
    nth_error (tokens p) (tokens_head p) <> None ->
    (unread p <= fuel)%nat ->
    twp (process_directives_loop fetch fuel token version_directive tag_directives)
        (fun _ q => queue_advanced p q) p.
Proof.
  induction fuel as [|fuel IH]; intros token vd tds p Hhead Hfuel;
    cbn [process_directives_loop].
  - apply unread_head in Hhead. lia.
  - apply unread_head in Hhead.
    twp_run
      ltac:(first
        [ eapply twp_post; [apply IH; fuel_side | intros ? ? ?]
        | eapply twp_post; [apply twp_append_tag_directive | intros ? ? ?] ]);
      fuel_leaf.
Qed.

Lemma twp_process_directives :
  forall fuel version_directive_ref tag_directives_ref p,
    (unread p <= fuel)%nat ->
    twp (yaml_parser_process_directives fetch fuel version_directive_ref tag_directives_ref)
        (fun _ q => queue_advanced p q) p.
Proof.
  intros fuel vr tr p Hfuel. unfold yaml_parser_process_directives.
  twp_run
    ltac:(first
      [ eapply twp_post; [apply twp_process_directives_loop; fuel_side | intros ? ? ?]
      | eapply twp_post; [apply twp_append_default_directives | intros ? ? ?] ]);
    fuel_leaf.
Qed.

Lemma twp_skip_document_end_tokens :
  forall fuel event (k : yaml_token_t -> M handled) p0,
    (forall t q, queue_advanced p0 q ->
                 twp (k t) (fun _ q' => queue_advanced p0 q') q) ->
    forall token p,
      queue_advanced p0 p ->
      nth_error (tokens p) (tokens_head p) <> None ->
      (unread p <= fuel)%nat ->
      twp (skip_document_end_tokens fetch fuel event token k)
          (fun _ q' => queue_advanced p0 q') p.
Proof.
  intros fuel event k p0 Hk.
  induction fuel as [|fuel IH]; intros token p Hp Hhead Hfuel;
    cbn [skip_document_end_tokens].
  - apply unread_head in Hhead. lia.
  - apply unread_head in Hhead.
    destruct (token_is token YAML_DOCUMENT_END_TOKEN); [|auto].
    twp_run ltac:(apply IH; fuel_leaf); fuel_leaf.
Qed.

Lemma parse_node_returns :
  forall event block indentless_sequence p,
    twp (yaml_parser_parse_node fetch event block indentless_sequence)
        (fun _ q => queue_advanced p q) p.
Proof.
  intros event block ind p. unfold yaml_parser_parse_node.
  twp_run ltac:(progress unfold parse_node_content); fuel_leaf.
Qed.

Ltac fuel_hook :=
  first
    [ eapply twp_post; [apply parse_node_returns | intros ? ? ?; fuel_leaf]
    | eapply twp_post; [apply twp_process_directives; fuel_side | intros ? ? ?]
    | match goal with
      | |- twp (skip_document_end_tokens _ _ _ _ _) _ _ =>
          eapply twp_skip_document_end_tokens; [intros ? ? ? | fuel_leaf ..]
      end ].

Lemma state_machine_returns :
  forall fuel event p,
    (unread p <= fuel)%nat ->
    twp (yaml_parser_state_machine fetch fuel event) (fun _ q => queue_advanced p q) p.
Proof.
  intros fuel event p Hfuel. unfold yaml_parser_state_machine.
  apply twp_bind, twp_get. cbv beta.
  destruct (state p) eqn:Hst;
    try apply twp_panic;
    unfold yaml_parser_parse_stream_start, yaml_parser_parse_document_start,
      yaml_parser_parse_document_content, yaml_parser_parse_document_end,
      yaml_parser_parse_block_sequence_entry,
      yaml_parser_parse_indentless_sequence_entry, yaml_parser_parse_block_mapping_key,
      yaml_parser_parse_block_mapping_value, yaml_parser_parse_flow_sequence_entry,
      yaml_parser_parse_flow_sequence_entry_mapping_key,
      yaml_parser_parse_flow_sequence_entry_mapping_value,
      yaml_parser_parse_flow_sequence_entry_mapping_end,
      yaml_parser_parse_flow_mapping_key, yaml_parser_parse_flow_mapping_value;
    cbn [negb andb];
    twp_run fuel_hook; fuel_leaf.
Qed.

Lemma parse_returns :
  forall fuel p,
    (unread p <= fuel)%nat ->
    twp (yaml_parser_parse fetch fuel) (fun _ q => queue_advanced p q) p.
Proof.
  intros fuel p Hfuel. unfold yaml_parser_parse. apply twp_bind, twp_get. cbv beta.
  destruct (_ || _).
  - apply twp_ret. split; [reflexivity | lia].
  - apply state_machine_returns. exact Hfuel.
Qed.

Lemma parse_calls_return :
  forall fuel n p,
    (unread p <= fuel)%nat ->
    twp (parse_calls fetch fuel n) (fun _ q => queue_advanced p q) p.
Proof.
  intros fuel n. induction n as [|n IH]; intros p Hfuel; cbn [parse_calls].
  - apply twp_ret. split; [reflexivity | lia].
  - apply twp_bind. eapply twp_post; [apply parse_returns; exact Hfuel|].
    intros r q Hq. cbv beta. apply twp_bind.
    eapply twp_post; [apply IH; fuel_side|].
    intros rs q' Hq'. cbv beta. apply twp_ret. fuel_leaf.
Qed.

End Fuel.

Lemma queue_scanner_on_queue : scanner_on_queue queue_fetch_more_tokens.
Proof.
  intros p ok p1 H. unfold queue_fetch_more_tokens in H.
  destruct (tokens_head p <? List.length (tokens p))%nat eqn:Hlt; inversion H; subst;
    cbn; repeat split; try discriminate.
  intros _. apply Nat.ltb_lt in Hlt. apply nth_error_Some. exact Hlt.
Qed.

(** X11: with a scanner that works on a queue filled beforehand, a run of
    calls whose fuel is at least the number of tokens from the head on never
    runs out of fuel: the loop over document end indicators and the loop over
    directives come to an end, every call returns or panics.  The calls leave
    the tokens as they are and never move the head back. *)
Theorem calls_return_on_a_queue :
  forall fetch fuel n p,
    scanner_on_queue fetch ->
    (unread p <= fuel)%nat ->
    parse_calls fetch fuel n p <> OutOfFuel
    /\ forall rs p',
         parse_calls fetch fuel n p = Value rs p' ->
         tokens p' = tokens p /\ (tokens_head p <= tokens_head p')%nat.
Proof.
  intros fetch fuel n p Hq Hfuel.
  pose proof (parse_calls_return fetch Hq fuel n p Hfuel) as H. unfold twp in H.
  destruct (parse_calls fetch fuel n p) as [rs q| |].
  - split; [discriminate|]. intros rs' p' Heq. inversion Heq; subst. exact H.
  - split; [discriminate|]. intros rs' p' Heq. discriminate Heq.
  - contradiction.
Qed.

Lemma calls_return_on_a_queue_witness :
  (unread parser_before_document_ends <= 3)%nat
  /\ parse_calls queue_fetch_more_tokens 3 2 parser_before_document_ends <> OutOfFuel.
Proof.
  assert (H : (unread parser_before_document_ends <= 3)%nat) by (cbv; lia).
  split; [exact H|].
  exact (proj1 (calls_return_on_a_queue queue_fetch_more_tokens 3 2
                  parser_before_document_ends queue_scanner_on_queue H)).
Defined.
